(** * h5py: HDF5 error support and Python exception translation

    A shallow embedding of [h5py/h5e.pyx] (exception tables, error stack
    inspection, the automatic error callback and its registration),
    together with models of the HDF5 engine operations that the binding
    wraps. *)

From Stdlib Require Import ZArith NArith Ascii String Lia ZifyNat ZifyN.
From Stdlib.Strings Require Import Byte.
From stdpp Require Import base option list gmap strings pretty.

Local Open Scope string_scope.
Local Open Scope list_scope.
Local Open Scope Z_scope.

(** ** Python-side values *)

(** The exception classes defined or used by [h5e.pyx].  The last
    constructor stands for a class created at run time from two bases. *)
Inductive PyClass : Type :=
  (* built-in exceptions *)
  | IOError | ValueError | KeyError | TypeError
  | NotImplementedError | RuntimeError
  (* exception hierarchy based on major error codes *)
  | H5Error
  | ArgsError | ResourceError | InternalError | FileError
  | LowLevelIOError | FuncError | AtomError | CacheError | BtreeError
  | SymbolError | HeapError | ObjectHeaderError | DatatypeError
  | DataspaceError | DatasetError | StorageError | PropertyError
  | AttrError | FilterError | FileListError | RefError
  | VirtualFileError | TSTError | RSError | ErrorError | SkipListError
  (* class HybridClass(cls1, cls2) *)
  | HybridClass (cls1 cls2 : PyClass).

(** Modelled from the spec: [_stub.generate_class] lives in [h5py/_stub.py],
    which is not among the sources.  The spec (design notes) describes it as
    combining the major and the minor class into one synthesized class; the
    comment above [_minor_table] says the generated exception also descends
    from the built-in exception.  The result is the class with exactly these
    two bases, in this order. *)
Definition generate_class (cls1 cls2 : PyClass) : PyClass :=
  HybridClass cls1 cls2.

(** The two axes of the spec's [ErrorKind]: the broad category given by the
    major error class and the optional cross-cutting refinement. *)
Record ErrorKind : Type := mkErrorKind {
  category : PyClass;
  refinement : option PyClass
}.

Definition kind_of (exc : PyClass) : ErrorKind :=
  match exc with
  | HybridClass cls1 cls2 => mkErrorKind cls1 (Some cls2)
  | _ => mkErrorKind exc None
  end.

(** A Python dict literal: entries are stored left to right, so a key that
    occurs twice keeps its last value. *)
Definition py_dict `{Countable K} {V : Type} (entries : list (K * V)) : gmap K V :=
  foldl (fun d kv => <[kv.1 := kv.2]> d) ∅ entries.

(** [d.get(key, default)] *)
Definition dict_get `{Countable K} {V : Type} (d : gmap K V) (key : K) (default : V) : V :=
  match d !! key with
  | Some v => v
  | None => default
  end.

(** ** Byte strings *)

Definition newline : string := String (ascii_of_nat 10) EmptyString.

Definition dquote : string := String (ascii_of_nat 34) EmptyString.

Definition islower (c : ascii) : bool :=
  let n := nat_of_ascii c in (97 <=? n)%nat && (n <=? 122)%nat.

Definition isupper (c : ascii) : bool :=
  let n := nat_of_ascii c in (65 <=? n)%nat && (n <=? 90)%nat.

Definition toupper (c : ascii) : ascii :=
  if islower c then ascii_of_nat (nat_of_ascii c - 32) else c.

Definition tolower (c : ascii) : ascii :=
  if isupper c then ascii_of_nat (nat_of_ascii c + 32) else c.

Fixpoint string_map (f : ascii -> ascii) (s : string) : string :=
  match s with
  | EmptyString => EmptyString
  | String c r => String (f c) (string_map f r)
  end.

(** [str.capitalize()]: the first character upper-cased, all the others
    lower-cased. *)
Definition capitalize (s : string) : string :=
  match s with
  | EmptyString => EmptyString
  | String c r => String (toupper c) (string_map tolower r)
  end.

(** Upper-casing the first character only. *)
Definition upper_first (s : string) : string :=
  match s with
  | EmptyString => EmptyString
  | String c r => String (toupper c) r
  end.

Definition string_tail (s : string) : string :=
  match s with
  | EmptyString => EmptyString
  | String _ r => r
  end.

(** [''.join(ls)] *)
Definition join (ls : list string) : string := foldr String.append "" ls.

Fixpoint string_forall (p : ascii -> bool) (s : string) : bool :=
  match s with
  | EmptyString => true
  | String c r => p c && string_forall p r
  end.

(** ** The HDF5 library as seen from [h5e.pyx] *)

(** The C cast [<int>] of an integer value: it is reduced to the 32 bits of
    an [int], in two's complement. *)
Definition c_int (z : Z) : Z := (z + 2 ^ 31) mod 2 ^ 32 - 2 ^ 31.

Definition herr_t : Type := Z.

(** The error codes and the two description functions come from [hdf5.h];
    the module only names them. *)
Class HDF5_errors : Type := {
  (* major codes *)
  H5E_ARGS : Z; H5E_RESOURCE : Z; H5E_INTERNAL : Z; H5E_FILE : Z;
  H5E_IO : Z; H5E_FUNC : Z; H5E_ATOM : Z; H5E_CACHE : Z; H5E_BTREE : Z;
  H5E_SYM : Z; H5E_HEAP : Z; H5E_OHDR : Z; H5E_DATATYPE : Z;
  H5E_DATASPACE : Z; H5E_DATASET : Z; H5E_STORAGE : Z; H5E_PLIST : Z;
  H5E_ATTR : Z; H5E_PLINE : Z; H5E_EFL : Z; H5E_REFERENCE : Z;
  H5E_VFL : Z; H5E_TST : Z; H5E_RS : Z; H5E_ERROR : Z; H5E_SLIST : Z;
  (* minor codes *)
  H5E_SEEKERROR : Z; H5E_READERROR : Z; H5E_WRITEERROR : Z;
  H5E_CLOSEERROR : Z; H5E_OVERFLOW : Z; H5E_FCNTL : Z;
  H5E_NOFILTER : Z; H5E_CALLBACK : Z; H5E_CANAPPLY : Z;
  H5E_SETLOCAL : Z; H5E_NOENCODER : Z;
  H5E_FILEEXISTS : Z; H5E_FILEOPEN : Z; H5E_NOTHDF5 : Z; H5E_BADFILE : Z;
  H5E_BADATOM : Z; H5E_BADGROUP : Z; H5E_BADSELECT : Z;
  H5E_UNINITIALIZED : Z; H5E_UNSUPPORTED : Z;
  H5E_NOTFOUND : Z; H5E_CANTINSERT : Z;
  H5E_BADTYPE : Z; H5E_BADRANGE : Z; H5E_BADVALUE : Z;
  H5E_EXISTS : Z; H5E_CANTCONVERT : Z;
  H5E_CANTINIT : Z; H5E_SYSERRSTR : Z;
  (* descriptions *)
  H5Eget_major : Z -> string;
  H5Eget_minor : Z -> string
}.

(** The fields of [H5E_error_t] that the module reads. *)
Record H5E_error_t : Type := mkH5E_error {
  maj_num : Z;
  min_num : Z;
  func_name : string;
  desc : string
}.

Inductive H5E_direction_t : Type := H5E_WALK_UPWARD | H5E_WALK_DOWNWARD.

(** The library keeps the frames of the failing call chain in the order in
    which they were recorded: slot 0 is the function in which the error was
    detected, the last slot is the API function. *)
Definition H5E_t : Type := list H5E_error_t.

(** Modelled from the spec: [push_frame] ("appends a frame; never fails").
    The function that records a frame belongs to the HDF5 library. *)
Definition push_frame (estack : H5E_t) (frame : H5E_error_t) : H5E_t :=
  estack ++ [frame].

Definition push_frames (estack : H5E_t) (frames : list H5E_error_t) : H5E_t :=
  foldl push_frame estack frames.

Section Walk.
Context {A : Type}.
Variable func : nat -> H5E_error_t -> A -> herr_t * A.

(** One pass over the slots: the callback receives the running index and
    the slot, and a negative status stops the walk. *)
Fixpoint walk_slots (n : nat) (slots : list H5E_error_t) (client_data : A) : herr_t * A :=
  match slots with
  | [] => (0, client_data)
  | slot :: rest =>
      let '(status, client_data') := func n slot client_data in
      if status <? 0 then (status, client_data')
      else walk_slots (S n) rest client_data'
  end.
End Walk.

(** [H5Ewalk(direction, func, client_data)] is the HDF5 library's
    ([hdf5.h]); the stack walked is that of the calling thread.
    [H5E_WALK_UPWARD] begins with the deepest frame (slot 0) and ends at the
    API function; [H5E_WALK_DOWNWARD] begins at the API function and ends
    deep. *)
Definition H5Ewalk {A : Type} (direction : H5E_direction_t)
    (func : nat -> H5E_error_t -> A -> herr_t * A) (client_data : A)
    (estack : H5E_t) : herr_t * A :=
  match direction with
  | H5E_WALK_UPWARD => walk_slots func 0 estack client_data
  | H5E_WALK_DOWNWARD => walk_slots func 0 (rev estack) client_data
  end.


(** ** Error stack inspection *)

(** The global of the module: [_verbose = False] at import. *)
Record Globals : Type := mkGlobals { _verbose : bool }.

Definition module_init : Globals := {| _verbose := false |}.

(** [verbose(v)]: if FALSE (default), exception messages are a single line;
    if TRUE, an HDF5 stack trace is attached. *)
Definition verbose (v : bool) (globals : Globals) : Globals :=
  {| _verbose := v |}.

Section ErrorTranslation.
Context `{HDF5 : HDF5_errors}.

(** Traditional major error classes. *)
Definition _major_table : gmap Z PyClass := py_dict [
  (H5E_ARGS, ArgsError);
  (H5E_RESOURCE, ResourceError);
  (H5E_INTERNAL, InternalError);
  (H5E_FILE, FileError);
  (H5E_IO, LowLevelIOError);
  (H5E_FUNC, FuncError);
  (H5E_ATOM, AtomError);
  (H5E_CACHE, CacheError);
  (H5E_BTREE, BtreeError);
  (H5E_SYM, SymbolError);
  (H5E_HEAP, HeapError);
  (H5E_OHDR, ObjectHeaderError);
  (H5E_DATATYPE, DatatypeError);
  (H5E_DATASPACE, DataspaceError);
  (H5E_DATASET, DatasetError);
  (H5E_STORAGE, StorageError);
  (H5E_PLIST, PropertyError);
  (H5E_ATTR, AttrError);
  (H5E_PLINE, FilterError);
  (H5E_EFL, FileListError);
  (H5E_REFERENCE, RefError);
  (H5E_VFL, VirtualFileError);
  (H5E_TST, TSTError);
  (H5E_RS, RSError);
  (H5E_ERROR, ErrorError);
  (H5E_SLIST, SkipListError) ].

(** Python-style minor error classes. *)
Definition _minor_table : gmap Z PyClass := py_dict [
  (H5E_SEEKERROR, IOError);
  (H5E_READERROR, IOError);
  (H5E_WRITEERROR, IOError);
  (H5E_CLOSEERROR, IOError);
  (H5E_OVERFLOW, IOError);
  (H5E_FCNTL, IOError);

  (H5E_NOFILTER, IOError);
  (H5E_CALLBACK, IOError);
  (H5E_CANAPPLY, IOError);
  (H5E_SETLOCAL, IOError);
  (H5E_NOENCODER, IOError);

  (H5E_FILEEXISTS, ValueError);
  (H5E_FILEOPEN, ValueError);
  (H5E_NOTHDF5, ValueError);
  (H5E_BADFILE, ValueError);

  (H5E_BADATOM, ValueError);
  (H5E_BADGROUP, ValueError);
  (H5E_BADSELECT, ValueError);
  (H5E_UNINITIALIZED, ValueError);
  (H5E_UNSUPPORTED, NotImplementedError);

  (H5E_NOTFOUND, KeyError);
  (H5E_CANTINSERT, ValueError);

  (H5E_BADTYPE, TypeError);
  (H5E_BADRANGE, ValueError);
  (H5E_BADVALUE, ValueError);

  (H5E_EXISTS, ValueError);
  (H5E_CANTCONVERT, TypeError) ].

(** "Fudge" table: a (major, minor) entry here overrides any entry in the
    minor error table. *)
Definition _exact_table : gmap (Z * Z) PyClass := py_dict [
  ((H5E_CACHE, H5E_BADVALUE), IOError);
  ((H5E_RESOURCE, H5E_CANTINIT), IOError);
  ((H5E_INTERNAL, H5E_SYSERRSTR), IOError) ].

(** Encapsulation of the [H5E_error_t] structure. *)
Record ErrorStackElement : Type := mkElement { e : H5E_error_t }.

(** The properties of [ErrorStackElement]. *)
Definition elem_func_name (self : ErrorStackElement) : string :=
  func_name (e self).

Definition elem_desc (self : ErrorStackElement) : string :=
  let s := desc (e self) in
  capitalize s.

(** [code]: a 2-tuple of error codes (major, minor), each cast to [int]. *)
Definition elem_code (self : ErrorStackElement) : Z * Z :=
  (c_int (maj_num (e self)), c_int (min_num (e self))).

Definition elem_code_desc (self : ErrorStackElement) : string * string :=
  (H5Eget_major (maj_num (e self)), H5Eget_minor (min_num (e self))).

(** [class ErrorStack(list)] *)
Definition ErrorStack : Type := list ErrorStackElement.

(** Callback function to extract elements from the HDF5 error stack.
    [stack] is the very list that the walk was handed as client data, and
    [stack += [element]] extends it in place. *)
Definition walk_cb (n : nat) (err_desc : H5E_error_t) (stack : ErrorStack) : herr_t * ErrorStack :=
  let element := mkElement err_desc in
  (0, stack ++ [element]).

(** [ErrorStack.__init__]: the list constructor, then an upward walk of
    the library's stack. *)
Definition ErrorStack_init (args : list ErrorStackElement) (estack : H5E_t) : ErrorStack :=
  snd (H5Ewalk H5E_WALK_UPWARD walk_cb args estack).

(** The two strings appended per element by the loop of [__str__]. *)
Definition str_frame_head (idx : nat) (el : ErrorStackElement) : string :=
  newline +:+ "    " +:+ pretty idx +:+ ": " +:+ dquote +:+ elem_desc el +:+ dquote
    +:+ " at " +:+ elem_func_name el.

Definition str_frame_codes (el : ErrorStackElement) : string :=
  newline +:+ "        " +:+ (elem_code_desc el).1 +:+ " :: " +:+ (elem_code_desc el).2.

(** The loop of [__str__], [idx] being the index of the first remaining
    element. *)
Fixpoint str_loop (idx : nat) (els : list ErrorStackElement) (s : string) : string :=
  match els with
  | [] => s
  | el :: rest =>
      let s := s +:+ str_frame_head idx el in
      let s := s +:+ str_frame_codes el in
      str_loop (S idx) rest s
  end.

(** [ErrorStack.__str__] *)
Definition ErrorStack_str (self : ErrorStack) : string :=
  if (length self =? 0)%nat then "No HDF5 error recorded"
  else
    let s := "HDF5 Error Stack:" in
    str_loop 0 self s.

(** [ErrorStack.get_exc_msg]: the pair (exception class, message) for the
    current error condition, or [None] if no error exists. *)
Definition get_exc_msg (globals : Globals) (self : ErrorStack) : option (PyClass * string) :=
  match self with
  | [] => None
  | self0 :: _ =>
      let '(major, minor) := elem_code self0 in
      let maj_class := dict_get _major_table major H5Error in
      let min_class := _exact_table !! (major, minor) in
      let min_class :=
        match min_class with
        | None => _minor_table !! minor
        | Some _ => min_class
        end in
      let exc :=
        match min_class with
        | None => maj_class
        | Some min_class => generate_class maj_class min_class
        end in
      let msg := elem_desc self0 +:+ " (" +:+ (elem_code_desc self0).1 +:+ ": "
                 +:+ (elem_code_desc self0).2 +:+ ")" in
      let msg := if _verbose globals then msg +:+ newline +:+ ErrorStack_str self else msg in
      Some (exc, msg)
  end.

(** The lookup as the spec words it: the major table always gives the
    category ([H5Error] for a code it does not list); the refinement is
    the entry of the exact-match table for the pair of codes when there
    is one, else the entry of the minor table, if any. *)
Definition classify_kind (major minor : Z) : ErrorKind :=
  {| category := dict_get _major_table major H5Error;
     refinement :=
       match _exact_table !! (major, minor) with
       | Some r => Some r
       | None => _minor_table !! minor
       end |}.

(** The trace as the spec words it: a heading, then two lines per frame. *)
Definition trace_of (els : list ErrorStackElement) : string :=
  "HDF5 Error Stack:" +:+
  join (imap (fun idx el =>
    newline +:+ "    " +:+ pretty idx +:+ ": " +:+ dquote +:+ elem_desc el +:+ dquote
      +:+ " at " +:+ elem_func_name el
      +:+ newline +:+ "        " +:+ H5Eget_major (maj_num (e el))
      +:+ " :: " +:+ H5Eget_minor (min_num (e el))) els).
End ErrorTranslation.

(** ** The automatic error callback *)

(** The pending exception of the running Python thread, as set by
    [PyErr_SetString]. *)
Record PyThreadState : Type := mkPyThreadState {
  curexc : option (PyClass * string)
}.

Definition PyErr_SetString (exc : PyClass) (msg : string) (ts : PyThreadState) : PyThreadState :=
  {| curexc := Some (exc, msg) |}.

Section Callback.
Context `{HDF5 : HDF5_errors}.

(** [err_callback]: sets the Python exception based on the current error
    stack of the library. *)
Definition err_callback (globals : Globals) (estack : H5E_t) (ts : PyThreadState) : herr_t * PyThreadState :=
  let stack := ErrorStack_init [] estack in
  let a := get_exc_msg globals stack in
  let '(exc, msg) :=
    match a with
    | None => (RuntimeError, "No HDF5 exception information found")
    | Some a => a
    end in
  let ts := PyErr_SetString exc msg ts in
  (1, ts).
End Callback.

(** ** Per-thread registration *)

Definition thread_id : Type := nat.

(** The functions that can be installed as automatic error handler: the
    library's own printer (its default) and this module's callback. *)
Inductive H5E_auto_t : Type := auto_H5Eprint | auto_err_callback.

Definition NULL : Z := 0.

(** The handler installed in each thread, with its client data; a thread
    without an entry still has the library default. *)
Abbreviation H5E_handlers := (gmap thread_id (H5E_auto_t * Z)).

(** Modelled from the spec: [H5Eset_auto] belongs to the HDF5 library.  The
    spec (4.1, Registration) has the callback installed as per-thread state:
    the call replaces the handler of the calling thread and reports
    success. *)
Definition H5Eset_auto (tid : thread_id) (func : H5E_auto_t) (client_data : Z)
    (lib : H5E_handlers) : herr_t * H5E_handlers :=
  (0, <[tid := (func, client_data)]> lib).

(** What a Python call yields: a value or a raised exception. *)
Inductive py_result (A : Type) : Type :=
  | Return (v : A)
  | Raise (exc : PyClass) (msg : string).
Arguments Return {A} v.
Arguments Raise {A} exc msg.

(** [register_thread]: register the current thread for native HDF5
    exception support. *)
Definition register_thread (tid : thread_id) (lib : H5E_handlers) : py_result Z * H5E_handlers :=
  let '(status, lib) := H5Eset_auto tid auto_err_callback NULL lib in
  if status <? 0 then (Raise RuntimeError "Failed to register HDF5 exception callback", lib)
  else (Return 0, lib).

(** [n] successive calls of [register_thread] in one thread; the result is
    that of the last call ([None] when there was no call). *)
Fixpoint register_thread_times (n : nat) (tid : thread_id) (lib : H5E_handlers)
    : option (py_result Z) * H5E_handlers :=
  match n with
  | O => (None, lib)
  | S n' =>
      let '(_, lib) := register_thread_times n' tid lib in
      let '(r, lib) := register_thread tid lib in
      (Some r, lib)
  end.

Section Dispatch.
Context `{HDF5 : HDF5_errors}.

(** Modelled from the spec: "the stack is installed as a callback invoked
    by any lower-level failure".  When a library call fails in thread
    [tid] with the frames [estack], the library runs the handler of that
    thread; its printer writes to the standard error stream and leaves the
    Python thread state alone. *)
Definition H5E_dispatch (globals : Globals) (lib : H5E_handlers) (tid : thread_id)
    (estack : H5E_t) (ts : PyThreadState) : PyThreadState :=
  match lib !! tid with
  | Some (auto_err_callback, _) => snd (err_callback globals estack ts)
  | Some (auto_H5Eprint, _) | None => ts
  end.
End Dispatch.

(** ** A sample of library constants

    Codes numbered in the order of the tables above, with the
    descriptions of the codes used in the examples. *)
Definition sample_errors : HDF5_errors := {|
  H5E_ARGS := 1; H5E_RESOURCE := 2; H5E_INTERNAL := 3; H5E_FILE := 4;
  H5E_IO := 5; H5E_FUNC := 6; H5E_ATOM := 7; H5E_CACHE := 8; H5E_BTREE := 9;
  H5E_SYM := 10; H5E_HEAP := 11; H5E_OHDR := 12; H5E_DATATYPE := 13;
  H5E_DATASPACE := 14; H5E_DATASET := 15; H5E_STORAGE := 16; H5E_PLIST := 17;
  H5E_ATTR := 18; H5E_PLINE := 19; H5E_EFL := 20; H5E_REFERENCE := 21;
  H5E_VFL := 22; H5E_TST := 24; H5E_RS := 25; H5E_ERROR := 26; H5E_SLIST := 27;
  H5E_SEEKERROR := 1; H5E_READERROR := 2; H5E_WRITEERROR := 3;
  H5E_CLOSEERROR := 4; H5E_OVERFLOW := 5; H5E_FCNTL := 6;
  H5E_NOFILTER := 7; H5E_CALLBACK := 8; H5E_CANAPPLY := 9;
  H5E_SETLOCAL := 10; H5E_NOENCODER := 11;
  H5E_FILEEXISTS := 12; H5E_FILEOPEN := 13; H5E_NOTHDF5 := 14; H5E_BADFILE := 15;
  H5E_BADATOM := 16; H5E_BADGROUP := 17; H5E_BADSELECT := 18;
  H5E_UNINITIALIZED := 19; H5E_UNSUPPORTED := 20;
  H5E_NOTFOUND := 21; H5E_CANTINSERT := 22;
  H5E_BADTYPE := 23; H5E_BADRANGE := 24; H5E_BADVALUE := 25;
  H5E_EXISTS := 26; H5E_CANTCONVERT := 27;
  H5E_CANTINIT := 28; H5E_SYSERRSTR := 29;
  H5Eget_major := fun code =>
    if code =? 10 then "Symbol table"
    else if code =? 8 then "Object cache"
    else if code =? 4 then "File interface"
    else "Invalid major error number";
  H5Eget_minor := fun code =>
    if code =? 26 then "Object already exists"
    else if code =? 25 then "Bad value"
    else if code =? 28 then "Unable to initialize object"
    else "Invalid minor error number"
|}.

(** Frames of a failing [H5Gcreate], deepest first. *)
Definition frame_exists : H5E_error_t :=
  mkH5E_error 10 26 "H5G_insert" "name already exists".

Definition frame_create : H5E_error_t :=
  mkH5E_error 10 28 "H5Gcreate" "unable to create group".

(** A frame whose description has upper-case letters after the first
    character. *)
Definition frame_signature : H5E_error_t :=
  mkH5E_error 4 14 "H5F_open" "not an HDF5 file".

(** * Bit streams and the two compressors

    The compressors of the filter pipeline (spec 4.4) are not among the
    sources; they are modelled from the spec.  They work on streams of
    bits: a buffer is read as a stream of bits, the least significant bit
    of every byte first. *)

#[global] Instance byte_eq_decision : EqDecision Byte.byte := Byte.byte_eq_dec.

(** The [n] low bits of [v], least significant first. *)
Fixpoint put_lsb (n : nat) (v : N) : list bool :=
  match n with
  | O => []
  | S n' => N.odd v :: put_lsb n' (N.div2 v)
  end.

(** The [n] low bits of [v], most significant first. *)
Fixpoint put_msb (n : nat) (v : N) : list bool :=
  match n with
  | O => []
  | S n' => put_msb n' (N.div2 v) ++ [N.odd v]
  end.

(** Reading [n] bits, least significant first: the value and the bits that
    remain. *)
Fixpoint get_lsb (n : nat) (bits : list bool) : option (N * list bool) :=
  match n with
  | O => Some (0%N, bits)
  | S n' =>
      match bits with
      | [] => None
      | b :: bits' =>
          match get_lsb n' bits' with
          | Some (v, rest) => Some ((N.b2n b + 2 * v)%N, rest)
          | None => None
          end
      end
  end.

(** Reading [n] bits, most significant first, onto the value [acc]. *)
Fixpoint get_msb (n : nat) (acc : N) (bits : list bool) : option (N * list bool) :=
  match n with
  | O => Some (acc, bits)
  | S n' =>
      match bits with
      | [] => None
      | b :: bits' => get_msb n' (2 * acc + N.b2n b)%N bits'
      end
  end.

(** A number in unary: as many ones, then a zero. *)
Definition put_unary (q : nat) : list bool := replicate q true ++ [false].

Fixpoint get_unary (bits : list bool) : option (nat * list bool) :=
  match bits with
  | [] => None
  | false :: rest => Some (O, rest)
  | true :: bits' =>
      match get_unary bits' with
      | Some (q, rest) => Some (S q, rest)
      | None => None
      end
  end.

Definition bits_of_byte (b : Byte.byte) : list bool := put_lsb 8 (Byte.to_N b).

Definition bits_of_bytes (buffer : list Byte.byte) : list bool :=
  buffer ≫= bits_of_byte.

Definition N_of_bits (bits : list bool) : N :=
  match get_lsb (length bits) bits with
  | Some (v, _) => v
  | None => 0%N
  end.

Definition byte_of_bits (bits : list bool) : Byte.byte :=
  default Byte.x00 (Byte.of_N (N_of_bits bits)).

(** Packing a stream of bits into bytes; the last byte is filled up with
    zero bits. *)
Fixpoint bytes_of_bits (bits : list bool) : list Byte.byte :=
  match bits with
  | b0 :: b1 :: b2 :: b3 :: b4 :: b5 :: b6 :: b7 :: rest =>
      byte_of_bits [b0; b1; b2; b3; b4; b5; b6; b7] :: bytes_of_bits rest
  | [] => []
  | last => [byte_of_bits last]
  end.

(** Reading [n] whole bytes. *)
Fixpoint get_bytes (n : nat) (bits : list bool) : option (list Byte.byte * list bool) :=
  match n with
  | O => Some ([], bits)
  | S n' =>
      match get_lsb 8 bits with
      | Some (v, rest) =>
          match Byte.of_N v, get_bytes n' rest with
          | Some b, Some (bs, rest') => Some (b :: bs, rest')
          | _, _ => None
          end
      | None => None
      end
  end.

(** ** A DEFLATE-style compressor

    Modelled from the spec: "DEFLATE-style compression".  The buffer is
    parsed into literals and matches with the text before them (length 3
    to 258, distance 1 to 32768); these are written with the fixed prefix
    code of DEFLATE, in one block.  Level 0 stores the buffer in blocks
    without compression. *)

Inductive token : Type :=
  | Literal (b : Byte.byte)
  | Match (len dist : nat).

(** Copying [len] bytes from [dist] bytes back; [rout] is the output so
    far, last byte first.  The copy may run into the bytes it produces. *)
Fixpoint copy_match (len dist : nat) (rout : list Byte.byte) : option (list Byte.byte) :=
  match len with
  | O => Some rout
  | S len' =>
      match dist, rout !! (dist - 1)%nat with
      | S _, Some b => copy_match len' dist (b :: rout)
      | _, _ => None
      end
  end.

(** The output that a list of tokens stands for. *)
Fixpoint replay (tokens : list token) (rout : list Byte.byte) : option (list Byte.byte) :=
  match tokens with
  | [] => Some rout
  | Literal b :: rest => replay rest (b :: rout)
  | Match len dist :: rest =>
      match copy_match len dist rout with
      | Some rout' => replay rest rout'
      | None => None
      end
  end.

(** How many of the bytes to come (at most [max]) repeat the text [dist]
    back. *)
Fixpoint match_length (max dist : nat) (rout todo : list Byte.byte) : nat :=
  match max, todo with
  | S max', b :: todo' =>
      match dist, rout !! (dist - 1)%nat with
      | S _, Some b' =>
          if decide (b = b') then S (match_length max' dist (b :: rout) todo') else O
      | _, _ => O
      end
  | _, _ => O
  end.

Definition max_match : nat := 258.
Definition min_match : nat := 3.
Definition window_size : nat := N.to_nat 32768.

(** The longest match of at most [max_len] bytes among the distances
    [dist], [dist - 1], ..., 1; of two matches of the same length the
    nearer one is taken. *)
Fixpoint longest_match (max_len dist : nat) (rout todo : list Byte.byte) : nat * nat :=
  match dist with
  | O => (O, O)
  | S dist' =>
      let '(len, d) := longest_match max_len dist' rout todo in
      let len' := match_length max_len dist rout todo in
      if (len <? len')%nat then (len', dist) else (len, d)
  end.

(** The greedy parse, with matches of at most [max_len] bytes at most
    [window] bytes back. *)
Fixpoint lz77 (max_len window fuel : nat) (rout todo : list Byte.byte) : list token :=
  match fuel, todo with
  | S fuel', b :: todo' =>
      let '(len, dist) := longest_match max_len (Nat.min (length rout) window) rout todo in
      if (min_match <=? len)%nat
      then Match len dist
             :: lz77 max_len window fuel' (rev (take len todo) ++ rout) (drop len todo)
      else Literal b :: lz77 max_len window fuel' (b :: rout) todo'
  | _, _ => []
  end.

(** A code for a range of values: the first value of the range and the
    number of extra bits that give the position in the range. *)
Record Code : Type := mkCode {
  code_base : N;
  code_extra : nat
}.

(** The codes of the match lengths (symbols 257 to 285) and of the
    distances (codes 0 to 29). *)
Definition length_table : list Code :=
  [mkCode 3 0; mkCode 4 0; mkCode 5 0; mkCode 6 0;
   mkCode 7 0; mkCode 8 0; mkCode 9 0; mkCode 10 0;
   mkCode 11 1; mkCode 13 1; mkCode 15 1; mkCode 17 1;
   mkCode 19 2; mkCode 23 2; mkCode 27 2; mkCode 31 2;
   mkCode 35 3; mkCode 43 3; mkCode 51 3; mkCode 59 3;
   mkCode 67 4; mkCode 83 4; mkCode 99 4; mkCode 115 4;
   mkCode 131 5; mkCode 163 5; mkCode 195 5; mkCode 227 5;
   mkCode 258 0].

Definition dist_table : list Code :=
  [mkCode 1 0; mkCode 2 0; mkCode 3 0; mkCode 4 0;
   mkCode 5 1; mkCode 7 1; mkCode 9 2; mkCode 13 2;
   mkCode 17 3; mkCode 25 3; mkCode 33 4; mkCode 49 4;
   mkCode 65 5; mkCode 97 5; mkCode 129 6; mkCode 193 6;
   mkCode 257 7; mkCode 385 7; mkCode 513 8; mkCode 769 8;
   mkCode 1025 9; mkCode 1537 9; mkCode 2049 10; mkCode 3073 10;
   mkCode 4097 11; mkCode 6145 11; mkCode 8193 12; mkCode 12289 12;
   mkCode 16385 13; mkCode 24577 13].

(** The code of a value: the last entry of the table that starts at or
    below it, with its index from [idx] on. *)
Fixpoint find_code (table : list Code) (idx : nat) (v : N) : option (nat * Code) :=
  match table with
  | [] => None
  | code :: table' =>
      if (code_base code <=? v)%N then
        match find_code table' (S idx) v with
        | Some found => Some found
        | None => Some (idx, code)
        end
      else None
  end.

(** The fixed code of the literals, the end of block (256) and the lengths
    (257 to 285). *)
Definition put_symbol (s : N) : list bool :=
  if (s <? 144)%N then put_msb 8 (48 + s)
  else if (s <? 256)%N then put_msb 9 (400 + (s - 144))
  else if (s <? 280)%N then put_msb 7 (s - 256)
  else put_msb 8 (192 + (s - 280)).

Definition get_symbol (bits : list bool) : option (N * list bool) :=
  match get_msb 7 0 bits with
  | Some (v7, rest7) =>
      if (v7 <? 24)%N then Some (256 + v7, rest7)%N
      else
        match get_msb 1 v7 rest7 with
        | Some (v8, rest8) =>
            if (v8 <? 192)%N then Some (v8 - 48, rest8)%N
            else if (v8 <? 200)%N then Some (280 + (v8 - 192), rest8)%N
            else
              match get_msb 1 v8 rest8 with
              | Some (v9, rest9) => Some (144 + (v9 - 400), rest9)%N
              | None => None
              end
        | None => None
        end
  | None => None
  end.

Definition END_OF_BLOCK : N := 256.

Definition put_token (t : token) : list bool :=
  match t with
  | Literal b => put_symbol (Byte.to_N b)
  | Match len dist =>
      match find_code length_table 0 (N.of_nat len), find_code dist_table 0 (N.of_nat dist) with
      | Some (lidx, lcode), Some (didx, dcode) =>
          put_symbol (257 + N.of_nat lidx)
            ++ put_lsb (code_extra lcode) (N.of_nat len - code_base lcode)
            ++ put_msb 5 (N.of_nat didx)
            ++ put_lsb (code_extra dcode) (N.of_nat dist - code_base dcode)
      | _, _ => []
      end
  end.

(** One block with the fixed code: the header (last block, type 1), the
    tokens and the end of block. *)
Definition fixed_block (tokens : list token) : list bool :=
  [true; true; false] ++ (tokens ≫= put_token) ++ put_symbol END_OF_BLOCK.

Definition STORED_MAX : nat := N.to_nat 65535.

(** A stored block: the header (type 0) filled up to a byte, the length in
    16 bits, its complement, and the bytes. *)
Definition stored_block (final : bool) (data : list Byte.byte) : list bool :=
  [final; false; false; false; false; false; false; false]
    ++ put_lsb 16 (N.of_nat (length data))
    ++ put_lsb 16 (65535 - N.of_nat (length data))
    ++ bits_of_bytes data.

(** The buffer in stored blocks of at most [block_max] bytes. *)
Fixpoint stored_blocks (block_max fuel : nat) (data : list Byte.byte) : list bool :=
  match fuel with
  | O => stored_block true []
  | S fuel' =>
      if (length data <=? block_max)%nat then stored_block true data
      else stored_block false (take block_max data)
             ++ stored_blocks block_max fuel' (drop block_max data)
  end.

(** The compression level: the first option of the filter (6 when there is
    none). *)
Definition deflate_level (options : list nat) : nat :=
  match options with
  | level :: _ => level
  | [] => 6%nat
  end.

(** Modelled from the spec: the encoder of the DEFLATE-style filter.  Level
    0 writes stored blocks; every other level writes one block with the
    fixed code over the greedy parse. *)
Definition deflate (options : list nat) (buffer : list Byte.byte) : list Byte.byte :=
  bytes_of_bits
    (match deflate_level options with
     | O => stored_blocks STORED_MAX (length buffer) buffer
     | S _ => fixed_block (lz77 max_match window_size (length buffer) [] buffer)
     end).

(** Decoding the tokens of a block with the fixed code, up to its end. *)
Fixpoint inflate_fixed (fuel : nat) (rout : list Byte.byte) (bits : list bool)
    : option (list Byte.byte * list bool) :=
  match fuel with
  | O => None
  | S fuel' =>
      match get_symbol bits with
      | None => None
      | Some (s, rest) =>
          if (s <? 256)%N then
            match Byte.of_N s with
            | Some b => inflate_fixed fuel' (b :: rout) rest
            | None => None
            end
          else if (s =? 256)%N then Some (rout, rest)
          else
            match length_table !! N.to_nat (s - 257) with
            | None => None
            | Some lcode =>
                match get_lsb (code_extra lcode) rest with
                | None => None
                | Some (lx, rest1) =>
                    match get_msb 5 0 rest1 with
                    | None => None
                    | Some (didx, rest2) =>
                        match dist_table !! N.to_nat didx with
                        | None => None
                        | Some dcode =>
                            match get_lsb (code_extra dcode) rest2 with
                            | None => None
                            | Some (dx, rest3) =>
                                match copy_match (N.to_nat (code_base lcode + lx))
                                        (N.to_nat (code_base dcode + dx)) rout with
                                | Some rout' => inflate_fixed fuel' rout' rest3
                                | None => None
                                end
                            end
                        end
                    end
                end
            end
      end
  end.

(** Decoding a stored block, after its three header bits. *)
Definition inflate_stored (rout : list Byte.byte) (bits : list bool)
    : option (list Byte.byte * list bool) :=
  let aligned := drop (length bits mod 8) bits in
  match get_lsb 16 aligned with
  | None => None
  | Some (len, rest) =>
      match get_lsb 16 rest with
      | None => None
      | Some (nlen, rest') =>
          if (len + nlen =? 65535)%N then
            match get_bytes (N.to_nat len) rest' with
            | Some (data, rest'') => Some (rev data ++ rout, rest'')
            | None => None
            end
          else None
      end
  end.

(** Decoding block after block, up to the block marked as the last.  Blocks
    with a code of their own (type 2) are not written by [deflate], and
    are refused. *)
Fixpoint inflate_blocks (fuel : nat) (rout : list Byte.byte) (bits : list bool)
    : option (list Byte.byte) :=
  match fuel with
  | O => None
  | S fuel' =>
      match bits with
      | final :: t0 :: t1 :: rest =>
          match
            match t0, t1 with
            | false, false => inflate_stored rout rest
            | true, false => inflate_fixed (length rest) rout rest
            | _, _ => None
            end
          with
          | Some (rout', rest') =>
              if final then Some (rev rout') else inflate_blocks fuel' rout' rest'
          | None => None
          end
      | _ => None
      end
  end.

(** Modelled from the spec: the decoder of the DEFLATE-style filter; [None]
    when the buffer is not a sequence of blocks that ends with a block
    marked as the last. *)
Definition inflate (buffer : list Byte.byte) : option (list Byte.byte) :=
  let bits := bits_of_bytes buffer in
  inflate_blocks (length bits) [] bits.

(** The tokens that the fixed code can write. *)
Definition valid_token (t : token) : Prop :=
  match t with
  | Literal _ => True
  | Match len dist =>
      (min_match <= len <= max_match)%nat /\ (1 <= dist <= window_size)%nat
  end.

(** Every code of the table takes over where the code before it ends, and
    the last one reaches [limit]. *)
Fixpoint covers (table : list Code) (limit : N) : bool :=
  match table with
  | [] => false
  | code :: table' =>
      match table' with
      | [] => (limit <=? code_base code + 2 ^ N.of_nat (code_extra code))%N
      | next :: _ =>
          (code_base next <=? code_base code + 2 ^ N.of_nat (code_extra code))%N
          && covers table' limit
      end
  end.

(** ** An SZIP-style compressor

    Modelled from the spec: "an external SZIP-style compressor governed by
    a coding-mode mask and max-pixels-per-block parameter".  The samples
    (the bytes of the buffer) are coded in blocks of [pixels_per_block]
    samples.  For every block the cheapest of eight options is taken:
    splitting every sample into its [k] low bits, written as they are, and
    the rest, written in unary, for [k] from 0 to 6; or writing the samples
    as they are.  With the nearest-neighbour bit of the coding-mode mask,
    every sample is replaced beforehand by its difference to the sample
    before it. *)

Definition SZIP_EC_OPTION_MASK : N := 4.
Definition SZIP_NN_OPTION_MASK : N := 32.
Definition SZIP_MAX_PIXELS_PER_BLOCK : nat := 32.

(** The coding-mode mask: the first option (entropy coding alone when there
    is none). *)
Definition szip_mask (options : list nat) : N :=
  match options with
  | mask :: _ => N.of_nat mask
  | [] => SZIP_EC_OPTION_MASK
  end.

(** The samples per block: the second option, kept between 1 and the
    maximum (8 when there is none). *)
Definition szip_pixels_per_block (options : list nat) : nat :=
  match options with
  | _ :: pixels :: _ => Nat.max 1 (Nat.min pixels SZIP_MAX_PIXELS_PER_BLOCK)
  | _ => 8%nat
  end.

Definition szip_nearest_neighbour (options : list nat) : bool :=
  negb (N.land (szip_mask options) SZIP_NN_OPTION_MASK =? 0)%N.

(** The difference of a sample to the one before it, modulo 256, folded so
    that small differences of either sign give small values. *)
Definition nn_map (prev x : N) : N :=
  let r := ((x + 256 - prev mod 256) mod 256)%N in
  if (r <? 128)%N then (2 * r)%N else (2 * (255 - r) + 1)%N.

Definition nn_unmap (prev m : N) : N :=
  let r := if (m mod 2 =? 0)%N then (m / 2)%N else (255 - m / 2)%N in
  ((prev + r) mod 256)%N.

Fixpoint nn_encode (prev : N) (samples : list N) : list N :=
  match samples with
  | [] => []
  | x :: rest => nn_map prev x :: nn_encode x rest
  end.

Fixpoint nn_decode (prev : N) (mapped : list N) : list N :=
  match mapped with
  | [] => []
  | m :: rest => let x := nn_unmap prev m in x :: nn_decode x rest
  end.

Definition SZIP_RAW : nat := 7.

(** The bits that an option takes for a block. *)
Definition option_cost (id : nat) (block : list N) : N :=
  if (id =? SZIP_RAW)%nat then (8 * N.of_nat (length block))%N
  else foldr (fun v acc => (v / 2 ^ N.of_nat id + 1 + N.of_nat id + acc)%N) 0%N block.

(** The cheapest option; of two options of the same cost, writing the
    samples as they are is preferred, then the smaller [k]. *)
Definition choose_option (block : list N) : nat :=
  foldl (fun best id => if (option_cost id block <? option_cost best block)%N then id else best)
        SZIP_RAW (seq 0 SZIP_RAW).

Definition put_sample (id : nat) (v : N) : list bool :=
  if (id =? SZIP_RAW)%nat then put_lsb 8 v
  else put_unary (N.to_nat (v / 2 ^ N.of_nat id)) ++ put_lsb id v.

Definition get_sample (id : nat) (bits : list bool) : option (N * list bool) :=
  if (id =? SZIP_RAW)%nat then get_lsb 8 bits
  else
    match get_unary bits with
    | Some (q, rest) =>
        match get_lsb id rest with
        | Some (low, rest') => Some ((N.of_nat q * 2 ^ N.of_nat id + low)%N, rest')
        | None => None
        end
    | None => None
    end.

(** A block: the option in three bits, then the samples. *)
Definition put_block (block : list N) : list bool :=
  let id := choose_option block in
  put_lsb 3 (N.of_nat id) ++ (block ≫= put_sample id).

Fixpoint get_samples (count id : nat) (bits : list bool) : option (list N * list bool) :=
  match count with
  | O => Some ([], bits)
  | S count' =>
      match get_sample id bits with
      | Some (v, rest) =>
          match get_samples count' id rest with
          | Some (vs, rest') => Some (v :: vs, rest')
          | None => None
          end
      | None => None
      end
  end.

Fixpoint put_blocks (fuel size : nat) (samples : list N) : list bool :=
  match fuel, samples with
  | S fuel', _ :: _ => put_block (take size samples) ++ put_blocks fuel' size (drop size samples)
  | _, _ => []
  end.

Fixpoint get_blocks (fuel size remaining : nat) (bits : list bool) : option (list N) :=
  match remaining, fuel with
  | O, _ => Some []
  | S _, O => None
  | S _, S fuel' =>
      match get_lsb 3 bits with
      | Some (id, rest) =>
          match get_samples (Nat.min size remaining) (N.to_nat id) rest with
          | Some (block, rest') =>
              match get_blocks fuel' size (remaining - Nat.min size remaining) rest' with
              | Some tail => Some (block ++ tail)
              | None => None
              end
          | None => None
          end
      | None => None
      end
  end.

(** The number of samples comes first: the number of its binary digits in
    unary, then the digits. *)
Definition put_count (n : N) : list bool :=
  put_unary (N.size_nat n) ++ put_lsb (N.size_nat n) n.

Definition get_count (bits : list bool) : option (N * list bool) :=
  match get_unary bits with
  | Some (digits, rest) => get_lsb digits rest
  | None => None
  end.

(** Modelled from the spec: the encoder of the SZIP-style filter. *)
Definition szip_compress (options : list nat) (buffer : list Byte.byte) : list Byte.byte :=
  let samples := Byte.to_N <$> buffer in
  let mapped := if szip_nearest_neighbour options then nn_encode 0 samples else samples in
  bytes_of_bits
    (put_count (N.of_nat (length buffer))
       ++ put_blocks (length mapped) (szip_pixels_per_block options) mapped).

(** Modelled from the spec: the decoder of the SZIP-style filter; [None]
    when the buffer ends before the samples it announces, or holds a
    sample that is not a byte. *)
Definition szip_decompress (options : list nat) (buffer : list Byte.byte)
    : option (list Byte.byte) :=
  match get_count (bits_of_bytes buffer) with
  | Some (n, rest) =>
      match get_blocks (N.to_nat n) (szip_pixels_per_block options) (N.to_nat n) rest with
      | Some mapped =>
          let samples :=
            if szip_nearest_neighbour options then nn_decode 0 mapped else mapped in
          mapM Byte.of_N samples
      | None => None
      end
  | None => None
  end.

(** * The storage engine behind the binding

    The sources only declare the engine ([H5Dread], [H5Dwrite], the filter
    constants of [h5z], the quick-start guide).  Its operations are modelled
    from the spec, section by section. *)

(** ** Classified failures (spec 7) *)

(** Modelled from the spec: the categories of [ErrorKind]; the engine itself
    is not among the sources. *)
Inductive Category : Type :=
  | Cat_Args | Cat_Resource | Cat_Internal | Cat_File | Cat_IO | Cat_Atom
  | Cat_Cache | Cat_Btree | Cat_Symbol | Cat_Heap | Cat_ObjectHeader
  | Cat_Datatype | Cat_Dataspace | Cat_Dataset | Cat_Storage | Cat_Property
  | Cat_Attr | Cat_Filter | Cat_FileList | Cat_Reference | Cat_VirtualFile
  | Cat_Unclassified.

(** Modelled from the spec: the cross-cutting tags of [ErrorKind]. *)
Inductive Tag : Type :=
  | IOFailure | NotFound | AlreadyExists | BadType | BadValue | Unsupported.

Record EngineError : Type := mkError {
  err_category : Category;
  err_tag : option Tag
}.

(** Modelled from the spec (6): every operation returns "a structured
    success value or signals one [ErrorKind]". *)
Inductive Result (A : Type) : Type :=
  | Ok (a : A)
  | Err (err : EngineError).
Arguments Ok {A} a.
Arguments Err {A} err.

#[global] Instance Result_ret : MRet Result := fun A a => Ok a.
#[global] Instance Result_bind : MBind Result := fun A B f m =>
  match m with
  | Ok a => f a
  | Err err => Err err
  end.

(** A left fold whose step may fail; the first failure ends it. *)
Fixpoint fold_result {A B : Type} (step : A -> B -> Result A) (acc : A) (l : list B) : Result A :=
  match l with
  | [] => Ok acc
  | x :: rest =>
      match step acc x with
      | Ok acc' => fold_result step acc' rest
      | Err err => Err err
      end
  end.

(** A map whose function may fail. *)
Fixpoint map_result {A B : Type} (f : A -> Result B) (l : list A) : Result (list B) :=
  match l with
  | [] => Ok []
  | x :: rest =>
      match f x with
      | Ok y =>
          match map_result f rest with
          | Ok ys => Ok (y :: ys)
          | Err err => Err err
          end
      | Err err => Err err
      end
  end.

(** ** Type and dataspace descriptors (spec 4.3) *)

Inductive ByteOrder : Type := LittleEndian | BigEndian.

(** Modelled from the spec: "size in bytes, byte order, and a discriminated
    kind (Integer, Float, String[fixed-len], Compound{fields},
    VariableLength{base}, Reference)". *)
Inductive Datatype : Type :=
  mkDatatype (size : nat) (order : ByteOrder) (kind : TypeKind)
with TypeKind : Type :=
  | Integer
  | Float
  | FixedString
  | Compound (fields : list (string * nat * Datatype))
  | VariableLength (base : Datatype)
  | Reference.

Definition type_size (t : Datatype) : nat :=
  match t with mkDatatype size _ _ => size end.

(** Modelled from the spec: "rank, current_dims[rank], max_dims[rank] (entry
    may be unlimited)"; [None] stands for unlimited. *)
Record Dataspace : Type := mkDataspace {
  current_dims : list nat;
  max_dims : list (option nat)
}.

Definition rank (space : Dataspace) : nat := length (current_dims space).

(** ** Filter pipeline (spec 4.4) *)

(** Modelled from the spec: a filter has a numeric id and the capability set
    {encode(buffer, options), decode(buffer, options)}; decoding may fail,
    and receives the skip-checksum flag of its pipeline entry. *)
Record Filter : Type := mkFilter {
  filter_id : nat;
  filter_encode : list nat -> list Byte.byte -> list Byte.byte;
  filter_decode : list nat -> bool -> list Byte.byte -> Result (list Byte.byte)
}.

(** Modelled from the spec (glossary): a filter is a reversible per-chunk
    data transform. *)
Definition reversible (f : Filter) : Prop :=
  forall options skip buffer,
    filter_decode f options skip (filter_encode f options buffer) = Ok buffer.

(** Modelled from the spec: an entry of a filter list carries the options,
    the flag mandatory/optional and the skip-checksum flag. *)
Record PipelineEntry : Type := mkEntry {
  entry_filter : Filter;
  entry_options : list nat;
  entry_optional : bool;
  entry_skip_checksum : bool
}.

(** Which encode and decode capabilities are compiled in, per filter id
    ([FILTER_CONFIG_ENCODE_ENABLED], [FILTER_CONFIG_DECODE_ENABLED]). *)
Record FilterConfig : Type := mkFilterConfig {
  encode_enabled : nat -> bool;
  decode_enabled : nat -> bool
}.

Definition filter_error : EngineError := mkError Cat_Filter None.

(** Modelled from the spec: "a filter whose required support is missing
    fails with a Filter error unless marked optional and absent". *)
Definition encode_step (cfg : FilterConfig) (entry : PipelineEntry)
    (buffer : list Byte.byte) : Result (list Byte.byte) :=
  if encode_enabled cfg (filter_id (entry_filter entry))
  then Ok (filter_encode (entry_filter entry) (entry_options entry) buffer)
  else if entry_optional entry then Ok buffer else Err filter_error.

(** Modelled from the spec: a mandatory filter's decode failure is fatal, an
    optional one falls back to raw passthrough. *)
Definition decode_step (cfg : FilterConfig) (entry : PipelineEntry)
    (buffer : list Byte.byte) : Result (list Byte.byte) :=
  if decode_enabled cfg (filter_id (entry_filter entry))
  then
    match filter_decode (entry_filter entry) (entry_options entry)
            (entry_skip_checksum entry) buffer with
    | Ok decoded => Ok decoded
    | Err err => if entry_optional entry then Ok buffer else Err err
    end
  else if entry_optional entry then Ok buffer else Err filter_error.

Inductive Direction : Type := Encode | Decode.

(** Modelled from the spec: [apply_pipeline] "applies filters in list order
    on encode; decode applies the inverse in reverse order". *)
Definition apply_pipeline (cfg : FilterConfig) (direction : Direction)
    (buffer : list Byte.byte) (filter_list : list PipelineEntry) : Result (list Byte.byte) :=
  match direction with
  | Encode => fold_result (fun b entry => encode_step cfg entry b) buffer filter_list
  | Decode => fold_result (fun b entry => decode_step cfg entry b) buffer (rev filter_list)
  end.

(** *** Built-in filters *)

Definition FILTER_DEFLATE : nat := 1.
Definition FILTER_SHUFFLE : nat := 2.
Definition FILTER_FLETCHER32 : nat := 3.
Definition FILTER_SZIP : nat := 4.
Definition FILTER_NONE : nat := 0.

(** Modelled from the spec: the no-op passthrough. *)
Definition noop_filter : Filter :=
  mkFilter FILTER_NONE (fun _ buffer => buffer) (fun _ _ buffer => Ok buffer).

(** The byte at position [k] of the shuffled buffer: with [n] elements of
    [width] bytes, byte [j] of element [i] moves to position [j * n + i];
    the bytes after the last whole element stay in place. *)
Definition shuffle_source (width len k : nat) : nat :=
  let n := (len / width)%nat in
  if (k <? n * width)%nat then ((k mod n) * width + k / n)%nat else k.

Definition unshuffle_source (width len k : nat) : nat :=
  let n := (len / width)%nat in
  if (k <? n * width)%nat then ((k mod width) * n + k / width)%nat else k.

Definition permute (source : nat -> nat) (buffer : list Byte.byte) : list Byte.byte :=
  (fun k => default Byte.x00 (buffer !! source k)) <$> seq 0 (length buffer).

(** The element width of the shuffle: its first option (1 when absent or
    zero). *)
Definition shuffle_width (options : list nat) : nat :=
  match options with
  | width :: _ => if (width =? 0)%nat then 1%nat else width
  | [] => 1%nat
  end.

(** Modelled from the spec: byte-shuffle, "interleave re-ordering to improve
    compression of typed arrays". *)
Definition shuffle_filter : Filter :=
  mkFilter FILTER_SHUFFLE
    (fun options buffer =>
       permute (shuffle_source (shuffle_width options) (length buffer)) buffer)
    (fun options _ buffer =>
       Ok (permute (unshuffle_source (shuffle_width options) (length buffer)) buffer)).

(** The Fletcher checksum over 16-bit words (high byte first, sums reduced
    modulo 65535); a last single byte counts as the high byte of a word. *)
Fixpoint fletcher_sums (data : list Byte.byte) (sum1 sum2 : N) : N * N :=
  match data with
  | hi :: lo :: rest =>
      let sum1 := ((sum1 + (Byte.to_N hi * 256 + Byte.to_N lo)) mod 65535)%N in
      let sum2 := ((sum2 + sum1) mod 65535)%N in
      fletcher_sums rest sum1 sum2
  | [hi] =>
      let sum1 := ((sum1 + Byte.to_N hi * 256) mod 65535)%N in
      let sum2 := ((sum2 + sum1) mod 65535)%N in
      (sum1, sum2)
  | [] => (sum1, sum2)
  end.

Definition fletcher32 (data : list Byte.byte) : N :=
  let '(sum1, sum2) := fletcher_sums data 0%N 0%N in
  (sum2 * 65536 + sum1)%N.

Definition byte_of_N (n : N) : Byte.byte :=
  default Byte.x00 (Byte.of_N (n mod 256)%N).

(** The four bytes of a 32-bit value, least significant first. *)
Definition checksum_bytes (c : N) : list Byte.byte :=
  [byte_of_N c; byte_of_N (c / 256)%N; byte_of_N (c / 65536)%N; byte_of_N (c / 16777216)%N].

(** Modelled from the spec: Fletcher32 "append/verify a 32-bit checksum,
    fails with an I/O error on mismatch". *)
Definition fletcher32_filter : Filter :=
  mkFilter FILTER_FLETCHER32
    (fun _ buffer => buffer ++ checksum_bytes (fletcher32 buffer))
    (fun _ skip buffer =>
       let n := (length buffer - 4)%nat in
       let data := take n buffer in
       let stored := drop n buffer in
       if skip then Ok data
       else if decide (stored = checksum_bytes (fletcher32 data)) then Ok data
       else Err (mkError Cat_IO (Some IOFailure))).

(** What a compressor could not decode is a failure of the filter. *)
Definition decoded (result : option (list Byte.byte)) : Result (list Byte.byte) :=
  match result with
  | Some buffer => Ok buffer
  | None => Err filter_error
  end.

(** Modelled from the spec: "DEFLATE-style compression"; the option is the
    compression level. *)
Definition deflate_filter : Filter :=
  mkFilter FILTER_DEFLATE deflate (fun _ _ buffer => decoded (inflate buffer)).

(** Modelled from the spec: "an external SZIP-style compressor governed by
    a coding-mode mask and max-pixels-per-block parameter", its two
    options. *)
Definition szip_filter : Filter :=
  mkFilter FILTER_SZIP szip_compress
    (fun options _ buffer => decoded (szip_decompress options buffer)).

(** Modelled from the spec: the built-in filters. *)
Definition builtin_filters : list Filter :=
  [noop_filter; deflate_filter; shuffle_filter; fletcher32_filter; szip_filter].

(** Both capabilities of the filter of an entry are compiled in. *)
Definition filter_enabled (cfg : FilterConfig) (entry : PipelineEntry) : Prop :=
  encode_enabled cfg (filter_id (entry_filter entry)) = true
  /\ decode_enabled cfg (filter_id (entry_filter entry)) = true.

(** ** Chunked storage engine (spec 4.5) *)

(** Modelled from the spec: "[chunk_index(coord) = coord / chunk_shape]
    (element-wise floor division)". *)
Definition chunk_index (coord chunk_shape : list nat) : list nat :=
  zip_with Nat.div coord chunk_shape.

(** The position of a coordinate inside its chunk, per axis. *)
Definition chunk_offset (coord chunk_shape : list nat) : list nat :=
  zip_with Nat.modulo coord chunk_shape.

Definition product (dims : list nat) : nat := foldr Nat.mul 1%nat dims.

(** Row-major position of a multi-index in a block of the given shape. *)
Fixpoint row_major (idx shape : list nat) : nat :=
  match idx, shape with
  | i :: idx', n :: shape' => (i * product shape' + row_major idx' shape')%nat
  | _, _ => 0%nat
  end.

(** The slot of an element inside the payload of its chunk. *)
Definition element_slot (coord chunk_shape : list nat) : nat :=
  row_major (chunk_offset coord chunk_shape) chunk_shape.

(** The coordinates of a box, in row-major order. *)
Fixpoint box_coords (start count : list nat) : list (list nat) :=
  match start, count with
  | s :: start', c :: count' =>
      i ← seq s c; rest ← box_coords start' count'; [i :: rest]
  | _, _ => [[]]
  end.

(** The coordinates of an array of the given extent, in row-major order. *)
Definition all_coords (dims : list nat) : list (list nat) :=
  box_coords (replicate (length dims) 0%nat) dims.

(** A hyperslab: along every axis, [count] blocks of [block] elements, the
    first one at [start], each [stride] elements after the one before. *)
Record Hyperslab : Type := mkHyperslab {
  hs_start : list nat;
  hs_stride : list nat;
  hs_count : list nat;
  hs_block : list nat
}.

(** Modelled from the spec (glossary): a selection is "a specified
    sub-region of an array's coordinate space": the whole array, the
    elements that one of a list of hyperslabs covers, or the elements
    listed one by one.  A selection is a set of coordinates: an element
    that is covered or listed twice is selected once. *)
Inductive Selection : Type :=
  | SelectAll
  | SelectHyperslabs (slabs : list Hyperslab)
  | SelectElements (points : list (list nat)).

(** The box of [count] elements per axis from [start] on. *)
Definition hyperslab_box (start count : list nat) : Hyperslab :=
  mkHyperslab start (replicate (length start) 1%nat) count (replicate (length start) 1%nat).

(** Does the position [i] on an axis fall into one of the blocks? *)
Definition axis_selected (start stride count block i : nat) : bool :=
  (start <=? i)%nat && ((i - start) / stride <? count)%nat
    && ((i - start) mod stride <? block)%nat.

Fixpoint in_hyperslab (start stride count block coord : list nat) : bool :=
  match start, stride, count, block, coord with
  | [], [], [], [], [] => true
  | s :: start', t :: stride', c :: count', b :: block', i :: coord' =>
      axis_selected s t c b i && in_hyperslab start' stride' count' block' coord'
  | _, _, _, _, _ => false
  end.

(** Is the coordinate part of the selection? *)
Definition selected (sel : Selection) (coord : list nat) : bool :=
  match sel with
  | SelectAll => true
  | SelectHyperslabs slabs =>
      existsb (fun h => in_hyperslab (hs_start h) (hs_stride h) (hs_count h) (hs_block h) coord)
              slabs
  | SelectElements points => bool_decide (coord ∈ points)
  end.

(** Modelled from the spec: the coordinates of a selection in an array of
    the given extent, in row-major order. *)
Definition selection_coords (dims : list nat) (sel : Selection) : list (list nat) :=
  filter (fun coord => selected sel coord) (all_coords dims).

(** The last block along an axis ends inside the extent (an axis without
    blocks or with empty blocks selects nothing). *)
Definition axis_within (start stride count block dim : nat) : bool :=
  (count =? 0)%nat || (block =? 0)%nat
    || (start + (count - 1) * stride + block <=? dim)%nat.

Fixpoint hyperslab_within (start stride count block dims : list nat) : bool :=
  match start, stride, count, block, dims with
  | [], [], [], [], [] => true
  | s :: start', t :: stride', c :: count', b :: block', d :: dims' =>
      axis_within s t c b d && hyperslab_within start' stride' count' block' dims'
  | _, _, _, _, _ => false
  end.

Fixpoint coord_within (coord dims : list nat) : bool :=
  match coord, dims with
  | [], [] => true
  | i :: coord', d :: dims' => (i <? d)%nat && coord_within coord' dims'
  | _, _ => false
  end.

(** Modelled from the spec: the selection lies inside the current extent
    (and has its rank). *)
Definition within_extent (dims : list nat) (sel : Selection) : bool :=
  match sel with
  | SelectAll => true
  | SelectHyperslabs slabs =>
      forallb (fun h => hyperslab_within (hs_start h) (hs_stride h) (hs_count h) (hs_block h) dims)
              slabs
  | SelectElements points => forallb (fun p => coord_within p dims) points
  end.

(** Modelled from the spec: an attribute is a "small named scalar/array
    value". *)
Record AttrValue : Type := mkAttrValue {
  attr_type : Datatype;
  attr_dims : list nat;
  attr_data : list Byte.byte
}.

(** Modelled from the spec: "Dataset storage layout is one of {Compact
    (inline small payload), Contiguous (single unbroken extent), Chunked
    (fixed-size grid)}". *)
Inductive Layout : Type :=
  | Compact
  | Contiguous
  | Chunked (chunk_shape : list nat).

(** Modelled from the spec: a dataset has an element type, a dataspace, a
    storage layout, a fill value, a filter list and attributes.  The
    payload is kept in blocks, keyed by their index in the grid: the chunks
    of a chunked dataset, one block for the whole array otherwise.  A block
    exists only once written; a chunk is stored filtered. *)
Record Dataset : Type := mkDataset {
  ds_type : Datatype;
  ds_space : Dataspace;
  ds_layout : Layout;
  ds_fill : list Byte.byte;
  ds_filters : list PipelineEntry;
  ds_chunks : gmap (list nat) (list Byte.byte);
  ds_attrs : gmap string AttrValue
}.

(** The shape of the blocks of the payload: the chunk shape of a chunked
    dataset; with the other layouts the whole array is one block. *)
Definition ds_chunk_shape (d : Dataset) : list nat :=
  match ds_layout d with
  | Chunked chunk_shape => chunk_shape
  | Compact | Contiguous => Nat.max 1 <$> current_dims (ds_space d)
  end.

(** Modelled from the spec: filters are transforms "applied per chunk": the
    pipeline of a dataset that is not chunked is empty. *)
Definition ds_pipeline (d : Dataset) : list PipelineEntry :=
  match ds_layout d with
  | Chunked _ => ds_filters d
  | Compact | Contiguous => []
  end.

Definition set_chunks (d : Dataset) (chunks : gmap (list nat) (list Byte.byte)) : Dataset :=
  mkDataset (ds_type d) (ds_space d) (ds_layout d) (ds_fill d) (ds_filters d)
    chunks (ds_attrs d).

Definition dataspace_error : EngineError := mkError Cat_Dataspace None.

(** The decoded form of a chunk: one byte string per element, row-major. *)
Definition chunk_elements (d : Dataset) : nat := product (ds_chunk_shape d).

Definition split_elements (d : Dataset) (count : nat) (bytes : list Byte.byte)
    : list (list Byte.byte) :=
  reshape (replicate count (type_size (ds_type d))) bytes.

(** A payload has the shape of a chunk of the dataset. *)
Definition well_shaped (d : Dataset) (payload : list (list Byte.byte)) : Prop :=
  length payload = chunk_elements d
  /\ Forall (fun el => length el = type_size (ds_type d)) payload.

Section Storage.
Variable cfg : FilterConfig.

(** The invariant of a dataset: the shape of its blocks has the rank of
    the dataspace and no empty axis, the fill value is one element, and
    every allocated block decodes to a payload of the shape of a block. *)
Definition valid_dataset (d : Dataset) : Prop :=
  length (ds_chunk_shape d) = rank (ds_space d)
  /\ Forall (fun n => (0 < n)%nat) (ds_chunk_shape d)
  /\ length (ds_fill d) = type_size (ds_type d)
  /\ forall idx stored, ds_chunks d !! idx = Some stored ->
       exists payload, well_shaped d payload
         /\ apply_pipeline cfg Decode stored (ds_pipeline d) = Ok (mjoin payload).

(** Modelled from the spec: reading a chunk allocates nothing; an
    unallocated chunk reads as the fill value, an allocated one is decoded
    through the filter pipeline. *)
Definition load_chunk (d : Dataset) (idx : list nat) : Result (list (list Byte.byte)) :=
  match ds_chunks d !! idx with
  | None => Ok (replicate (chunk_elements d) (ds_fill d))
  | Some stored =>
      bytes ← apply_pipeline cfg Decode stored (ds_pipeline d);
      Ok (split_elements d (chunk_elements d) bytes)
  end.

(** Modelled from the spec: "overwrite the intersecting region": in the
    payload of chunk [idx], the elements of the selection that fall into
    this chunk are replaced. *)
Definition overwrite (d : Dataset) (idx : list nat)
    (writes : list (list nat * list Byte.byte))
    (payload : list (list Byte.byte)) : list (list Byte.byte) :=
  foldl (fun p w =>
           if decide (chunk_index w.1 (ds_chunk_shape d) = idx)
           then <[element_slot w.1 (ds_chunk_shape d) := w.2]> p
           else p)
        payload writes.

(** Modelled from the spec: read-modify-write of one chunk: "decode existing
    chunk (or initialize to fill value if unallocated), overwrite the
    intersecting region, re-encode through the Filter Pipeline, persist". *)
Definition write_chunk (writes : list (list nat * list Byte.byte))
    (d : Dataset) (idx : list nat) : Result Dataset :=
  payload ← load_chunk d idx;
  stored ← apply_pipeline cfg Encode (mjoin (overwrite d idx writes payload)) (ds_pipeline d);
  Ok (set_chunks d (<[idx := stored]> (ds_chunks d))).

(** The chunks that a list of coordinates intersects. *)
Definition intersecting_chunks (d : Dataset) (coords : list (list nat)) : list (list nat) :=
  remove_dups ((fun c => chunk_index c (ds_chunk_shape d)) <$> coords).

(** Modelled from the spec: [write_range(dataset, selection, buffer)]; the
    buffer holds the selected elements in the row-major order of their
    coordinates.  It
    "fails with a Dataspace error" when the selection exceeds the current
    extent. *)
Definition write_range (d : Dataset) (sel : Selection) (buffer : list Byte.byte)
    : Result Dataset :=
  if within_extent (current_dims (ds_space d)) sel then
    let coords := selection_coords (current_dims (ds_space d)) sel in
    if (length buffer =? length coords * type_size (ds_type d))%nat then
      let writes := zip coords (split_elements d (length coords) buffer) in
      fold_result (write_chunk writes) d (intersecting_chunks d coords)
    else Err (mkError Cat_Args (Some BadValue))
  else Err dataspace_error.

(** Modelled from the spec: [read_range(dataset, selection) -> buffer]: "for
    every chunk intersecting the requested selection, reads the chunk,
    decodes it through the Filter Pipeline, copies the intersecting
    sub-region into the output buffer"; it "fails with a Dataspace error if
    selection lies outside current extent". *)
Definition read_range (d : Dataset) (sel : Selection) : Result (list Byte.byte) :=
  if within_extent (current_dims (ds_space d)) sel then
    let coords := selection_coords (current_dims (ds_space d)) sel in
    loaded ← map_result (fun idx => payload ← load_chunk d idx; Ok (idx, payload))
                        (intersecting_chunks d coords);
    let table : gmap (list nat) (list (list Byte.byte)) := list_to_map loaded in
    Ok (mjoin ((fun c =>
                  default [] (table !! chunk_index c (ds_chunk_shape d)
                              ≫= fun payload => payload !! element_slot c (ds_chunk_shape d)))
               <$> coords))
  else Err dataspace_error.
End Storage.

(** ** Group/File hierarchy (spec 4.6) and identifiers (spec 4.2) *)

(** Modelled from the spec: a group is a "named container of child Groups
    and Datasets, keyed by name", and may hold attributes.  Children are
    referred to by their index in the table of objects. *)
Record Group : Type := mkGroup {
  children : gmap string nat;
  group_attrs : gmap string AttrValue
}.

Inductive Object : Type :=
  | ObjGroup (g : Group)
  | ObjDataset (d : Dataset).

(** Modelled from the spec: the state of an open file: the table of its
    objects, the open identifiers with the object each refers to, and the
    next free object index and identifier. *)
Record FileState : Type := mkFileState {
  objects : gmap nat Object;
  identifiers : gmap nat nat;
  next_object : nat;
  next_identifier : nat
}.

Definition empty_group : Group := mkGroup ∅ ∅.

(** A freshly created file: the root group, open under identifier 0. *)
Definition new_file : FileState :=
  mkFileState {[ 0%nat := ObjGroup empty_group ]} {[ 0%nat := 0%nat ]} 1 1.

Definition root_identifier : nat := 0%nat.

(** Modelled from the spec: "using a closed identifier fails with a resource
    error". *)
Definition resolve (st : FileState) (id : nat) : Result (nat * Object) :=
  match identifiers st !! id with
  | None => Err (mkError Cat_Resource None)
  | Some obj =>
      match objects st !! obj with
      | None => Err (mkError Cat_Resource None)
      | Some o => Ok (obj, o)
      end
  end.

Definition already_exists : EngineError := mkError Cat_Symbol (Some AlreadyExists).

(** Modelled from the spec: what [create_group] and [create_dataset] share.
    A new object is linked under [name] in the group [parent] and an
    identifier is opened for it; the call "fails with a name already exists
    error if [name] is already a direct child of [parent]; no implicit
    overwrite".  A failing call returns the state it was given. *)
Definition create_object (parent : nat) (name : string) (new : Object)
    (st : FileState) : Result nat * FileState :=
  match resolve st parent with
  | Err err => (Err err, st)
  | Ok (_, ObjDataset _) => (Err (mkError Cat_Args (Some BadType)), st)
  | Ok (pobj, ObjGroup g) =>
      match children g !! name with
      | Some _ => (Err already_exists, st)
      | None =>
          let obj := next_object st in
          let id := next_identifier st in
          let g' := mkGroup (<[name := obj]> (children g)) (group_attrs g) in
          (Ok id,
           mkFileState (<[pobj := ObjGroup g']> (<[obj := new]> (objects st)))
                       (<[id := obj]> (identifiers st))
                       (S obj) (S id))
      end
  end.

(** Modelled from the spec: [create_group(parent, name)]. *)
Definition create_group (parent : nat) (name : string) (st : FileState)
    : Result nat * FileState :=
  create_object parent name (ObjGroup empty_group) st.

(** Modelled from the spec: [create_dataset(parent, name, type, dataspace,
    [filter_list])]; the chunk shape and the fill value are the creation
    properties of the chunked layout. *)
Definition create_dataset (parent : nat) (name : string) (type : Datatype)
    (space : Dataspace) (filter_list : list PipelineEntry)
    (chunk_shape : list nat) (fill : list Byte.byte) (st : FileState)
    : Result nat * FileState :=
  create_object parent name
    (ObjDataset (mkDataset type space (Chunked chunk_shape) fill filter_list ∅ ∅)) st.

(** Modelled from the spec: [create_dataset] for a dataset of any storage
    layout. *)
Definition create_dataset_layout (parent : nat) (name : string) (type : Datatype)
    (space : Dataspace) (filter_list : list PipelineEntry) (layout : Layout)
    (fill : list Byte.byte) (st : FileState) : Result nat * FileState :=
  create_object parent name
    (ObjDataset (mkDataset type space layout fill filter_list ∅ ∅)) st.

(** Modelled from the spec: [list_children(group)]. *)
Definition list_children (id : nat) (st : FileState) : Result (list string) :=
  match resolve st id with
  | Ok (_, ObjGroup g) => Ok (fst <$> map_to_list (children g))
  | Ok (_, ObjDataset _) => Err (mkError Cat_Args (Some BadType))
  | Err err => Err err
  end.

(** The child of a group under a name, with the object it refers to. *)
Definition child_object (id : nat) (name : string) (st : FileState) : option (nat * Object) :=
  match resolve st id with
  | Ok (_, ObjGroup g) =>
      obj ← children g !! name; o ← objects st !! obj; Some (obj, o)
  | _ => None
  end.

(** *** The [attrs] view *)

Definition object_attrs (o : Object) : gmap string AttrValue :=
  match o with
  | ObjGroup g => group_attrs g
  | ObjDataset d => ds_attrs d
  end.

Definition set_object_attrs (o : Object) (attrs : gmap string AttrValue) : Object :=
  match o with
  | ObjGroup g => ObjGroup (mkGroup (children g) attrs)
  | ObjDataset d =>
      ObjDataset (mkDataset (ds_type d) (ds_space d) (ds_layout d) (ds_fill d)
                            (ds_filters d) (ds_chunks d) attrs)
  end.

(** Modelled from the spec: [set(name, value)] "overwrites
    unconditionally". *)
Definition attrs_set (id : nat) (name : string) (value : AttrValue) (st : FileState)
    : Result unit * FileState :=
  match resolve st id with
  | Err err => (Err err, st)
  | Ok (obj, o) =>
      let o' := set_object_attrs o (<[name := value]> (object_attrs o)) in
      (Ok tt,
       mkFileState (<[obj := o']> (objects st)) (identifiers st)
                   (next_object st) (next_identifier st))
  end.

(** Modelled from the spec: [get(name)]. *)
Definition attrs_get (id : nat) (name : string) (st : FileState) : Result AttrValue :=
  match resolve st id with
  | Err err => Err err
  | Ok (_, o) =>
      match object_attrs o !! name with
      | Some value => Ok value
      | None => Err (mkError Cat_Attr (Some NotFound))
      end
  end.

(** Modelled from the spec: [iterate()], the (name, value) pairs. *)
Definition attrs_iterate (id : nat) (st : FileState) : Result (list (string * AttrValue)) :=
  match resolve st id with
  | Err err => Err err
  | Ok (_, o) => Ok (map_to_list (object_attrs o))
  end.

(** *** Samples *)

Definition int32 : Datatype := mkDatatype 4 LittleEndian Integer.

Definition text_value (s : string) : AttrValue :=
  mkAttrValue (mkDatatype (String.length s) LittleEndian FixedString) []
              (String.list_byte_of_string s).

(** The quick-start guide: a file in which the group "NewGroup" exists. *)
Definition file_with_group : FileState :=
  snd (create_group root_identifier "NewGroup" new_file).

(** The quick-start guide: a dataset with the attribute "Name". *)
Definition file_with_dataset : FileState :=
  snd (create_dataset root_identifier "MyDataset" int32
         (mkDataspace [100; 100]%nat [Some 100; Some 100]%nat) [] [10; 10]%nat
         [Byte.x00; Byte.x00; Byte.x00; Byte.x00] new_file).

Definition file_with_attribute : FileState :=
  snd (attrs_set 1 "Name" (text_value "My Dataset") file_with_dataset).

(** Every filter capability compiled in. *)
Definition all_enabled : FilterConfig := mkFilterConfig (fun _ => true) (fun _ => true).

(** A 4 x 4 dataset of 32-bit integers in 2 x 2 chunks, filled with 42,
    with the shuffle filter, the two compressors and the Fletcher32
    filter. *)
Definition sample_dataset : Dataset :=
  mkDataset int32 (mkDataspace [4; 4]%nat [Some 4; None]%nat) (Chunked [2; 2]%nat)
    [Byte.x2a; Byte.x00; Byte.x00; Byte.x00]
    [mkEntry shuffle_filter [4%nat] false false;
     mkEntry deflate_filter [6%nat] false false;
     mkEntry szip_filter [32; 8]%nat false false;
     mkEntry fletcher32_filter [] false false]
    ∅ ∅.

(** Rows 0 and 2, columns 1 and 2: two blocks of one row and two
    columns. *)
Definition sample_selection : Selection :=
  SelectHyperslabs [mkHyperslab [0; 1]%nat [2; 2]%nat [2; 1]%nat [1; 2]%nat].

Definition sample_buffer : list Byte.byte :=
  [Byte.x01; Byte.x02; Byte.x03; Byte.x04; Byte.x11; Byte.x12; Byte.x13; Byte.x14;
   Byte.x21; Byte.x22; Byte.x23; Byte.x24; Byte.x31; Byte.x32; Byte.x33; Byte.x34].

(** The same array stored as one unbroken extent. *)
Definition contiguous_dataset : Dataset :=
  mkDataset int32 (mkDataspace [4; 4]%nat [Some 4; Some 4]%nat) Contiguous
    [Byte.x2a; Byte.x00; Byte.x00; Byte.x00] [] ∅ ∅.

(** Three elements, listed one by one, out of order and one of them
    twice. *)
Definition sample_elements : Selection :=
  SelectElements [[3; 3]; [0; 0]; [1; 2]; [0; 0]]%nat.

(** Only the encoders compiled in: nothing can be decoded. *)
Definition encode_only : FilterConfig := mkFilterConfig (fun _ => true) (fun _ => false).

(** The sample dataset with the shuffle filter alone, marked optional. *)
Definition optional_shuffle_dataset : Dataset :=
  mkDataset int32 (mkDataspace [4; 4]%nat [Some 4; None]%nat) (Chunked [2; 2]%nat)
    [Byte.x2a; Byte.x00; Byte.x00; Byte.x00]
    [mkEntry shuffle_filter [4%nat] true false] ∅ ∅.

(** * Further definitions *)

(** ** The class hierarchy of [h5e.pyx] *)

#[global] Instance PyClass_eq_dec : EqDecision PyClass.
Proof. solve_decision. Defined.

(** The base classes that the class statements name: every class of a major
    error code derives from [H5Error], a generated class from its two
    arguments.  The bases of [H5Error] ([Exception]) and of the built-in
    exceptions lie outside the module. *)
Definition bases (c : PyClass) : list PyClass :=
  match c with
  | HybridClass cls1 cls2 => [cls1; cls2]
  | IOError | ValueError | KeyError | TypeError | NotImplementedError
  | RuntimeError | H5Error => []
  | _ => [H5Error]
  end.

(** [issubclass(c, target)], along the bases above. *)
Fixpoint issubclass (c target : PyClass) : bool :=
  bool_decide (c = target)
  || match c with
     | HybridClass cls1 cls2 => issubclass cls1 target || issubclass cls2 target
     | IOError | ValueError | KeyError | TypeError | NotImplementedError
     | RuntimeError | H5Error => false
     | _ => bool_decide (H5Error = target)
     end.

(** The built-in exceptions named by the minor and the exact table. *)
Definition python_style_classes : list PyClass :=
  [IOError; ValueError; NotImplementedError; KeyError; TypeError].

Section Codes.
Context `{HDF5 : HDF5_errors}.

(** The keys of [_major_table], in the order of the table. *)
Definition major_codes : list Z :=
  [H5E_ARGS; H5E_RESOURCE; H5E_INTERNAL; H5E_FILE; H5E_IO; H5E_FUNC; H5E_ATOM;
   H5E_CACHE; H5E_BTREE; H5E_SYM; H5E_HEAP; H5E_OHDR; H5E_DATATYPE;
   H5E_DATASPACE; H5E_DATASET; H5E_STORAGE; H5E_PLIST; H5E_ATTR; H5E_PLINE;
   H5E_EFL; H5E_REFERENCE; H5E_VFL; H5E_TST; H5E_RS; H5E_ERROR; H5E_SLIST].

(** The entries of [_major_table], in the order of the table. *)
Definition major_entries : list (Z * PyClass) :=
  [(H5E_ARGS, ArgsError); (H5E_RESOURCE, ResourceError); (H5E_INTERNAL, InternalError);
   (H5E_FILE, FileError); (H5E_IO, LowLevelIOError); (H5E_FUNC, FuncError);
   (H5E_ATOM, AtomError); (H5E_CACHE, CacheError); (H5E_BTREE, BtreeError);
   (H5E_SYM, SymbolError); (H5E_HEAP, HeapError); (H5E_OHDR, ObjectHeaderError);
   (H5E_DATATYPE, DatatypeError); (H5E_DATASPACE, DataspaceError);
   (H5E_DATASET, DatasetError); (H5E_STORAGE, StorageError);
   (H5E_PLIST, PropertyError); (H5E_ATTR, AttrError); (H5E_PLINE, FilterError);
   (H5E_EFL, FileListError); (H5E_REFERENCE, RefError); (H5E_VFL, VirtualFileError);
   (H5E_TST, TSTError); (H5E_RS, RSError); (H5E_ERROR, ErrorError);
   (H5E_SLIST, SkipListError)].

(** The entries of [_minor_table], in the order of the table. *)
Definition minor_entries : list (Z * PyClass) :=
  [(H5E_SEEKERROR, IOError); (H5E_READERROR, IOError); (H5E_WRITEERROR, IOError);
   (H5E_CLOSEERROR, IOError); (H5E_OVERFLOW, IOError); (H5E_FCNTL, IOError);
   (H5E_NOFILTER, IOError); (H5E_CALLBACK, IOError); (H5E_CANAPPLY, IOError);
   (H5E_SETLOCAL, IOError); (H5E_NOENCODER, IOError);
   (H5E_FILEEXISTS, ValueError); (H5E_FILEOPEN, ValueError);
   (H5E_NOTHDF5, ValueError); (H5E_BADFILE, ValueError);
   (H5E_BADATOM, ValueError); (H5E_BADGROUP, ValueError);
   (H5E_BADSELECT, ValueError); (H5E_UNINITIALIZED, ValueError);
   (H5E_UNSUPPORTED, NotImplementedError);
   (H5E_NOTFOUND, KeyError); (H5E_CANTINSERT, ValueError);
   (H5E_BADTYPE, TypeError); (H5E_BADRANGE, ValueError); (H5E_BADVALUE, ValueError);
   (H5E_EXISTS, ValueError); (H5E_CANTCONVERT, TypeError)].

(** All the minor codes that the module names: the keys of [_minor_table]
    and the two further ones of [_exact_table]. *)
Definition minor_codes : list Z :=
  minor_entries.*1 ++ [H5E_CANTINIT; H5E_SYSERRSTR].
End Codes.

(** ** [ci/travis/get_hdf5_if_needed.sh] *)

Definition is_dot (c : ascii) : bool := (nat_of_ascii c =? 46)%nat.

Fixpoint has_dot (s : string) : bool :=
  match s with
  | EmptyString => false
  | String c r => is_dot c || has_dot r
  end.

(** [${var%.*}]: the shortest suffix that matches [.*] is removed, that is
    everything from the last dot on; a value without a dot is left as it
    is. *)
Fixpoint remove_dot_suffix (s : string) : string :=
  match s with
  | EmptyString => EmptyString
  | String c r =>
      if is_dot c && negb (has_dot r) then EmptyString
      else String c (remove_dot_suffix r)
  end.

(** The argument of [wget]. *)
Definition tarball_url (HDF5_VERSION : string) : string :=
  "https://www.hdfgroup.org/ftp/HDF5/releases/hdf5-" +:+ remove_dot_suffix HDF5_VERSION
    +:+ "/hdf5-" +:+ HDF5_VERSION +:+ "/src/hdf5-" +:+ HDF5_VERSION +:+ ".tar.gz".

(** The simple commands of the script.  The argument of [wget] is quoted
    in the script; the other arguments are unquoted expansions, recorded
    here as the text of the expansion before any word splitting. *)
Inductive command : Type :=
  | echo (text : string)
  | pushd (dir : string)
  | popd
  | wget (url : string)
  | tar_xzvf (file : string)
  | chmod_ux (file : string)
  | configure_prefix (prefix : string)
  | make_j_nproc
  | make_install.

#[global] Instance command_eq_dec : EqDecision command.
Proof. solve_decision. Defined.

(** The commands that the script reaches, in order, when all of them
    succeed.  [HDF5_DIR] is [None] when the variable is unset
    ([${HDF5_DIR+x}] is then empty); [cached] is the outcome of the test
    [-f $HDF5_DIR/lib/libhdf5.so]; an unset [HDF5_VERSION] expands to the
    empty string. *)
Definition script_commands (HDF5_DIR : option string) (HDF5_VERSION : string)
    (cached : bool) : list command :=
  match HDF5_DIR with
  | None => [echo "Using OS HDF5"]
  | Some dir =>
      echo "Using downloaded HDF5" ::
      (if cached then [echo "using cached build"]
       else
         [pushd "/tmp";
          wget (tarball_url HDF5_VERSION);
          tar_xzvf ("hdf5-" +:+ HDF5_VERSION +:+ ".tar.gz");
          pushd ("hdf5-" +:+ HDF5_VERSION);
          chmod_ux "autogen.sh";
          configure_prefix dir;
          make_j_nproc;
          make_install;
          popd;
          popd])
  end.

(** [set -e]: the commands run in order and the first one that fails ends
    the script.  The result is the list of the commands that ran (the
    failing one last) and whether the script ended with success. *)
Fixpoint run_set_e (succeeds : command -> bool) (cmds : list command) : list command * bool :=
  match cmds with
  | [] => ([], true)
  | c :: rest =>
      if succeeds c then
        let '(ran, ok) := run_set_e succeeds rest in (c :: ran, ok)
      else ([c], false)
  end.

Definition get_hdf5_if_needed (succeeds : command -> bool) (HDF5_DIR : option string)
    (HDF5_VERSION : string) (cached : bool) : list command * bool :=
  run_set_e succeeds (script_commands HDF5_DIR HDF5_VERSION cached).

(** The characters at which the shell splits an expansion that is not
    quoted (space, tab, newline), and those that make a word a pattern for
    file names (star, question mark, opening bracket). *)
Definition is_blank (c : ascii) : bool :=
  let n := nat_of_ascii c in (n =? 32)%nat || (n =? 9)%nat || (n =? 10)%nat.

Definition is_pattern_char (c : ascii) : bool :=
  let n := nat_of_ascii c in (n =? 42)%nat || (n =? 63)%nat || (n =? 91)%nat.

(** A text that the shell leaves as the one word it is. *)
Definition plain_word (s : string) : bool :=
  string_forall (fun c => negb (is_blank c) && negb (is_pattern_char c)) s.

(** The test [-f $HDF5_DIR/lib/libhdf5.so].  The expansion is not quoted.
    When the value of [HDF5_DIR] is a plain word, the test has the one
    operand [$HDF5_DIR/lib/libhdf5.so] and succeeds exactly when this is a
    regular file ([is_file]).  Otherwise the shell splits the expansion into
    several words or replaces it by the file names it matches; what the
    test makes of that is left open ([other]). *)
Definition test_f_libhdf5 (is_file other : string -> bool) (HDF5_DIR : string) : bool :=
  let path := HDF5_DIR +:+ "/lib/libhdf5.so" in
  if plain_word HDF5_DIR then is_file path else other path.

(** Is the command a download or a build step? *)
Definition is_build_step (c : command) : bool :=
  match c with
  | echo _ => false
  | _ => true
  end.

(** * Properties *)

(** ** Strings and dictionaries *)

Lemma string_app_assoc (s1 s2 s3 : string) :
  s1 +:+ (s2 +:+ s3) = (s1 +:+ s2) +:+ s3.
Proof.
  induction s1 as [|c s1 IH]; [reflexivity |].
  change (String c (s1 +:+ (s2 +:+ s3)) = String c ((s1 +:+ s2) +:+ s3)).
  now f_equal.
Qed.

Lemma string_app_empty_r (s : string) : s +:+ "" = s.
Proof.
  induction s as [|c s IH]; [reflexivity |].
  change (String c (s +:+ "") = String c s). now f_equal.
Qed.

Lemma py_dict_snoc `{Countable K} {V : Type} (entries : list (K * V)) (k : K) (v : V) :
  py_dict (entries ++ [(k, v)]) = <[k := v]> (py_dict entries).
Proof. unfold py_dict. now rewrite foldl_snoc. Qed.

(** Every value found in a dict literal is the value of one of its
    entries. *)
Lemma py_dict_lookup_Some `{Countable K} {V : Type} (entries : list (K * V)) (k : K) (v : V) :
  py_dict entries !! k = Some v -> (k, v) ∈ entries.
Proof.
  induction entries as [|[k' v'] entries IH] using rev_ind.
  - unfold py_dict; simpl. rewrite lookup_empty. discriminate.
  - rewrite py_dict_snoc, elem_of_app, list_elem_of_singleton.
    destruct (decide (k' = k)) as [->|Hne].
    + rewrite lookup_insert_eq. intros [= ->]. now right.
    + rewrite lookup_insert_ne by exact Hne. intros Hk. left. now apply IH.
Qed.

(** ** The walk *)

Section WalkFacts.
Context `{HDF5 : HDF5_errors}.

Lemma walk_slots_walk_cb (n : nat) (slots : list H5E_error_t) (stack : ErrorStack) :
  walk_slots walk_cb n slots stack = (0, stack ++ (mkElement <$> slots)).
Proof.
  revert n stack. induction slots as [|slot rest IH]; intros n stack; simpl.
  - now rewrite app_nil_r.
  - rewrite IH. now rewrite <- app_assoc.
Qed.

Lemma ErrorStack_init_upward (args : list ErrorStackElement) (estack : H5E_t) :
  ErrorStack_init args estack = args ++ (mkElement <$> estack).
Proof. unfold ErrorStack_init, H5Ewalk. now rewrite walk_slots_walk_cb. Qed.

(** A downward walk would hand over the frames most recent first. *)
Lemma walk_downward_reverses (args : list ErrorStackElement) (estack : H5E_t) :
  snd (H5Ewalk H5E_WALK_DOWNWARD walk_cb args estack)
  = args ++ (mkElement <$> rev estack).
Proof. unfold H5Ewalk. now rewrite walk_slots_walk_cb. Qed.

Lemma push_frames_app (estack : H5E_t) (frames : list H5E_error_t) :
  push_frames estack frames = estack ++ frames.
Proof.
  unfold push_frames. revert estack.
  induction frames as [|f frames IH]; intros estack; simpl.
  - now rewrite app_nil_r.
  - rewrite IH. unfold push_frame. now rewrite <- app_assoc.
Qed.
End WalkFacts.

(** ** Case of characters *)

Lemma tolower_fixed (c : ascii) : tolower c = c <-> isupper c = false.
Proof.
  destruct c as [[] [] [] [] [] [] [] []]; vm_compute; split; congruence.
Qed.

Lemma string_map_tolower_fixed (s : string) :
  string_map tolower s = s <-> string_forall (fun c => negb (isupper c)) s = true.
Proof.
  induction s as [|c s IH]; simpl; [tauto |].
  rewrite andb_true_iff, negb_true_iff, <- IH, <- tolower_fixed.
  split; [intros [= Hc Hs]; now split | intros [-> ->]; reflexivity].
Qed.

(** ** The trace *)

Section TraceFacts.
Context `{HDF5 : HDF5_errors}.

Lemma str_loop_join (idx : nat) (els : list ErrorStackElement) (s : string) :
  str_loop idx els s =
  s +:+ join (imap (fun i el => str_frame_head (idx + i) el +:+ str_frame_codes el) els).
Proof.
  revert idx s. induction els as [|el rest IH]; intros idx s.
  - simpl. now rewrite string_app_empty_r.
  - cbn [str_loop]. rewrite IH, imap_cons. cbn [join foldr].
    rewrite Nat.add_0_r, <- !string_app_assoc. do 3 f_equal.
    fold (join (imap ((λ (i : nat) (el0 : ErrorStackElement),
      str_frame_head (idx + i) el0 +:+ str_frame_codes el0) ∘ S) rest)).
    f_equal. apply imap_ext. intros i el' _. simpl. now rewrite Nat.add_succ_r.
Qed.

Lemma ErrorStack_str_cons (el : ErrorStackElement) (rest : ErrorStack) :
  ErrorStack_str (el :: rest) = trace_of (el :: rest).
Proof.
  unfold ErrorStack_str, trace_of. cbn [length Nat.eqb].
  rewrite str_loop_join. f_equal. f_equal.
  apply imap_ext. intros i el' _. cbn [Nat.add].
  unfold str_frame_head, str_frame_codes, elem_code_desc. cbn [fst snd].
  now rewrite <- !string_app_assoc.
Qed.

(** The message of a stack with a first frame: the formatted first frame,
    followed by the trace when the flag is set. *)
Lemma get_exc_msg_snd (g : Globals) (self0 : ErrorStackElement) (rest : ErrorStack) :
  snd <$> get_exc_msg g (self0 :: rest) =
  Some (let msg := elem_desc self0 +:+ " (" +:+ H5Eget_major (maj_num (e self0)) +:+ ": "
                   +:+ H5Eget_minor (min_num (e self0)) +:+ ")" in
        if _verbose g then msg +:+ newline +:+ trace_of (self0 :: rest) else msg).
Proof.
  unfold get_exc_msg. destruct (elem_code self0) as [major minor].
  cbn [fmap option_fmap option_map snd]. now rewrite ErrorStack_str_cons.
Qed.
End TraceFacts.

(** ** The major table holds plain classes *)

Section TableFacts.
Context `{HDF5 : HDF5_errors}.

Lemma major_class_plain (major : Z) :
  kind_of (dict_get _major_table major H5Error)
  = mkErrorKind (dict_get _major_table major H5Error) None.
Proof.
  unfold dict_get. destruct (_major_table !! major) as [c|] eqn:Hc; [|reflexivity].
  apply py_dict_lookup_Some in Hc.
  repeat (apply elem_of_cons in Hc as [[= _ ->]|Hc]; [reflexivity |]).
  now apply elem_of_nil in Hc.
Qed.
End TableFacts.

(** ** Classification *)

Section Classification.
Context `{HDF5 : HDF5_errors}.

(** C1.  For a stack whose first frame carries the codes (major, minor),
    [get_exc_msg] returns a class whose two axes are those of the
    two-level lookup: the major table always gives the category; an entry
    of the exact-match table for the pair wins over the minor table; with
    a refinement from either table the class is the one generated from
    the major class and the refinement, and without any it is the major
    class alone. *)
Theorem get_exc_msg_two_level_lookup (g : Globals) (self0 : ErrorStackElement) (rest : ErrorStack) :
  let major := c_int (maj_num (e self0)) in
  let minor := c_int (min_num (e self0)) in
  let maj_class := dict_get _major_table major H5Error in
  exists exc msg,
    get_exc_msg g (self0 :: rest) = Some (exc, msg)
    /\ kind_of exc = classify_kind major minor
    /\ category (kind_of exc) = maj_class
    /\ match _exact_table !! (major, minor), _minor_table !! minor with
       | Some r, _ => exc = generate_class maj_class r
       | None, Some r => exc = generate_class maj_class r
       | None, None => exc = maj_class
       end.
Proof.
  intros major minor maj_class.
  unfold get_exc_msg, elem_code. fold major minor. fold maj_class.
  unfold classify_kind. fold maj_class.
  destruct (_exact_table !! (major, minor)) as [r|] eqn:Hexact.
  - eexists _, _. split; [reflexivity |]. repeat split.
  - destruct (_minor_table !! minor) as [r|] eqn:Hminor.
    + eexists _, _. split; [reflexivity |]. repeat split.
    + eexists _, _. split; [reflexivity |].
      pose proof (major_class_plain major) as Hplain. fold maj_class in Hplain.
      rewrite Hplain. repeat split.
Qed.

(** C2.  [get_exc_msg] returns [None] exactly on the stack without
    frames, that is exactly when the walk found no frame in the library's
    stack; on a stack with a first frame it returns a pair of a class and a
    message. *)
Theorem get_exc_msg_None_iff_empty (g : Globals) (self : ErrorStack) :
  (get_exc_msg g self = None <-> length self = 0%nat)
  /\ (forall estack, get_exc_msg g (ErrorStack_init [] estack) = None <-> estack = [])
  /\ (forall self0 rest, exists exc msg, get_exc_msg g (self0 :: rest) = Some (exc, msg)).
Proof.
  assert (Hiff : forall stack, get_exc_msg g stack = None <-> stack = []).
  { intros [|self0 rest]; [now split |].
    unfold get_exc_msg. destruct (elem_code self0) as [major minor].
    split; intros [=]. }
  split; [| split].
  - rewrite Hiff. destruct self; [now split | split; intros [=]].
  - intros estack. rewrite Hiff, ErrorStack_init_upward.
    destruct estack; [now split | split; intros [=]].
  - intros self0 rest. unfold get_exc_msg.
    destruct (elem_code self0) as [major minor]. eexists _, _. reflexivity.
Qed.

(** C3.  On a stack with first frame [self0] the message is
    "<description> (<major_desc>: <minor_desc>)" of that frame: the
    capitalized description of the frame's record and the library's texts
    for its major and minor codes; and nothing else while the verbose flag
    is off (as it is at import, or after [verbose(False)]).  Once
    [verbose(True)] has set the flag, a line break and the trace of all
    frames follow: the heading, then per frame the line
    [idx: "desc" at function_name], built from the capitalized description
    and the function name of the frame's record, and the line
    [major_desc :: minor_desc]. *)
Theorem get_exc_msg_message (g : Globals) (self0 : ErrorStackElement) (rest : ErrorStack) :
  let nl := String (ascii_of_nat 10) EmptyString in
  let quote := String (ascii_of_nat 34) EmptyString in
  let first_line :=
    capitalize (desc (e self0)) +:+ " (" +:+ H5Eget_major (maj_num (e self0)) +:+ ": "
      +:+ H5Eget_minor (min_num (e self0)) +:+ ")" in
  let frame_lines (idx : nat) (el : ErrorStackElement) :=
    nl +:+ "    " +:+ pretty idx +:+ ": " +:+ quote +:+ capitalize (desc (e el))
      +:+ quote +:+ " at " +:+ func_name (e el)
      +:+ nl +:+ "        " +:+ H5Eget_major (maj_num (e el))
      +:+ " :: " +:+ H5Eget_minor (min_num (e el)) in
  snd <$> get_exc_msg module_init (self0 :: rest) = Some first_line
  /\ snd <$> get_exc_msg (verbose false g) (self0 :: rest) = Some first_line
  /\ snd <$> get_exc_msg (verbose true g) (self0 :: rest) =
     Some (first_line +:+ nl +:+ "HDF5 Error Stack:" +:+
           foldr String.append EmptyString (imap frame_lines (self0 :: rest))).
Proof.
  intros nl quote first_line frame_lines. rewrite !get_exc_msg_snd.
  cbn [_verbose verbose module_init]. repeat split.
Qed.

(** C10 (amended).  The description exposed for a frame is the library's
    description with its first character upper-cased and every other
    character lower-cased; it is the raw text with only its first
    character capitalized exactly when no later character is an
    upper-case letter; and it is this text that opens the message. *)
Theorem elem_desc_capitalize (el : ErrorStackElement) (rest : ErrorStack) :
  elem_desc el =
    match desc (e el) with
    | EmptyString => EmptyString
    | String c r => String (toupper c) (string_map tolower r)
    end
  /\ (elem_desc el = upper_first (desc (e el))
      <-> string_forall (fun c => negb (isupper c)) (string_tail (desc (e el))) = true)
  /\ snd <$> get_exc_msg module_init (el :: rest) =
     Some (capitalize (desc (e el)) +:+ " (" +:+ H5Eget_major (maj_num (e el)) +:+ ": "
           +:+ H5Eget_minor (min_num (e el)) +:+ ")").
Proof.
  split; [reflexivity |]. split.
  - unfold elem_desc, capitalize, upper_first, string_tail.
    destruct (desc (e el)) as [|c r]; [tauto |].
    rewrite <- string_map_tolower_fixed.
    split; [intros [= Hr]; exact Hr | intros ->; reflexivity].
  - now rewrite get_exc_msg_snd.
Qed.
End Classification.

(** C10, as stated, fails on a description with an upper-case letter after
    its first character. *)
Lemma elem_desc_not_upper_first :
  elem_desc (mkElement frame_signature) = "Not an hdf5 file"
  /\ upper_first (desc (e (mkElement frame_signature))) = "Not an HDF5 file"
  /\ elem_desc (mkElement frame_signature) <> upper_first (desc (e (mkElement frame_signature))).
Proof. repeat split. intros [=]. Qed.

(** ** The callback *)

Section CallbackFacts.
Context `{HDF5 : HDF5_errors}.

(** C9.  When the walk finds no frame, [err_callback] sets [RuntimeError]
    with the message "No HDF5 exception information found"; and whatever
    the stack holds, it returns 1. *)
Theorem err_callback_empty_stack (g : Globals) (estack : H5E_t) (ts : PyThreadState)
    (Hempty : ErrorStack_init [] estack = []) :
  err_callback g estack ts
    = (1, {| curexc := Some (RuntimeError, "No HDF5 exception information found") |})
  /\ (forall g' estack' ts', fst (err_callback g' estack' ts') = 1).
Proof.
  split.
  - unfold err_callback. rewrite Hempty. reflexivity.
  - intros g' estack' ts'. unfold err_callback.
    destruct (get_exc_msg g' (ErrorStack_init [] estack')) as [[exc msg]|]; reflexivity.
Qed.
End CallbackFacts.

Lemma err_callback_empty_stack_witness :
  err_callback (HDF5 := sample_errors) (verbose true module_init) [] {| curexc := None |}
    = (1, {| curexc := Some (RuntimeError, "No HDF5 exception information found") |})
  /\ (forall g' estack' ts', fst (err_callback (HDF5 := sample_errors) g' estack' ts') = 1).
Proof.
  apply (err_callback_empty_stack (HDF5 := sample_errors) (verbose true module_init) []
           {| curexc := None |}).
  reflexivity.
Defined.

(** ** Order of the frames *)

Section StackOrder.
Context `{HDF5 : HDF5_errors}.

(** C4 (amended).  Frames are recorded deepest first, and the upward walk
    hands them to [ErrorStack] in that same order: the list holds the
    frames in the order they were pushed, so its first element is the one
    recorded first (the deepest) and its last the most recent (the API
    function); the rendered trace presents them in list order, the entry
    numbered [idx] being the frame pushed at position [idx]. *)
Theorem error_stack_walk_order (frames : list H5E_error_t) :
  let stack := ErrorStack_init [] (push_frames [] frames) in
  stack = (mkElement <$> frames)
  /\ (forall idx, stack !! idx = mkElement <$> frames !! idx)
  /\ ErrorStack_str stack =
     match frames with
     | [] => "No HDF5 error recorded"
     | _ :: _ => trace_of (mkElement <$> frames)
     end.
Proof.
  intros stack.
  assert (Hstack : stack = mkElement <$> frames).
  { unfold stack. now rewrite ErrorStack_init_upward, push_frames_app. }
  split; [exact Hstack |]. split.
  - intros idx. rewrite Hstack. apply list_lookup_fmap.
  - rewrite Hstack. destruct frames as [|f frames]; [reflexivity |].
    rewrite fmap_cons. apply ErrorStack_str_cons.
Qed.
End StackOrder.

(** C4, as stated, fails for two frames: the list is not most-recent-first
    and the trace does not begin with the outermost frame. *)
Lemma error_stack_not_most_recent_first :
  let frames := [frame_exists; frame_create] in
  let stack := ErrorStack_init [] (push_frames [] frames) in
  stack = [mkElement frame_exists; mkElement frame_create]
  /\ stack <> (mkElement <$> rev frames)
  /\ ErrorStack_str (HDF5 := sample_errors) stack
     <> trace_of (HDF5 := sample_errors) (mkElement <$> rev frames).
Proof.
  cbv zeta. split; [reflexivity |]. split.
  - intros [=].
  - vm_compute. intros [=].
Qed.

(** ** Registration *)

Section Registration.
Context `{HDF5 : HDF5_errors}.

Lemma register_thread_eq (tid : thread_id) (lib : H5E_handlers) :
  register_thread tid lib = (Return 0, <[tid := (auto_err_callback, NULL)]> lib).
Proof. reflexivity. Qed.

Lemma register_thread_times_S (n : nat) (tid : thread_id) (lib : H5E_handlers) :
  register_thread_times (S n) tid lib
  = (Some (Return 0), <[tid := (auto_err_callback, NULL)]> lib).
Proof.
  induction n as [|n IH].
  - reflexivity.
  - change (register_thread_times (S (S n)) tid lib) with
      (let '(_, lib0) := register_thread_times (S n) tid lib in
       let '(r, lib1) := register_thread tid lib0 in (Some r, lib1)).
    rewrite IH, register_thread_eq. now rewrite insert_insert_eq.
Qed.

(** C5.  In every thread, any number of calls of [register_thread] after
    the first return 0 and leave the library as the first call left it:
    the handler of the thread is [err_callback] with no client data, the
    handlers of the other threads are untouched, and a failure in any
    thread is reported as after a single call. *)
Theorem register_thread_idempotent (n : nat) (tid : thread_id) (lib : H5E_handlers) :
  let once := snd (register_thread tid lib) in
  register_thread tid lib = (Return 0, once)
  /\ register_thread_times (S n) tid lib = (Some (Return 0), once)
  /\ register_thread tid once = (Return 0, once)
  /\ once !! tid = Some (auto_err_callback, NULL)
  /\ (forall tid', tid' <> tid -> once !! tid' = lib !! tid')
  /\ (forall g tid' estack ts,
        H5E_dispatch g (snd (register_thread_times (S n) tid lib)) tid' estack ts
        = H5E_dispatch g once tid' estack ts).
Proof.
  intros once. unfold once. rewrite register_thread_times_S, !register_thread_eq.
  cbn [snd]. repeat split.
  - now rewrite insert_insert_eq.
  - apply lookup_insert_eq.
  - intros tid' Hne. now apply lookup_insert_ne.
Qed.
End Registration.

(** ** The tables at work *)

(** A cache error with the bad-value minor code: the minor table alone
    would give [ValueError], the exact-match table makes it [IOError]. *)
Example exact_table_overrides_minor_table :
  _minor_table (HDF5 := sample_errors) !! 25 = Some ValueError
  /\ get_exc_msg (HDF5 := sample_errors) module_init [mkElement (mkH5E_error 8 25 "H5AC_protect" "x")]
     = Some (HybridClass CacheError IOError, "X (Object cache: Bad value)").
Proof. split; vm_compute; reflexivity. Qed.

(** A major code that the major table does not list, with a minor code that
    no table lists: the class is [H5Error] alone. *)
Example unknown_codes_give_H5Error :
  fst <$> get_exc_msg (HDF5 := sample_errors) module_init [mkElement (mkH5E_error 99 99 "f" "x")]
  = Some H5Error.
Proof. vm_compute. reflexivity. Qed.

(** The failure shown in the quick-start guide for a second
    [create_group("NewGroup")]. *)
Example quick_start_name_exists :
  get_exc_msg (HDF5 := sample_errors) module_init
    (ErrorStack_init [] (push_frames [] [frame_exists; frame_create]))
  = Some (HybridClass SymbolError ValueError,
          "Name already exists (Symbol table: Object already exists)").
Proof. vm_compute. reflexivity. Qed.

(** The same failure with the verbose flag set: the message is followed by
    the trace of both frames, the frame of the detection first. *)
Example quick_start_name_exists_verbose :
  snd <$> get_exc_msg (HDF5 := sample_errors) (verbose true module_init)
            (ErrorStack_init [] (push_frames [] [frame_exists; frame_create]))
  = Some ("Name already exists (Symbol table: Object already exists)" +:+ newline
          +:+ "HDF5 Error Stack:" +:+ newline
          +:+ "    0: " +:+ dquote +:+ "Name already exists" +:+ dquote +:+ " at H5G_insert" +:+ newline
          +:+ "        Symbol table :: Object already exists" +:+ newline
          +:+ "    1: " +:+ dquote +:+ "Unable to create group" +:+ dquote +:+ " at H5Gcreate" +:+ newline
          +:+ "        Symbol table :: Unable to initialize object").
Proof. vm_compute. reflexivity. Qed.

(** ** Names in a group, attributes of an object *)

Lemma resolve_Some (st : FileState) (id obj : nat) (o : Object) :
  identifiers st !! id = Some obj -> objects st !! obj = Some o ->
  resolve st id = Ok (obj, o).
Proof. intros Hid Hobj. unfold resolve. now rewrite Hid, Hobj. Qed.

Lemma create_object_existing (st : FileState) (parent pobj : nat) (g : Group)
    (name : string) (child : nat) (new : Object) :
  identifiers st !! parent = Some pobj ->
  objects st !! pobj = Some (ObjGroup g) ->
  children g !! name = Some child ->
  create_object parent name new st = (Err already_exists, st).
Proof.
  intros Hid Hgroup Hchild. unfold create_object.
  rewrite (resolve_Some st parent pobj (ObjGroup g) Hid Hgroup). now rewrite Hchild.
Qed.

(** C7.  When [name] is already a direct child of the group that [parent]
    refers to, [create_group] and [create_dataset] fail with the
    AlreadyExists error and hand back the state unchanged: the existing
    child and the children of the parent are as before. *)
Theorem create_existing_name_fails (st : FileState) (parent pobj : nat) (g : Group)
    (name : string) (child : nat) (type : Datatype) (space : Dataspace)
    (filter_list : list PipelineEntry) (chunk_shape : list nat) (fill : list Byte.byte)
    (Hid : identifiers st !! parent = Some pobj)
    (Hgroup : objects st !! pobj = Some (ObjGroup g))
    (Hchild : children g !! name = Some child) :
  let failed := Err (mkError Cat_Symbol (Some AlreadyExists)) in
  let st1 := snd (create_group parent name st) in
  let st2 := snd (create_dataset parent name type space filter_list chunk_shape fill st) in
  fst (create_group parent name st) = failed
  /\ fst (create_dataset parent name type space filter_list chunk_shape fill st) = failed
  /\ st1 = st /\ st2 = st
  /\ child_object parent name st1 = child_object parent name st
  /\ child_object parent name st2 = child_object parent name st
  /\ list_children parent st1 = list_children parent st
  /\ list_children parent st2 = list_children parent st.
Proof.
  intros failed st1 st2. unfold st1, st2, create_group, create_dataset.
  rewrite !(create_object_existing st parent pobj g name child _ Hid Hgroup Hchild).
  cbn [fst snd]. repeat split.
Qed.

(** The scenario of the quick-start guide: "NewGroup" is created twice. *)
Lemma create_existing_name_fails_witness :
  let st := file_with_group in
  let failed := Err (mkError Cat_Symbol (Some AlreadyExists)) in
  let st1 := snd (create_group root_identifier "NewGroup" st) in
  let st2 := snd (create_dataset root_identifier "NewGroup" int32
                    (mkDataspace [2%nat] [None]) [] [1%nat] [] st) in
  fst (create_group root_identifier "NewGroup" st) = failed
  /\ fst (create_dataset root_identifier "NewGroup" int32
            (mkDataspace [2%nat] [None]) [] [1%nat] [] st) = failed
  /\ st1 = st /\ st2 = st
  /\ child_object root_identifier "NewGroup" st1 = child_object root_identifier "NewGroup" st
  /\ child_object root_identifier "NewGroup" st2 = child_object root_identifier "NewGroup" st
  /\ list_children root_identifier st1 = list_children root_identifier st
  /\ list_children root_identifier st2 = list_children root_identifier st.
Proof.
  apply (create_existing_name_fails file_with_group root_identifier 0%nat
           (mkGroup {[ "NewGroup" := 1%nat ]} ∅) "NewGroup" 1%nat int32
           (mkDataspace [2%nat] [None]) [] [1%nat] []); reflexivity.
Defined.

Lemma object_attrs_set (o : Object) (attrs : gmap string AttrValue) :
  object_attrs (set_object_attrs o attrs) = attrs.
Proof. now destruct o. Qed.

(** C8.  Setting an attribute under a name that the object already has
    succeeds (so it does not fail with AlreadyExists) and replaces the
    stored value in place: the name now reads as the new value, every other
    attribute and the set of attribute names are as before. *)
Theorem attrs_set_existing_overwrites (st : FileState) (id obj : nat) (o : Object)
    (name : string) (old value : AttrValue)
    (Hid : identifiers st !! id = Some obj)
    (Hobj : objects st !! obj = Some o)
    (Hold : object_attrs o !! name = Some old) :
  let st' := snd (attrs_set id name value st) in
  fst (attrs_set id name value st) = Ok tt
  /\ fst (attrs_set id name value st) <> Err (mkError Cat_Symbol (Some AlreadyExists))
  /\ attrs_get id name st' = Ok value
  /\ (forall name', name' <> name -> attrs_get id name' st' = attrs_get id name' st)
  /\ exists o', objects st' !! obj = Some o'
       /\ object_attrs o' = <[name := value]> (object_attrs o)
       /\ dom (object_attrs o') = dom (object_attrs o).
Proof.
  intros st'. unfold st', attrs_set.
  rewrite (resolve_Some st id obj o Hid Hobj). cbn [fst snd].
  set (o' := set_object_attrs o (<[name := value]> (object_attrs o))).
  set (objs := <[obj := o']> (objects st)).
  assert (Hres : resolve (mkFileState objs (identifiers st) (next_object st)
                            (next_identifier st)) id = Ok (obj, o')).
  { apply resolve_Some; [exact Hid |]. apply lookup_insert_eq. }
  split; [reflexivity |]. split; [discriminate |]. split; [| split].
  - unfold attrs_get. rewrite Hres. unfold o'.
    now rewrite object_attrs_set, lookup_insert_eq.
  - intros name' Hne. unfold attrs_get.
    rewrite Hres, (resolve_Some st id obj o Hid Hobj). unfold o'.
    rewrite object_attrs_set, lookup_insert_ne by congruence. reflexivity.
  - exists o'. split; [apply lookup_insert_eq |]. unfold o'.
    rewrite object_attrs_set. split; [reflexivity |].
    apply dom_insert_lookup_L. eauto.
Qed.

(** The scenario of the quick-start guide: "Name" is assigned twice. *)
Lemma attrs_set_existing_overwrites_witness :
  let st := file_with_attribute in
  let value := text_value "New Name" in
  let o := ObjDataset (mkDataset int32
             (mkDataspace [100; 100]%nat [Some 100; Some 100]%nat) (Chunked [10; 10]%nat)
             [Byte.x00; Byte.x00; Byte.x00; Byte.x00] [] ∅
             {[ "Name" := text_value "My Dataset" ]}) in
  let st' := snd (attrs_set 1 "Name" value st) in
  fst (attrs_set 1 "Name" value st) = Ok tt
  /\ fst (attrs_set 1 "Name" value st) <> Err (mkError Cat_Symbol (Some AlreadyExists))
  /\ attrs_get 1 "Name" st' = Ok value
  /\ (forall name', name' <> "Name" -> attrs_get 1 name' st' = attrs_get 1 name' st)
  /\ exists o', objects st' !! 1%nat = Some o'
       /\ object_attrs o' = <["Name" := value]> (object_attrs o)
       /\ dom (object_attrs o') = dom (object_attrs o).
Proof.
  apply (attrs_set_existing_overwrites file_with_attribute 1 1
           (ObjDataset (mkDataset int32
              (mkDataspace [100; 100]%nat [Some 100; Some 100]%nat) (Chunked [10; 10]%nat)
              [Byte.x00; Byte.x00; Byte.x00; Byte.x00] [] ∅
              {[ "Name" := text_value "My Dataset" ]}))
           "Name" (text_value "My Dataset") (text_value "New Name")); reflexivity.
Defined.

(** * The compressors are reversible *)

(** Linear arithmetic with division and remainder by constants. *)
Ltac div_lia := zify; Z.to_euclidean_division_equations; lia.

(** ** Bits *)

Lemma put_lsb_length (n : nat) (v : N) : length (put_lsb n v) = n.
Proof. revert v. induction n as [|n IH]; intros v; cbn; [reflexivity | now rewrite IH]. Qed.

Lemma put_msb_length (n : nat) (v : N) : length (put_msb n v) = n.
Proof.
  revert v. induction n as [|n IH]; intros v; cbn; [reflexivity |].
  rewrite length_app, IH. cbn. lia.
Qed.

Lemma mod_pow2_succ (n : nat) (v : N) :
  (v mod 2 ^ N.of_nat (S n) = N.b2n (N.odd v) + 2 * (N.div2 v mod 2 ^ N.of_nat n))%N.
Proof.
  rewrite Nat2N.inj_succ, N.pow_succ_r', N.Div0.mod_mul_r.
  rewrite <- N.div2_div. f_equal.
  pose proof (N.div2_odd v). destruct (N.odd v); cbn [N.b2n] in *; div_lia.
Qed.

Lemma get_lsb_put_lsb (n : nat) (v : N) (rest : list bool) :
  get_lsb n (put_lsb n v ++ rest) = Some ((v mod 2 ^ N.of_nat n)%N, rest).
Proof.
  revert v. induction n as [|n IH]; intros v.
  - cbn [put_lsb get_lsb app]. now rewrite N.mod_1_r.
  - cbn [put_lsb get_lsb app]. rewrite IH. now rewrite mod_pow2_succ.
Qed.

Lemma get_lsb_put_lsb_small (n : nat) (v : N) (rest : list bool) :
  (v < 2 ^ N.of_nat n)%N ->
  get_lsb n (put_lsb n v ++ rest) = Some (v, rest).
Proof. intros Hv. now rewrite get_lsb_put_lsb, N.mod_small. Qed.

(** Reading one more bit, most significant first. *)
Lemma get_msb_succ (n : nat) (acc : N) (bits : list bool) :
  get_msb (S n) acc bits =
  match get_msb n acc bits with
  | Some (v, b :: rest) => Some ((2 * v + N.b2n b)%N, rest)
  | _ => None
  end.
Proof.
  revert acc bits. induction n as [|n IH]; intros acc bits.
  - cbn. now destruct bits.
  - destruct bits as [|b bits]; [reflexivity |].
    change (get_msb (S (S n)) acc (b :: bits))
      with (get_msb (S n) (2 * acc + N.b2n b)%N bits).
    rewrite IH. reflexivity.
Qed.

Lemma get_msb_put_msb (n : nat) (v acc : N) (rest : list bool) :
  get_msb n acc (put_msb n v ++ rest)
  = Some ((acc * 2 ^ N.of_nat n + v mod 2 ^ N.of_nat n)%N, rest).
Proof.
  revert v rest. induction n as [|n IH]; intros v rest.
  - cbn [put_msb get_msb app]. rewrite N.mod_1_r. f_equal. f_equal. cbn. lia.
  - rewrite get_msb_succ. cbn [put_msb]. rewrite <- app_assoc. rewrite IH.
    cbn [app]. f_equal. f_equal.
    rewrite mod_pow2_succ, Nat2N.inj_succ, N.pow_succ_r'. lia.
Qed.

Lemma get_msb_put_msb_small (n : nat) (v : N) (rest : list bool) :
  (v < 2 ^ N.of_nat n)%N ->
  get_msb n 0 (put_msb n v ++ rest) = Some (v, rest).
Proof. intros Hv. rewrite get_msb_put_msb, N.mod_small by exact Hv. reflexivity. Qed.

Lemma get_unary_put_unary (q : nat) (rest : list bool) :
  get_unary (put_unary q ++ rest) = Some (q, rest).
Proof.
  unfold put_unary. induction q as [|q IH]; [reflexivity |].
  cbn [replicate app get_unary]. cbn [replicate app] in IH. now rewrite IH.
Qed.

(** ** Bytes *)

Lemma bits_of_byte_length (b : Byte.byte) : length (bits_of_byte b) = 8%nat.
Proof. apply put_lsb_length. Qed.

Lemma bits_of_bytes_cons (b : Byte.byte) (buffer : list Byte.byte) :
  bits_of_bytes (b :: buffer) = bits_of_byte b ++ bits_of_bytes buffer.
Proof. reflexivity. Qed.

Lemma bits_of_bytes_length (buffer : list Byte.byte) :
  length (bits_of_bytes buffer) = (8 * length buffer)%nat.
Proof.
  induction buffer as [|b buffer IH]; [reflexivity |].
  rewrite bits_of_bytes_cons, length_app, bits_of_byte_length, IH. cbn [length]. lia.
Qed.

(** A byte made of eight bits gives them back. *)
Lemma bits_of_byte_of_bits (b0 b1 b2 b3 b4 b5 b6 b7 : bool) :
  bits_of_byte (byte_of_bits [b0; b1; b2; b3; b4; b5; b6; b7])
  = [b0; b1; b2; b3; b4; b5; b6; b7].
Proof.
  destruct b0, b1, b2, b3, b4, b5, b6, b7; vm_compute; reflexivity.
Qed.

(** A byte made of less than eight bits gives them back, then zeros. *)
Lemma bits_of_byte_of_bits_short (last : list bool) :
  (length last < 8)%nat ->
  exists padding, bits_of_byte (byte_of_bits last) = last ++ padding.
Proof.
  intros Hlen. exists (replicate (8 - length last) false).
  do 8 (destruct last as [|? last];
        [repeat match goal with b : bool |- _ => destruct b end; vm_compute; reflexivity |]).
  cbn in Hlen. lia.
Qed.

(** Packing bits into bytes keeps them, and may add bits after them. *)
Lemma bits_of_bytes_of_bits (bits : list bool) :
  exists padding, bits_of_bytes (bytes_of_bits bits) = bits ++ padding.
Proof.
  remember (length bits) as n eqn:Hn. revert bits Hn.
  induction n as [n IH] using lt_wf_ind. intros bits Hn.
  destruct bits as [|b0 [|b1 [|b2 [|b3 [|b4 [|b5 [|b6 [|b7 rest]]]]]]]].
  1: { exists []. reflexivity. }
  8: { destruct (IH (length rest)) with (bits := rest) as [padding Hpad];
         [subst n; cbn; lia | reflexivity |].
       exists padding.
       change (bytes_of_bits (b0 :: b1 :: b2 :: b3 :: b4 :: b5 :: b6 :: b7 :: rest))
         with (byte_of_bits [b0; b1; b2; b3; b4; b5; b6; b7] :: bytes_of_bits rest).
       rewrite bits_of_bytes_cons, bits_of_byte_of_bits, Hpad. reflexivity. }
  all: match goal with
       | |- exists padding, bits_of_bytes (bytes_of_bits ?l) = _ =>
           destruct (bits_of_byte_of_bits_short l) as [padding Hpad]; [cbn; lia |];
           exists padding;
           change (bytes_of_bits l) with [byte_of_bits l];
           change (bits_of_bytes [byte_of_bits l]) with (bits_of_byte (byte_of_bits l) ++ []);
           rewrite app_nil_r; exact Hpad
       end.
Qed.

Lemma get_lsb_byte (b : Byte.byte) (rest : list bool) :
  get_lsb 8 (bits_of_byte b ++ rest) = Some (Byte.to_N b, rest).
Proof.
  unfold bits_of_byte. apply get_lsb_put_lsb_small.
  pose proof (Byte.to_N_bounded b). cbn. lia.
Qed.

Lemma get_bytes_bits_of_bytes (data : list Byte.byte) (rest : list bool) :
  get_bytes (length data) (bits_of_bytes data ++ rest) = Some (data, rest).
Proof.
  induction data as [|b data IH]; [reflexivity |].
  cbn [length get_bytes]. rewrite bits_of_bytes_cons, <- app_assoc, get_lsb_byte.
  now rewrite Byte.of_to_N, IH.
Qed.

(** ** Matches *)

Lemma match_length_le (max dist : nat) (rout todo : list Byte.byte) :
  (match_length max dist rout todo <= max)%nat.
Proof.
  revert rout todo. induction max as [|max IH]; intros rout todo; [cbn; lia |].
  destruct todo as [|b todo]; [cbn; lia |]. cbn [match_length].
  destruct dist as [|d]; [lia |].
  destruct (rout !! (S d - 1)%nat) as [b'|]; [| lia].
  case_decide; [| lia]. specialize (IH (b :: rout) todo). lia.
Qed.

(** Copying as many bytes as match gives the bytes to come. *)
Lemma copy_match_length (max dist : nat) (rout todo : list Byte.byte) :
  copy_match (match_length max dist rout todo) dist rout
  = Some (rev (take (match_length max dist rout todo) todo) ++ rout).
Proof.
  revert rout todo. induction max as [|max IH]; intros rout todo; [reflexivity |].
  destruct todo as [|b todo]; [reflexivity |]. cbn [match_length].
  destruct dist as [|d]; [reflexivity |].
  destruct (rout !! (S d - 1)%nat) as [b'|] eqn:Hb; [| reflexivity].
  case_decide as Heq; [| reflexivity]. subst b'.
  cbn [copy_match]. rewrite Hb, IH. cbn [take rev]. now rewrite <- app_assoc.
Qed.

Lemma match_length_take (max dist : nat) (rout todo : list Byte.byte) :
  (match_length max dist rout todo <= length todo)%nat.
Proof.
  revert rout todo. induction max as [|max IH]; intros rout todo; [cbn; lia |].
  destruct todo as [|b todo]; [cbn; lia |]. cbn [match_length length].
  destruct dist as [|d]; [lia |].
  destruct (rout !! (S d - 1)%nat) as [b'|]; [| lia].
  case_decide; [| lia]. specialize (IH (b :: rout) todo). lia.
Qed.

Lemma longest_match_spec (max_len bound : nat) (rout todo : list Byte.byte) (len dist : nat) :
  longest_match max_len bound rout todo = (len, dist) ->
  len = 0%nat
  \/ ((1 <= dist <= bound)%nat /\ len = match_length max_len dist rout todo).
Proof.
  revert len dist. induction bound as [|bound IH]; intros len dist.
  - cbn. intros [= <- <-]. now left.
  - cbn [longest_match].
    destruct (longest_match max_len bound rout todo) as [len0 d0].
    destruct (Nat.ltb_spec len0 (match_length max_len (S bound) rout todo)) as [Hlt|Hge].
    + intros [= <- <-]. right. split; [lia | reflexivity].
    + intros [= <- <-]. destruct (IH len0 d0 eq_refl) as [->|[Hd Hlen]]; [now left |].
      right. split; [lia | exact Hlen].
Qed.

(** The greedy parse stands for the text, and the fixed code can write
    it. *)
Lemma lz77_spec (max_len window fuel : nat) (rout todo : list Byte.byte) :
  (max_len <= max_match)%nat -> (window <= window_size)%nat ->
  (length todo <= fuel)%nat ->
  replay (lz77 max_len window fuel rout todo) rout = Some (rev todo ++ rout)
  /\ Forall valid_token (lz77 max_len window fuel rout todo).
Proof.
  intros Hmax_len Hwindow.
  revert rout todo. induction fuel as [|fuel IH]; intros rout todo Hfuel.
  - destruct todo; [split; [reflexivity | constructor] | cbn in Hfuel; lia].
  - destruct todo as [|b todo]; [split; [reflexivity | constructor] |].
    cbn [lz77].
    destruct (longest_match max_len (Nat.min (length rout) window) rout (b :: todo))
      as [len dist] eqn:Hlongest.
    apply longest_match_spec in Hlongest.
    destruct (Nat.leb_spec min_match len) as [Hmin|Hmin].
    + destruct Hlongest as [->|[Hdist Hlen]]; [unfold min_match in Hmin; lia |].
      pose proof (match_length_le max_len dist rout (b :: todo)) as Hmax.
      pose proof (match_length_take max_len dist rout (b :: todo)) as Htake.
      pose proof (copy_match_length max_len dist rout (b :: todo)) as Hcopy.
      rewrite <- Hlen in Hmax, Htake, Hcopy.
      destruct (IH (rev (take len (b :: todo)) ++ rout) (drop len (b :: todo)))
        as [Hreplay Hvalid].
      { rewrite length_drop. unfold min_match in Hmin. cbn [length] in *. lia. }
      split.
      * cbn [replay]. rewrite Hcopy, Hreplay. f_equal.
        rewrite app_assoc, <- rev_app_distr, take_drop. reflexivity.
      * constructor; [| exact Hvalid]. cbn [valid_token]. lia.
    + destruct (IH (b :: rout) todo) as [Hreplay Hvalid]; [cbn [length] in Hfuel; lia |].
      split.
      * cbn [replay]. rewrite Hreplay. cbn [rev]. now rewrite <- app_assoc.
      * constructor; [exact I | exact Hvalid].
Qed.

(** ** The codes *)

Lemma find_code_spec (table : list Code) (limit : N) (idx : nat) (v : N) (first : Code)
    (rest : list Code) :
  covers table limit = true -> table = first :: rest ->
  (code_base first <= v < limit)%N ->
  exists i code,
    find_code table idx v = Some ((idx + i)%nat, code)
    /\ table !! i = Some code
    /\ (code_base code <= v < code_base code + 2 ^ N.of_nat (code_extra code))%N.
Proof.
  revert idx first rest. induction table as [|c table IH]; intros idx first rest Hcovers Htable Hv.
  - discriminate.
  - injection Htable as <- <-. cbn [find_code].
    destruct (N.leb_spec (code_base c) v) as [_|Hbad]; [| lia].
    cbn [covers] in Hcovers. destruct table as [|next table'].
    + apply N.leb_le in Hcovers. exists 0%nat, c. cbn [find_code].
      rewrite Nat.add_0_r. split; [reflexivity |]. split; [reflexivity | lia].
    + apply andb_true_iff in Hcovers as [Hnext Hcovers]. apply N.leb_le in Hnext.
      destruct (N.le_gt_cases (code_base next) v) as [Hle|Hgt].
      * destruct (IH (S idx) next table' Hcovers eq_refl) as (i & code & Hfind & Hlook & Hcode);
          [lia |].
        exists (S i), code. rewrite Hfind. split; [f_equal; f_equal; lia |].
        split; [exact Hlook | exact Hcode].
      * exists 0%nat, c. cbn [find_code].
        destruct (N.leb_spec (code_base next) v) as [Hbad|_]; [lia |].
        rewrite Nat.add_0_r. split; [reflexivity |]. split; [reflexivity | lia].
Qed.

Lemma get_msb_one (acc : N) (b : bool) (rest : list bool) :
  get_msb 1 acc (b :: rest) = Some ((2 * acc + N.b2n b)%N, rest).
Proof. reflexivity. Qed.

Lemma put_msb_succ (n : nat) (v : N) :
  put_msb (S n) v = put_msb n (N.div2 v) ++ [N.odd v].
Proof. reflexivity. Qed.

Lemma double_div2 (v : N) : (2 * N.div2 v + N.b2n (N.odd v))%N = v.
Proof. symmetry. apply N.div2_odd. Qed.

Lemma get_symbol_put_symbol (s : N) (rest : list bool) :
  (s < 288)%N -> get_symbol (put_symbol s ++ rest) = Some (s, rest).
Proof.
  intros Hs. unfold put_symbol, get_symbol.
  destruct (N.ltb_spec s 144) as [H1|H1]; [| destruct (N.ltb_spec s 256) as [H2|H2];
    [| destruct (N.ltb_spec s 280) as [H3|H3]]].
  - rewrite put_msb_succ, <- app_assoc.
    rewrite get_msb_put_msb_small by (cbn; div_lia).
    destruct (N.ltb_spec (N.div2 (48 + s)) 24) as [Hbad|_]; [div_lia |].
    cbn [app]. rewrite get_msb_one, double_div2.
    destruct (N.ltb_spec (48 + s) 192) as [_|Hbad]; [| lia].
    f_equal. f_equal. lia.
  - rewrite (put_msb_succ 8), (put_msb_succ 7), <- !app_assoc.
    rewrite get_msb_put_msb_small by (cbn; div_lia).
    destruct (N.ltb_spec (N.div2 (N.div2 (400 + (s - 144)))) 24) as [Hbad|_]; [div_lia |].
    cbn [app]. rewrite get_msb_one, double_div2.
    destruct (N.ltb_spec (N.div2 (400 + (s - 144))) 192) as [Hbad|_]; [div_lia |].
    destruct (N.ltb_spec (N.div2 (400 + (s - 144))) 200) as [Hbad|_]; [div_lia |].
    rewrite get_msb_one, double_div2. f_equal. f_equal. lia.
  - rewrite get_msb_put_msb_small by (cbn; lia).
    destruct (N.ltb_spec (s - 256) 24) as [_|Hbad]; [| lia].
    f_equal. f_equal. lia.
  - rewrite put_msb_succ, <- app_assoc.
    rewrite get_msb_put_msb_small by (cbn; div_lia).
    destruct (N.ltb_spec (N.div2 (192 + (s - 280))) 24) as [Hbad|_]; [div_lia |].
    cbn [app]. rewrite get_msb_one, double_div2.
    destruct (N.ltb_spec (192 + (s - 280)) 192) as [Hbad|_]; [lia |].
    destruct (N.ltb_spec (192 + (s - 280)) 200) as [_|Hbad]; [| lia].
    f_equal. f_equal. lia.
Qed.

Lemma put_symbol_length (s : N) : (7 <= length (put_symbol s))%nat.
Proof.
  unfold put_symbol.
  repeat match goal with |- context [if ?c then _ else _] => destruct c end;
    rewrite put_msb_length; lia.
Qed.

Lemma length_table_covers : covers length_table 259 = true.
Proof. vm_compute. reflexivity. Qed.

Lemma dist_table_covers : covers dist_table 32769 = true.
Proof. vm_compute. reflexivity. Qed.

(** ** Blocks with the fixed code *)

Lemma inflate_fixed_literal (fuel : nat) (rout : list Byte.byte) (b : Byte.byte)
    (rest : list bool) :
  inflate_fixed (S fuel) rout (put_token (Literal b) ++ rest)
  = inflate_fixed fuel (b :: rout) rest.
Proof.
  pose proof (Byte.to_N_bounded b) as Hb.
  cbn [put_token inflate_fixed]. rewrite get_symbol_put_symbol by lia.
  destruct (N.ltb_spec (Byte.to_N b) 256) as [_|Hbad]; [| lia].
  now rewrite Byte.of_to_N.
Qed.

Lemma inflate_fixed_match (fuel : nat) (rout : list Byte.byte) (len dist : nat)
    (rest : list bool) :
  valid_token (Match len dist) ->
  (0 < length (put_token (Match len dist)))%nat
  /\ inflate_fixed (S fuel) rout (put_token (Match len dist) ++ rest)
     = match copy_match len dist rout with
       | Some rout' => inflate_fixed fuel rout' rest
       | None => None
       end.
Proof.
  intros [Hlen Hdist]. unfold min_match, max_match in Hlen. unfold window_size in Hdist.
  destruct (find_code_spec length_table 259 0 (N.of_nat len) (mkCode 3 0) (tail length_table)
              length_table_covers eq_refl) as (li & lcode & Hlfind & Hllook & Hlcode);
    [cbn [code_base]; lia |].
  destruct (find_code_spec dist_table 32769 0 (N.of_nat dist) (mkCode 1 0) (tail dist_table)
              dist_table_covers eq_refl) as (di & dcode & Hdfind & Hdlook & Hdcode);
    [cbn [code_base]; lia |].
  cbn [Nat.add] in Hlfind, Hdfind.
  assert (Hli : (li < 29)%nat) by (apply lookup_lt_Some in Hllook; exact Hllook).
  assert (Hdi : (di < 30)%nat) by (apply lookup_lt_Some in Hdlook; exact Hdlook).
  cbn [put_token]. rewrite Hlfind, Hdfind. split.
  { rewrite length_app. pose proof (put_symbol_length (257 + N.of_nat li)). lia. }
  cbn [inflate_fixed]. rewrite <- !app_assoc.
  rewrite get_symbol_put_symbol by lia.
  destruct (N.ltb_spec (257 + N.of_nat li) 256) as [Hbad|_]; [lia |].
  destruct (N.eqb_spec (257 + N.of_nat li) 256) as [Hbad|_]; [lia |].
  replace (N.to_nat (257 + N.of_nat li - 257)) with li by lia.
  rewrite Hllook.
  rewrite get_lsb_put_lsb_small by lia.
  rewrite get_msb_put_msb_small by (cbn; lia).
  rewrite Nat2N.id, Hdlook.
  rewrite get_lsb_put_lsb_small by lia.
  replace (N.to_nat (code_base lcode + (N.of_nat len - code_base lcode))) with len by lia.
  replace (N.to_nat (code_base dcode + (N.of_nat dist - code_base dcode))) with dist by lia.
  reflexivity.
Qed.

Lemma inflate_fixed_tokens (tokens : list token) (fuel : nat) (rout rout' : list Byte.byte)
    (rest : list bool) :
  Forall valid_token tokens ->
  replay tokens rout = Some rout' ->
  (length tokens < fuel)%nat ->
  inflate_fixed fuel rout ((tokens ≫= put_token) ++ put_symbol END_OF_BLOCK ++ rest)
  = Some (rout', rest).
Proof.
  intros Hvalid. revert fuel rout.
  induction Hvalid as [|t tokens Ht _ IH]; intros fuel rout Hreplay Hfuel.
  - destruct fuel as [|fuel]; [cbn in Hfuel; lia |].
    cbn in Hreplay. injection Hreplay as <-.
    change (([] : list token) ≫= put_token) with (@nil bool). cbn [app inflate_fixed].
    rewrite get_symbol_put_symbol by (unfold END_OF_BLOCK; lia).
    reflexivity.
  - destruct fuel as [|fuel]; [cbn in Hfuel; lia |]. cbn [length] in Hfuel.
    change ((t :: tokens) ≫= put_token) with (put_token t ++ (tokens ≫= put_token)).
    rewrite <- app_assoc.
    destruct t as [b|len dist].
    + rewrite inflate_fixed_literal. apply IH; [exact Hreplay | lia].
    + destruct (inflate_fixed_match fuel rout len dist
                  ((tokens ≫= put_token) ++ put_symbol END_OF_BLOCK ++ rest) Ht) as [_ ->].
      cbn [replay] in Hreplay.
      destruct (copy_match len dist rout) as [rout1|]; [| discriminate].
      apply IH; [exact Hreplay | lia].
Qed.

Lemma put_tokens_length (tokens : list token) :
  Forall valid_token tokens -> (length tokens <= length (tokens ≫= put_token))%nat.
Proof.
  induction 1 as [|t tokens Ht _ IH]; [cbn; lia |].
  change ((t :: tokens) ≫= put_token) with (put_token t ++ (tokens ≫= put_token)).
  rewrite length_app. cbn [length].
  assert (0 < length (put_token t))%nat; [| lia].
  destruct t as [b|len dist].
  - pose proof (put_symbol_length (Byte.to_N b)). cbn [put_token]. lia.
  - apply (inflate_fixed_match 0 [] len dist [] Ht).
Qed.

Lemma inflate_fixed_block (buffer : list Byte.byte) (padding : list bool) (fuel : nat) :
  inflate_blocks (S fuel) []
    (fixed_block (lz77 max_match window_size (length buffer) [] buffer) ++ padding)
  = Some buffer.
Proof.
  destruct (lz77_spec max_match window_size (length buffer) [] buffer
              (Nat.le_refl _) (Nat.le_refl _) (Nat.le_refl _)) as [Hreplay Hvalid].
  unfold fixed_block. cbn [app inflate_blocks]. rewrite <- app_assoc.
  rewrite (inflate_fixed_tokens _ _ [] (rev buffer ++ []) padding Hvalid Hreplay).
  - rewrite app_nil_r, rev_involutive. reflexivity.
  - rewrite !length_app. pose proof (put_tokens_length _ Hvalid).
    pose proof (put_symbol_length END_OF_BLOCK). lia.
Qed.

(** ** Stored blocks *)

Lemma stored_block_length (final : bool) (data : list Byte.byte) :
  length (stored_block final data) = (40 + 8 * length data)%nat.
Proof.
  unfold stored_block. rewrite !length_app, !put_lsb_length, bits_of_bytes_length.
  cbn [length]. lia.
Qed.

Lemma stored_blocks_length (block_max fuel : nat) (data : list Byte.byte) :
  (length (stored_blocks block_max fuel data) mod 8 = 0)%nat.
Proof.
  revert data. induction fuel as [|fuel IH]; intros data.
  - reflexivity.
  - cbn [stored_blocks]. destruct (length data <=? block_max)%nat.
    + rewrite stored_block_length. div_lia.
    + rewrite length_app, stored_block_length. specialize (IH (drop block_max data)).
      div_lia.
Qed.

(** A stored block, after its first three bits. *)
Lemma inflate_stored_block (rout data : list Byte.byte) (tail : list bool) :
  (N.of_nat (length data) <= 65535)%N -> (length tail mod 8 = 0)%nat ->
  inflate_stored rout
    ([false; false; false; false; false]
       ++ put_lsb 16 (N.of_nat (length data))
       ++ put_lsb 16 (65535 - N.of_nat (length data))
       ++ bits_of_bytes data ++ tail)
  = Some (rev data ++ rout, tail).
Proof.
  intros Hlen Htail. unfold inflate_stored.
  assert (Hmod : (length ([false; false; false; false; false]
                    ++ put_lsb 16 (N.of_nat (length data))
                    ++ put_lsb 16 (65535 - N.of_nat (length data))
                    ++ bits_of_bytes data ++ tail) mod 8 = 5)%nat).
  { rewrite !length_app, !put_lsb_length, bits_of_bytes_length. cbn [length]. div_lia. }
  rewrite Hmod. cbn [app drop]. rewrite drop_0.
  rewrite get_lsb_put_lsb_small by (cbn; lia).
  rewrite get_lsb_put_lsb_small by (cbn; lia).
  destruct (N.eqb_spec (N.of_nat (length data) + (65535 - N.of_nat (length data))) 65535)
    as [_|Hbad]; [| lia].
  now rewrite Nat2N.id, get_bytes_bits_of_bytes.
Qed.

Lemma stored_block_app (final : bool) (data : list Byte.byte) (tail : list bool) :
  stored_block final data ++ tail
  = final :: false :: false ::
      ([false; false; false; false; false]
         ++ put_lsb 16 (N.of_nat (length data))
         ++ put_lsb 16 (65535 - N.of_nat (length data))
         ++ bits_of_bytes data ++ tail).
Proof. unfold stored_block. rewrite <- !app_assoc. reflexivity. Qed.

Lemma stored_blocks_longer (block_max fuel : nat) (data : list Byte.byte) :
  (0 < block_max)%nat -> (length data <= fuel)%nat ->
  (length data < length (stored_blocks block_max fuel data))%nat.
Proof.
  intros Hpos. revert data. induction fuel as [|fuel IH]; intros data Hfuel.
  - destruct data; [cbn; lia | cbn in Hfuel; lia].
  - cbn [stored_blocks]. destruct (Nat.leb_spec (length data) block_max) as [Hle|Hgt].
    + rewrite stored_block_length. lia.
    + rewrite length_app, stored_block_length, length_take.
      specialize (IH (drop block_max data)). rewrite length_drop in IH. lia.
Qed.

Lemma inflate_stored_blocks (block_max fuel : nat) (data rout : list Byte.byte)
    (tail : list bool) (fuel' : nat) :
  (0 < block_max)%nat -> (N.of_nat block_max <= 65535)%N ->
  (length data <= fuel)%nat -> (length tail mod 8 = 0)%nat -> (length data < fuel')%nat ->
  inflate_blocks fuel' rout (stored_blocks block_max fuel data ++ tail)
  = Some (rev rout ++ data).
Proof.
  intros Hpos Hbound.
  revert data rout fuel'. induction fuel as [|fuel IH]; intros data rout fuel' Hfuel Htail Hfuel'.
  - destruct data; [| cbn in Hfuel; lia]. destruct fuel' as [|fuel']; [lia |].
    cbn [stored_blocks]. rewrite stored_block_app. cbn [inflate_blocks].
    rewrite (inflate_stored_block rout [] tail) by (cbn; lia || exact Htail).
    cbn [rev app]. now rewrite app_nil_r.
  - destruct fuel' as [|fuel']; [lia |]. cbn [stored_blocks].
    destruct (Nat.leb_spec (length data) block_max) as [Hle|Hgt].
    + rewrite stored_block_app. cbn [inflate_blocks].
      rewrite (inflate_stored_block rout data tail) by (lia || exact Htail).
      now rewrite rev_app_distr, rev_involutive.
    + rewrite <- app_assoc, stored_block_app. cbn [inflate_blocks].
      assert (Htake : length (take block_max data) = block_max)
        by (rewrite length_take; lia).
      rewrite inflate_stored_block.
      * rewrite IH; [| rewrite length_drop; lia | exact Htail | rewrite length_drop; lia].
        rewrite rev_app_distr, rev_involutive, <- app_assoc, take_drop. reflexivity.
      * lia.
      * rewrite length_app.
        pose proof (stored_blocks_length block_max fuel (drop block_max data)).
        div_lia.
Qed.

(** ** The compressor *)

Lemma deflate_inflate (options : list nat) (buffer : list Byte.byte) :
  inflate (deflate options buffer) = Some buffer.
Proof.
  unfold inflate, deflate.
  destruct (deflate_level options) as [|level].
  - destruct (bits_of_bytes_of_bits (stored_blocks STORED_MAX (length buffer) buffer))
      as [padding Hpad].
    rewrite Hpad.
    pose proof (stored_blocks_length STORED_MAX (length buffer) buffer) as Hblocks.
    assert (Hmod : (length padding mod 8 = 0)%nat).
    { pose proof (bits_of_bytes_length
                    (bytes_of_bits (stored_blocks STORED_MAX (length buffer) buffer))) as Hlen.
      rewrite Hpad, length_app in Hlen. div_lia. }
    rewrite (inflate_stored_blocks STORED_MAX (length buffer) buffer [] padding);
      [reflexivity | unfold STORED_MAX; lia | unfold STORED_MAX; lia | lia | exact Hmod |].
    rewrite length_app. apply Nat.lt_lt_add_r.
    apply stored_blocks_longer; [unfold STORED_MAX |]; lia.
  - destruct (bits_of_bytes_of_bits
                (fixed_block (lz77 max_match window_size (length buffer) [] buffer)))
      as [padding Hpad].
    rewrite Hpad.
    destruct (length (fixed_block (lz77 max_match window_size (length buffer) [] buffer)
                      ++ padding)) as [|fuel] eqn:Hlen.
    + unfold fixed_block in Hlen. cbn in Hlen. discriminate.
    + apply inflate_fixed_block.
Qed.

(** ** The SZIP-style compressor *)

Lemma add_sub_mod_256 (p x : N) :
  (p < 256)%N -> (x < 256)%N -> ((p + (x + 256 - p) mod 256) mod 256 = x)%N.
Proof.
  intros Hp Hx. destruct (N.le_gt_cases p x) as [Hle|Hgt].
  - replace ((x + 256 - p) mod 256)%N with (x - p)%N.
    + replace (p + (x - p))%N with x by lia. now apply N.mod_small.
    + apply (N.mod_unique _ _ 1); lia.
  - replace ((x + 256 - p) mod 256)%N with (x + 256 - p)%N
      by (symmetry; apply N.mod_small; lia).
    symmetry. apply (N.mod_unique _ _ 1); lia.
Qed.

Lemma nn_unmap_map (prev x : N) : (x < 256)%N -> nn_unmap prev (nn_map prev x) = x.
Proof.
  intros Hx. unfold nn_unmap, nn_map.
  assert (Hback : ((prev + (x + 256 - prev mod 256) mod 256) mod 256 = x)%N).
  { rewrite <- N.Div0.add_mod_idemp_l.
    apply add_sub_mod_256; [apply N.mod_lt; lia | exact Hx]. }
  assert (Hr : ((x + 256 - prev mod 256) mod 256 < 256)%N) by (apply N.mod_lt; lia).
  generalize dependent ((x + 256 - prev mod 256) mod 256)%N. intros r Hback Hr.
  destruct (N.ltb_spec r 128) as [Hlow|Hhigh].
  - destruct (N.eqb_spec ((2 * r) mod 2) 0) as [_|Hbad]; [| div_lia].
    replace (2 * r / 2)%N with r by div_lia. exact Hback.
  - destruct (N.eqb_spec ((2 * (255 - r) + 1) mod 2) 0) as [Hbad|_]; [div_lia |].
    replace (255 - (2 * (255 - r) + 1) / 2)%N with r by div_lia. exact Hback.
Qed.

Lemma nn_decode_encode (prev : N) (samples : list N) :
  Forall (fun x => (x < 256)%N) samples ->
  nn_decode prev (nn_encode prev samples) = samples.
Proof.
  intros Hall. revert prev. induction Hall as [|x samples Hx _ IH]; intros prev; [reflexivity |].
  cbn [nn_encode nn_decode]. rewrite nn_unmap_map by exact Hx. now rewrite IH.
Qed.

Lemma choose_option_le (block : list N) : (choose_option block <= SZIP_RAW)%nat.
Proof.
  unfold choose_option.
  assert (Hfold : forall ids best,
            (best <= SZIP_RAW)%nat -> Forall (fun id => (id <= SZIP_RAW)%nat) ids ->
            (foldl (fun best id =>
                      if (option_cost id block <? option_cost best block)%N then id else best)
                   best ids <= SZIP_RAW)%nat).
  { induction ids as [|id ids IH]; intros best Hbest Hids; [exact Hbest |].
    apply Forall_cons in Hids as [Hid Hids]. cbn [foldl].
    apply IH; [| exact Hids].
    destruct (option_cost id block <? option_cost best block)%N; assumption. }
  apply Hfold; [lia |]. apply Forall_forall. intros id Hid.
  apply elem_of_seq in Hid. lia.
Qed.

Lemma get_sample_put_sample (id : nat) (v : N) (rest : list bool) :
  (v < 256)%N ->
  get_sample id (put_sample id v ++ rest) = Some (v, rest).
Proof.
  intros Hv. unfold get_sample, put_sample.
  destruct (id =? SZIP_RAW)%nat.
  - apply get_lsb_put_lsb_small. cbn. lia.
  - rewrite <- app_assoc, get_unary_put_unary, get_lsb_put_lsb.
    f_equal. f_equal. rewrite N2Nat.id.
    rewrite (N.Div0.div_mod v (2 ^ N.of_nat id)) at 3. lia.
Qed.

Lemma get_samples_put_samples (id : nat) (block : list N) (rest : list bool) :
  Forall (fun x => (x < 256)%N) block ->
  get_samples (length block) id ((block ≫= put_sample id) ++ rest) = Some (block, rest).
Proof.
  induction 1 as [|v block Hv _ IH]; [reflexivity |].
  change ((v :: block) ≫= put_sample id)
    with (put_sample id v ++ (block ≫= put_sample id)).
  cbn [length get_samples]. rewrite <- app_assoc, get_sample_put_sample by exact Hv.
  now rewrite IH.
Qed.

Lemma get_blocks_put_blocks (size fuel : nat) (samples : list N) (rest : list bool)
    (fuel' : nat) :
  (0 < size)%nat -> (length samples <= fuel)%nat -> (length samples <= fuel')%nat ->
  Forall (fun x => (x < 256)%N) samples ->
  get_blocks fuel' size (length samples) (put_blocks fuel size samples ++ rest) = Some samples.
Proof.
  intros Hsize. revert samples fuel'.
  induction fuel as [|fuel IH]; intros samples fuel' Hfuel Hfuel' Hall.
  - destruct samples; [now destruct fuel' | cbn in Hfuel; lia].
  - destruct samples as [|v samples]; [now destruct fuel' |].
    destruct fuel' as [|fuel']; [cbn in Hfuel'; lia |].
    set (all := v :: samples) in *.
    assert (Hlen : length all = S (length samples)) by reflexivity.
    change (put_blocks (S fuel) size all)
      with (put_block (take size all) ++ put_blocks fuel size (drop size all)).
    rewrite Hlen. cbn [get_blocks]. rewrite <- Hlen.
    unfold put_block. rewrite <- !app_assoc.
    pose proof (choose_option_le (take size all)) as Hid. unfold SZIP_RAW in Hid.
    rewrite get_lsb_put_lsb_small by (change (2 ^ N.of_nat 3)%N with 8%N; lia).
    rewrite Nat2N.id.
    assert (Htake : length (take size all) = Nat.min size (length all))
      by apply length_take.
    rewrite <- Htake.
    rewrite get_samples_put_samples by (apply Forall_take; exact Hall).
    rewrite Htake.
    replace (length all - Nat.min size (length all))%nat with (length (drop size all))
      by (rewrite length_drop; lia).
    rewrite IH.
    + now rewrite take_drop.
    + rewrite length_drop. lia.
    + rewrite length_drop. lia.
    + apply Forall_drop. exact Hall.
Qed.

Lemma size_nat_size (p : positive) : Pos.size_nat p = Pos.to_nat (Pos.size p).
Proof.
  induction p as [p IH|p IH|]; cbn [Pos.size_nat Pos.size];
    rewrite ?Pos2Nat.inj_succ, ?IH; reflexivity.
Qed.

Lemma size_nat_gt (n : N) : (n < 2 ^ N.of_nat (N.size_nat n))%N.
Proof.
  destruct n as [|p]; [cbn; lia |].
  cbn [N.size_nat]. rewrite size_nat_size, positive_nat_N.
  apply (N.size_gt (N.pos p)).
Qed.

Lemma get_count_put_count (n : N) (rest : list bool) :
  get_count (put_count n ++ rest) = Some (n, rest).
Proof.
  unfold get_count, put_count. rewrite <- app_assoc, get_unary_put_unary.
  apply get_lsb_put_lsb_small, size_nat_gt.
Qed.

Lemma to_N_small (buffer : list Byte.byte) :
  Forall (fun x => (x < 256)%N) (Byte.to_N <$> buffer).
Proof.
  apply Forall_fmap, Forall_forall. intros b _. cbn.
  pose proof (Byte.to_N_bounded b). lia.
Qed.

Lemma nn_encode_small (prev : N) (samples : list N) :
  Forall (fun x => (x < 256)%N) (nn_encode prev samples).
Proof.
  revert prev. induction samples as [|x samples IH]; intros prev; [constructor |].
  cbn [nn_encode]. constructor; [| apply IH].
  unfold nn_map.
  assert (Hr : ((x + 256 - prev mod 256) mod 256 < 256)%N) by (apply N.mod_lt; lia).
  generalize dependent ((x + 256 - prev mod 256) mod 256)%N. intros r Hr.
  destruct (N.ltb_spec r 128); lia.
Qed.

Lemma nn_encode_length (prev : N) (samples : list N) :
  length (nn_encode prev samples) = length samples.
Proof.
  revert prev. induction samples as [|x samples IH]; intros prev; [reflexivity |].
  cbn [nn_encode length]. now rewrite IH.
Qed.

Lemma szip_pixels_per_block_pos (options : list nat) : (0 < szip_pixels_per_block options)%nat.
Proof.
  unfold szip_pixels_per_block. destruct options as [|mask [|pixels options]]; lia.
Qed.

Lemma szip_compress_decompress (options : list nat) (buffer : list Byte.byte) :
  szip_decompress options (szip_compress options buffer) = Some buffer.
Proof.
  unfold szip_decompress, szip_compress.
  set (samples := Byte.to_N <$> buffer).
  set (mapped := if szip_nearest_neighbour options then nn_encode 0 samples else samples).
  assert (Hlen : length mapped = length buffer).
  { unfold mapped. destruct (szip_nearest_neighbour options);
      rewrite ?nn_encode_length; unfold samples; apply length_fmap. }
  assert (Hsmall : Forall (fun x => (x < 256)%N) mapped).
  { unfold mapped. destruct (szip_nearest_neighbour options);
      [apply nn_encode_small | apply to_N_small]. }
  destruct (bits_of_bytes_of_bits
              (put_count (N.of_nat (length buffer))
                 ++ put_blocks (length mapped) (szip_pixels_per_block options) mapped))
    as [padding Hpad].
  rewrite Hpad, <- !app_assoc, get_count_put_count, Nat2N.id, <- Hlen.
  rewrite get_blocks_put_blocks;
    [| apply szip_pixels_per_block_pos | lia | lia | exact Hsmall].
  assert (Hsamples : (if szip_nearest_neighbour options then nn_decode 0 mapped else mapped)
                     = samples).
  { unfold mapped. destruct (szip_nearest_neighbour options); [| reflexivity].
    apply nn_decode_encode, to_N_small. }
  rewrite Hsamples. unfold samples. apply mapM_fmap_Some, Byte.of_to_N.
Qed.

(** Twelve bytes that repeat with period three: three literals and one
    match of length nine at distance three, in six bytes; stored, the same
    text takes seventeen bytes. *)
Example deflate_repeated_text :
  let text := String.list_byte_of_string "abcabcabcabc" in
  lz77 max_match window_size 12 [] text
  = [Literal Byte.x61; Literal Byte.x62; Literal Byte.x63; Match 9 3]
  /\ deflate [6%nat] text = [Byte.x4b; Byte.x4c; Byte.x4a; Byte.x86; Byte.x23; Byte.x00]
  /\ length (deflate [0%nat] text) = 17%nat
  /\ inflate [Byte.x4b; Byte.x4c; Byte.x4a; Byte.x86; Byte.x23; Byte.x00] = Some text.
Proof. repeat split; vm_compute; reflexivity. Qed.

(** Nineteen equal samples: with the differences to the neighbour the
    blocks after the first hold zeros only, and take one bit per sample. *)
Example szip_constant_samples :
  let samples := replicate 19 Byte.x61 in
  length (szip_compress [32; 8]%nat samples) = 11%nat
  /\ length (szip_compress [4; 8]%nat samples) = 22%nat
  /\ szip_decompress [32; 8]%nat (szip_compress [32; 8]%nat samples) = Some samples.
Proof. repeat split; vm_compute; reflexivity. Qed.

(** ** Filters *)

Lemma noop_reversible : reversible noop_filter.
Proof. intros options skip buffer. reflexivity. Qed.

Lemma fletcher32_reversible : reversible fletcher32_filter.
Proof.
  intros options skip buffer. cbn [fletcher32_filter filter_decode filter_encode].
  rewrite length_app. cbn [checksum_bytes length].
  replace (length buffer + 4 - 4)%nat with (length buffer) by lia.
  rewrite take_app_length, drop_app_length.
  destruct skip; [reflexivity |].
  now rewrite decide_True by reflexivity.
Qed.

Lemma permute_length (source : nat -> nat) (buffer : list Byte.byte) :
  length (permute source buffer) = length buffer.
Proof. unfold permute. now rewrite length_fmap, length_seq. Qed.

Lemma permute_lookup (source : nat -> nat) (buffer : list Byte.byte) (k : nat) :
  (k < length buffer)%nat ->
  permute source buffer !! k = Some (default Byte.x00 (buffer !! source k)).
Proof.
  intros Hk. unfold permute. rewrite list_lookup_fmap, lookup_seq_lt by exact Hk.
  reflexivity.
Qed.

(** The two index maps of the shuffle are inverse to each other below the
    length of the buffer. *)
Lemma shuffle_unshuffle_source (width len k : nat) :
  (0 < width)%nat -> (k < len)%nat ->
  (unshuffle_source width len k < len)%nat
  /\ shuffle_source width len (unshuffle_source width len k) = k.
Proof.
  intros Hw Hk. unfold unshuffle_source, shuffle_source.
  set (n := (len / width)%nat).
  assert (Hn : (n * width <= len)%nat).
  { unfold n. rewrite Nat.mul_comm. apply Nat.Div0.mul_div_le. }
  destruct (Nat.ltb_spec k (n * width)) as [Hlt|Hge].
  - assert (Hnpos : (0 < n)%nat) by (destruct n; [lia | lia]).
    pose proof (Nat.mod_upper_bound k width ltac:(lia)) as Hj.
    assert (Hi : (k / width < n)%nat).
    { apply Nat.Div0.div_lt_upper_bound. lia. }
    assert (Hu : (k mod width * n + k / width < n * width)%nat) by nia.
    split; [lia |].
    destruct (Nat.ltb_spec (k mod width * n + k / width) (n * width)) as [_|Hbad]; [|lia].
    assert (Hdiv : ((k mod width * n + k / width) / n = k mod width)%nat).
    { symmetry. apply (Nat.div_unique _ n _ (k / width)); lia. }
    assert (Hmod : ((k mod width * n + k / width) mod n = k / width)%nat).
    { symmetry. apply (Nat.mod_unique _ n (k mod width)); lia. }
    rewrite Hdiv, Hmod. pose proof (Nat.div_mod_eq k width). lia.
  - split; [exact Hk |].
    destruct (Nat.ltb_spec k (n * width)) as [Hbad|_]; [lia | reflexivity].
Qed.

Lemma shuffle_width_pos (options : list nat) : (0 < shuffle_width options)%nat.
Proof.
  unfold shuffle_width. destruct options as [|width ?]; [lia |].
  destruct (Nat.eqb_spec width 0); lia.
Qed.

Lemma shuffle_reversible : reversible shuffle_filter.
Proof.
  intros options skip buffer. cbn [shuffle_filter filter_decode filter_encode].
  f_equal. rewrite permute_length.
  set (width := shuffle_width options). set (len := length buffer).
  apply list_eq. intros k.
  destruct (decide (k < len)%nat) as [Hk|Hk].
  - destruct (shuffle_unshuffle_source width len k (shuffle_width_pos options) Hk)
      as [Hu Hsu].
    rewrite permute_lookup by (rewrite permute_length; exact Hk).
    rewrite permute_lookup by exact Hu. rewrite Hsu.
    destruct (lookup_lt_is_Some_2 buffer k Hk) as [x Hx]. now rewrite Hx.
  - rewrite !lookup_ge_None_2; [reflexivity | lia |].
    rewrite !permute_length. fold len. lia.
Qed.

Lemma deflate_reversible : reversible deflate_filter.
Proof.
  intros options skip buffer. cbn [deflate_filter filter_decode filter_encode].
  now rewrite deflate_inflate.
Qed.

Lemma szip_reversible : reversible szip_filter.
Proof.
  intros options skip buffer. cbn [szip_filter filter_decode filter_encode].
  now rewrite szip_compress_decompress.
Qed.

(** ** The pipeline *)

Lemma Result_bind_Ok {A B : Type} (a : A) (f : A -> Result B) : (Ok a ≫= f) = f a.
Proof. reflexivity. Qed.

Lemma fold_result_app {A B : Type} (step : A -> B -> Result A) (acc : A) (l1 l2 : list B) :
  fold_result step acc (l1 ++ l2) =
  match fold_result step acc l1 with
  | Ok acc' => fold_result step acc' l2
  | Err err => Err err
  end.
Proof.
  revert acc. induction l1 as [|x l1 IH]; intros acc; simpl; [reflexivity |].
  destruct (step acc x); [apply IH | reflexivity].
Qed.

(** Decoding undoes encoding when every filter of the list is enabled and
    reversible. *)
Lemma apply_pipeline_round_trip (cfg : FilterConfig) (filter_list : list PipelineEntry)
    (buffer : list Byte.byte) :
  Forall (fun entry => filter_enabled cfg entry /\ reversible (entry_filter entry)) filter_list ->
  exists stored,
    apply_pipeline cfg Encode buffer filter_list = Ok stored
    /\ apply_pipeline cfg Decode stored filter_list = Ok buffer.
Proof.
  intros Hall. revert buffer.
  induction Hall as [|entry rest [[Henc Hdec] Hrev] _ IH]; intros buffer.
  - exists buffer. split; reflexivity.
  - destruct (IH (filter_encode (entry_filter entry) (entry_options entry) buffer))
      as (stored & Hstored & Hback).
    exists stored. cbn [apply_pipeline] in *. split.
    + cbn [fold_result]. unfold encode_step at 1. rewrite Henc. exact Hstored.
    + cbn [rev]. rewrite fold_result_app, Hback. cbn [fold_result].
      unfold decode_step. now rewrite Hdec, Hrev.
Qed.

(** ** Geometry of chunks *)

Lemma chunk_offset_lt (shape coord : list nat) :
  length coord = length shape -> Forall (fun n => (0 < n)%nat) shape ->
  Forall2 lt (chunk_offset coord shape) shape.
Proof.
  unfold chunk_offset. revert coord.
  induction shape as [|n shape IH]; intros [|a coord] Hlen Hpos; try discriminate.
  - constructor.
  - apply Forall_cons in Hpos as [Hn Hpos]. cbn [zip_with]. constructor.
    + apply Nat.mod_upper_bound. lia.
    + apply IH; [now injection Hlen | exact Hpos].
Qed.

Lemma row_major_lt (idx shape : list nat) :
  Forall2 lt idx shape -> (row_major idx shape < product shape)%nat.
Proof.
  induction 1 as [|i n idx shape Hi _ IH]; cbn [row_major product foldr]; [lia |].
  fold (product shape). nia.
Qed.

Lemma row_major_inj (idx1 idx2 shape : list nat) :
  Forall2 lt idx1 shape -> Forall2 lt idx2 shape ->
  row_major idx1 shape = row_major idx2 shape -> idx1 = idx2.
Proof.
  intros H1. revert idx2.
  induction H1 as [|i n idx shape Hi Hrest IH]; intros idx2 H2 Heq.
  - now inversion H2.
  - inversion H2 as [|i2 n2 idx2' shape2 Hi2 Hrest2]; subst.
    cbn [row_major] in Heq.
    pose proof (row_major_lt _ _ Hrest) as Hr.
    pose proof (row_major_lt _ _ Hrest2) as Hr2.
    assert (i = i2) by nia. subst i2.
    f_equal. apply IH; [exact Hrest2 | lia].
Qed.

(** A coordinate is determined by its chunk and its position in the
    chunk. *)
Lemma chunk_split_inj (shape c1 c2 : list nat) :
  length c1 = length shape -> length c2 = length shape ->
  chunk_index c1 shape = chunk_index c2 shape ->
  chunk_offset c1 shape = chunk_offset c2 shape ->
  c1 = c2.
Proof.
  unfold chunk_index, chunk_offset. revert c1 c2.
  induction shape as [|n shape IH]; intros [|a1 c1] [|a2 c2] Hl1 Hl2 Hidx Hoff;
    try discriminate; [reflexivity |].
  cbn [zip_with] in Hidx, Hoff.
  injection Hidx as Hq Hidx. injection Hoff as Hr Hoff.
  f_equal.
  - rewrite (Nat.div_mod_eq a1 n), (Nat.div_mod_eq a2 n). now rewrite Hq, Hr.
  - apply IH; [now injection Hl1 | now injection Hl2 | exact Hidx | exact Hoff].
Qed.

Lemma element_slot_lt (shape coord : list nat) :
  length coord = length shape -> Forall (fun n => (0 < n)%nat) shape ->
  (element_slot coord shape < product shape)%nat.
Proof. intros Hlen Hpos. apply row_major_lt, chunk_offset_lt; assumption. Qed.

Lemma element_slot_inj (shape c1 c2 : list nat) :
  length c1 = length shape -> length c2 = length shape ->
  Forall (fun n => (0 < n)%nat) shape ->
  chunk_index c1 shape = chunk_index c2 shape ->
  element_slot c1 shape = element_slot c2 shape ->
  c1 = c2.
Proof.
  intros Hl1 Hl2 Hpos Hidx Hslot.
  apply (chunk_split_inj shape); try assumption.
  apply (row_major_inj _ _ shape); [| | exact Hslot]; now apply chunk_offset_lt.
Qed.

(** ** Hyperslabs *)

Lemma box_coords_cons (s c : nat) (start count : list nat) (coord : list nat) :
  coord ∈ box_coords (s :: start) (c :: count) <->
  exists i rest, coord = i :: rest /\ (s <= i < s + c)%nat /\ rest ∈ box_coords start count.
Proof.
  cbn [box_coords]. rewrite list_elem_of_bind. split.
  - intros (i & Hcoord & Hi). apply list_elem_of_bind in Hcoord as (rest & Hcoord & Hrest).
    apply list_elem_of_singleton in Hcoord. apply elem_of_seq in Hi. eauto.
  - intros (i & rest & -> & Hi & Hrest). exists i. split; [| now apply elem_of_seq].
    apply list_elem_of_bind. exists rest. split; [apply list_elem_of_singleton; reflexivity | exact Hrest].
Qed.

Lemma box_coords_length (start count coord : list nat) :
  length start = length count -> coord ∈ box_coords start count ->
  length coord = length count.
Proof.
  revert count coord.
  induction start as [|s start IH]; intros [|c count] coord Hlen Hcoord; try discriminate.
  - cbn [box_coords] in Hcoord. apply list_elem_of_singleton in Hcoord. now subst.
  - apply box_coords_cons in Hcoord as (i & rest & -> & _ & Hrest).
    cbn [length]. f_equal. apply IH; [now injection Hlen | exact Hrest].
Qed.

Lemma box_coords_NoDup (start count : list nat) : NoDup (box_coords start count).
Proof.
  revert count. induction start as [|s start IH]; intros [|c count];
    try (apply NoDup_singleton).
  cbn [box_coords]. apply NoDup_bind.
  - intros i1 i2 coord _ _ H1 H2.
    apply list_elem_of_bind in H1 as (r1 & H1 & _), H2 as (r2 & H2 & _).
    apply list_elem_of_singleton in H1, H2. congruence.
  - intros i _. apply NoDup_bind.
    + intros r1 r2 coord _ _ H1 H2. apply list_elem_of_singleton in H1, H2. congruence.
    + intros r _. apply NoDup_singleton.
    + apply IH.
  - apply NoDup_seq.
Qed.

(** ** Selections *)

Lemma all_coords_length (dims coord : list nat) :
  coord ∈ all_coords dims -> length coord = length dims.
Proof. apply box_coords_length, length_replicate. Qed.

(** The coordinates of an array are those below its extent on every
    axis. *)
Lemma elem_of_all_coords (dims coord : list nat) :
  coord ∈ all_coords dims <-> coord_within coord dims = true.
Proof.
  unfold all_coords. revert coord.
  induction dims as [|d dims IH]; intros coord.
  - cbn [length replicate box_coords]. rewrite list_elem_of_singleton.
    destruct coord; [now split | split; discriminate].
  - cbn [length replicate]. rewrite box_coords_cons. split.
    + intros (i & rest & -> & Hi & Hrest). cbn [coord_within].
      apply andb_true_iff. split; [apply Nat.ltb_lt; lia | now apply IH].
    + destruct coord as [|i rest]; [discriminate |]. cbn [coord_within].
      intros [Hi Hrest]%andb_true_iff. apply Nat.ltb_lt in Hi.
      exists i, rest. split; [reflexivity |]. split; [lia | now apply IH].
Qed.

Lemma elem_of_selection_coords (dims : list nat) (sel : Selection) (coord : list nat) :
  coord ∈ selection_coords dims sel
  <-> selected sel coord = true /\ coord_within coord dims = true.
Proof.
  unfold selection_coords. rewrite list_elem_of_filter, elem_of_all_coords.
  now rewrite Is_true_true.
Qed.

Lemma selection_coords_NoDup (dims : list nat) (sel : Selection) :
  NoDup (selection_coords dims sel).
Proof. apply NoDup_filter, box_coords_NoDup. Qed.

Lemma selection_coords_length (dims : list nat) (sel : Selection) (coord : list nat) :
  coord ∈ selection_coords dims sel -> length coord = length dims.
Proof.
  unfold selection_coords. intros [_ Hcoord]%list_elem_of_filter.
  now apply all_coords_length.
Qed.

Lemma axis_selected_within (start stride count block dim i : nat) :
  axis_selected start stride count block i = true ->
  axis_within start stride count block dim = true -> (i < dim)%nat.
Proof.
  unfold axis_selected, axis_within.
  intros [[Hstart Hcount]%andb_true_iff Hblock]%andb_true_iff Hwithin.
  apply Nat.leb_le in Hstart. apply Nat.ltb_lt in Hcount, Hblock.
  apply orb_true_iff in Hwithin as [[Hzero|Hzero]%orb_true_iff|Hend].
  - apply Nat.eqb_eq in Hzero. lia.
  - apply Nat.eqb_eq in Hzero. lia.
  - apply Nat.leb_le in Hend.
    pose proof (Nat.div_mod_eq (i - start) stride) as Hsplit.
    assert (Hprod : (stride * ((i - start) / stride) <= (count - 1) * stride)%nat)
      by (rewrite Nat.mul_comm; apply Nat.mul_le_mono_r; lia).
    lia.
Qed.

Lemma in_hyperslab_within (start stride count block dims coord : list nat) :
  in_hyperslab start stride count block coord = true ->
  hyperslab_within start stride count block dims = true ->
  coord_within coord dims = true.
Proof.
  revert stride count block dims coord.
  induction start as [|s start IH];
    intros [|t stride] [|c count] [|b block] [|d dims] [|i coord]; try discriminate;
    [reflexivity |].
  cbn [in_hyperslab hyperslab_within coord_within].
  intros [Hsel Hrest]%andb_true_iff [Hin Hwithin]%andb_true_iff.
  apply andb_true_iff. split.
  - apply Nat.ltb_lt. exact (axis_selected_within s t c b d i Hsel Hin).
  - exact (IH _ _ _ _ _ Hrest Hwithin).
Qed.

(** A selection made of hyperslabs or of listed elements that lies inside
    the extent has all its coordinates there: [selection_coords] leaves
    none of them out. *)
Lemma selected_within_extent (dims : list nat) (sel : Selection) (coord : list nat) :
  sel <> SelectAll -> within_extent dims sel = true -> selected sel coord = true ->
  coord ∈ selection_coords dims sel.
Proof.
  intros Hsel Hwithin Hcoord. apply elem_of_selection_coords. split; [exact Hcoord |].
  destruct sel as [|slabs|points]; [contradiction | |].
  - cbn [selected within_extent] in *.
    apply existsb_exists in Hcoord as (h & Hh & Hin).
    rewrite forallb_forall in Hwithin.
    exact (in_hyperslab_within _ _ _ _ _ _ Hin (Hwithin h Hh)).
  - cbn [selected within_extent] in *.
    apply bool_decide_eq_true in Hcoord. rewrite forallb_forall in Hwithin.
    apply Hwithin. now apply list_elem_of_In.
Qed.

(** ** Payloads *)

Lemma reshape_mjoin (sz : nat) (payload : list (list Byte.byte)) :
  Forall (fun el => length el = sz) payload ->
  reshape (replicate (length payload) sz) (mjoin payload) = payload.
Proof.
  induction 1 as [|el rest Hel _ IH]; [reflexivity |].
  cbn [length replicate reshape mjoin list_join].
  rewrite (take_app_length' el _ sz (eq_sym Hel)), (drop_app_length' el _ sz (eq_sym Hel)).
  f_equal. exact IH.
Qed.

Lemma reshape_lengths (n sz : nat) (l : list Byte.byte) :
  (n * sz <= length l)%nat ->
  Forall (fun el => length el = sz) (reshape (replicate n sz) l).
Proof.
  revert l. induction n as [|n IH]; intros l Hlen; cbn [replicate reshape].
  - constructor.
  - constructor.
    + rewrite length_take. lia.
    + apply IH. rewrite length_drop. lia.
Qed.

Lemma set_chunks_id (d : Dataset) : set_chunks d (ds_chunks d) = d.
Proof. now destruct d. Qed.

Lemma overwrite_snoc (d : Dataset) (idx : list nat)
    (writes : list (list nat * list Byte.byte)) (w : list nat * list Byte.byte)
    (payload : list (list Byte.byte)) :
  overwrite d idx (writes ++ [w]) payload =
  if decide (chunk_index w.1 (ds_chunk_shape d) = idx)
  then <[element_slot w.1 (ds_chunk_shape d) := w.2]> (overwrite d idx writes payload)
  else overwrite d idx writes payload.
Proof. unfold overwrite. now rewrite foldl_snoc. Qed.

Lemma overwrite_well_shaped (d : Dataset) (idx : list nat)
    (writes : list (list nat * list Byte.byte)) (payload : list (list Byte.byte)) :
  well_shaped d payload ->
  Forall (fun w => length w.2 = type_size (ds_type d)) writes ->
  well_shaped d (overwrite d idx writes payload).
Proof.
  intros Hshape.
  induction writes as [|w writes IH] using rev_ind; intros Hsizes; [exact Hshape |].
  apply Forall_app in Hsizes as [Hsizes Hw]. rewrite Forall_singleton in Hw.
  specialize (IH Hsizes).
  rewrite overwrite_snoc. case_decide; [| exact IH].
  destruct IH as [Hlen Hall]. split.
  - now rewrite length_insert.
  - apply Forall_insert; [exact Hall | exact Hw].
Qed.

(** After the overwrite, the slot of a written coordinate holds the element
    written for it. *)
Lemma overwrite_lookup (d : Dataset) (writes : list (list nat * list Byte.byte))
    (payload : list (list Byte.byte)) (coord : list nat) (el : list Byte.byte) :
  NoDup (writes.*1) ->
  Forall (fun w => length w.1 = length (ds_chunk_shape d)) writes ->
  Forall (fun n => (0 < n)%nat) (ds_chunk_shape d) ->
  length payload = chunk_elements d ->
  (coord, el) ∈ writes ->
  overwrite d (chunk_index coord (ds_chunk_shape d)) writes payload
    !! element_slot coord (ds_chunk_shape d) = Some el.
Proof.
  intros Hnodup Hrank Hpos Hlen.
  induction writes as [|[c' el'] writes IH] using rev_ind; intros Hin.
  - now apply elem_of_nil in Hin.
  - rewrite fmap_app in Hnodup. apply NoDup_app in Hnodup as (Hnodup & Hfresh & _).
    apply Forall_app in Hrank as [Hrank Hc']. rewrite Forall_singleton in Hc'.
    cbn [fst] in Hc'.
    assert (Hlen' : forall idx, length (overwrite d idx writes payload) = chunk_elements d).
    { intros idx. clear -Hlen. induction writes as [|w writes IHw] using rev_ind;
        [exact Hlen |].
      rewrite overwrite_snoc. case_decide; [now rewrite length_insert | exact IHw]. }
    rewrite overwrite_snoc. cbn [fst snd].
    apply elem_of_app in Hin as [Hin|Hin].
    + assert (Hc : length coord = length (ds_chunk_shape d)).
      { rewrite Forall_forall in Hrank. apply (Hrank (coord, el)), Hin. }
      assert (Hne : coord <> c').
      { intros ->. apply (Hfresh c').
        - apply list_elem_of_fmap. exists (c', el). split; [reflexivity | exact Hin].
        - cbn. apply list_elem_of_singleton. reflexivity. }
      case_decide as Hsame; [| now apply IH].
      rewrite list_lookup_insert_ne; [now apply IH |].
      intros Hslot. apply Hne. symmetry.
      now apply (element_slot_inj (ds_chunk_shape d)).
    + apply list_elem_of_singleton in Hin. injection Hin as -> ->.
      rewrite decide_True by reflexivity.
      apply list_lookup_insert_eq. rewrite Hlen'.
      now apply element_slot_lt.
Qed.

(** Reading back what a list of coordinates was zipped with. *)
Lemma fmap_zip_lookup {A B : Type} (g : A -> B) (xs : list A) (ys : list B) :
  length xs = length ys ->
  (forall x y, (x, y) ∈ zip xs ys -> g x = y) ->
  g <$> xs = ys.
Proof.
  revert ys. induction xs as [|x xs IH]; intros [|y ys] Hlen Hall; try discriminate;
    [reflexivity |].
  cbn [fmap list_fmap]. f_equal.
  - apply Hall. cbn [zip zip_with]. apply elem_of_cons. now left.
  - apply IH; [now injection Hlen |].
    intros x' y' Hin. apply Hall. cbn [zip zip_with]. apply elem_of_cons. now right.
Qed.

(** ** Writing and reading chunks *)

Section StorageFacts.
Variable cfg : FilterConfig.

Lemma load_chunk_lookup (d : Dataset) (chunks1 chunks2 : gmap (list nat) (list Byte.byte))
    (idx : list nat) :
  chunks1 !! idx = chunks2 !! idx ->
  load_chunk cfg (set_chunks d chunks1) idx = load_chunk cfg (set_chunks d chunks2) idx.
Proof. intros Heq. unfold load_chunk. cbn [ds_chunks set_chunks]. now rewrite Heq. Qed.

(** Under the invariant every chunk loads, and has the shape of a chunk. *)
Lemma load_chunk_valid (d : Dataset) (idx : list nat) :
  valid_dataset cfg d ->
  exists payload, load_chunk cfg d idx = Ok payload /\ well_shaped d payload.
Proof.
  intros (_ & _ & Hfill & Hchunks). unfold load_chunk.
  destruct (ds_chunks d !! idx) as [stored|] eqn:Hidx.
  - destruct (Hchunks idx stored Hidx) as (payload & [Hlen Hall] & Hdecode).
    exists payload. split; [| now split].
    rewrite Hdecode, Result_bind_Ok. unfold split_elements. rewrite <- Hlen.
    now rewrite reshape_mjoin.
  - eexists. split; [reflexivity |]. split.
    + apply length_replicate.
    + apply Forall_replicate. exact Hfill.
Qed.

Lemma valid_dataset_insert (d : Dataset) (idx : list nat) (stored : list Byte.byte)
    (payload : list (list Byte.byte)) :
  valid_dataset cfg d -> well_shaped d payload ->
  apply_pipeline cfg Decode stored (ds_pipeline d) = Ok (mjoin payload) ->
  valid_dataset cfg (set_chunks d (<[idx := stored]> (ds_chunks d))).
Proof.
  intros (Hrank & Hpos & Hfill & Hchunks) Hshape Hdecode.
  split; [exact Hrank |]. split; [exact Hpos |]. split; [exact Hfill |].
  intros idx' stored'. cbn [ds_chunks set_chunks].
  destruct (decide (idx = idx')) as [->|Hne].
  - rewrite lookup_insert_eq. intros [= <-]. exists payload. now split.
  - rewrite lookup_insert_ne by exact Hne. apply Hchunks.
Qed.

Section Writes.
Variable d : Dataset.
Variable writes : list (list nat * list Byte.byte).
Hypothesis Hfilters :
  Forall (fun entry => filter_enabled cfg entry /\ reversible (entry_filter entry))
         (ds_pipeline d).
Hypothesis Hsizes : Forall (fun w => length w.2 = type_size (ds_type d)) writes.

(** One read-modify-write: the chunk is replaced by the encoding of the
    overwritten payload, which decodes again. *)
Lemma write_chunk_spec (chunks : gmap (list nat) (list Byte.byte)) (idx : list nat) :
  valid_dataset cfg (set_chunks d chunks) ->
  exists payload stored,
    load_chunk cfg (set_chunks d chunks) idx = Ok payload
    /\ write_chunk cfg writes (set_chunks d chunks) idx
       = Ok (set_chunks d (<[idx := stored]> chunks))
    /\ load_chunk cfg (set_chunks d (<[idx := stored]> chunks)) idx
       = Ok (overwrite d idx writes payload)
    /\ valid_dataset cfg (set_chunks d (<[idx := stored]> chunks)).
Proof.
  intros Hvalid.
  destruct (load_chunk_valid _ idx Hvalid) as (payload & Hload & Hshape).
  assert (Hshape' : well_shaped d (overwrite d idx writes payload)).
  { apply overwrite_well_shaped; [exact Hshape | exact Hsizes]. }
  destruct (apply_pipeline_round_trip cfg (ds_pipeline d)
              (mjoin (overwrite d idx writes payload)) Hfilters)
    as (stored & Hencode & Hdecode).
  exists payload, stored. split; [exact Hload |].
  assert (Hvalid' : valid_dataset cfg (set_chunks d (<[idx := stored]> chunks))).
  { apply (valid_dataset_insert (set_chunks d chunks) idx stored
             (overwrite d idx writes payload) Hvalid Hshape' Hdecode). }
  split; [| split; [| exact Hvalid']].
  - unfold write_chunk. rewrite Hload, Result_bind_Ok.
    change (overwrite (set_chunks d chunks) idx writes payload)
      with (overwrite d idx writes payload).
    change (ds_pipeline (set_chunks d chunks)) with (ds_pipeline d).
    rewrite Hencode, Result_bind_Ok. reflexivity.
  - unfold load_chunk.
    change (ds_chunks (set_chunks d (<[idx := stored]> chunks)))
      with (<[idx := stored]> chunks).
    rewrite lookup_insert_eq.
    change (ds_pipeline (set_chunks d (<[idx := stored]> chunks))) with (ds_pipeline d).
    rewrite Hdecode, Result_bind_Ok. unfold split_elements.
    destruct Hshape' as [Hlen Hall].
    change (chunk_elements (set_chunks d (<[idx := stored]> chunks)))
      with (chunk_elements d).
    change (ds_type (set_chunks d (<[idx := stored]> chunks))) with (ds_type d).
    rewrite <- Hlen. now rewrite reshape_mjoin.
Qed.

(** The read-modify-write of all intersecting chunks. *)
Lemma write_chunks_spec (idxs : list (list nat)) :
  NoDup idxs ->
  forall chunks, valid_dataset cfg (set_chunks d chunks) ->
  exists chunks',
    fold_result (write_chunk cfg writes) (set_chunks d chunks) idxs
      = Ok (set_chunks d chunks')
    /\ valid_dataset cfg (set_chunks d chunks')
    /\ (forall idx, idx ∈ idxs ->
          exists payload,
            load_chunk cfg (set_chunks d chunks) idx = Ok payload
            /\ load_chunk cfg (set_chunks d chunks') idx
               = Ok (overwrite d idx writes payload))
    /\ (forall idx, idx ∉ idxs -> chunks' !! idx = chunks !! idx).
Proof.
  induction 1 as [|i idxs Hfresh Hnodup IH]; intros chunks Hvalid.
  - exists chunks. split; [reflexivity |]. split; [exact Hvalid |].
    split; [intros idx Hin; now apply elem_of_nil in Hin | reflexivity].
  - destruct (write_chunk_spec chunks i Hvalid)
      as (payload & stored & Hload & Hwrite & Hload1 & Hvalid1).
    destruct (IH _ Hvalid1) as (chunks' & Hfold & Hvalid' & Hin' & Hout').
    exists chunks'. split; [| split; [exact Hvalid' | split]].
    + cbn [fold_result]. rewrite Hwrite. exact Hfold.
    + intros idx Hidx. apply elem_of_cons in Hidx as [->|Hidx].
      * exists payload. split; [exact Hload |].
        rewrite <- Hload1. apply load_chunk_lookup. now apply Hout'.
      * destruct (Hin' idx Hidx) as (payload' & Hl1 & Hl2).
        exists payload'. split; [| exact Hl2].
        rewrite <- Hl1. apply load_chunk_lookup.
        rewrite lookup_insert_ne; [reflexivity |]. intros ->. contradiction.
    + intros idx Hidx. apply not_elem_of_cons in Hidx as [Hne Hidx].
      rewrite (Hout' idx Hidx). now apply lookup_insert_ne.
Qed.
End Writes.

(** Loading the intersecting chunks for a read. *)
Lemma map_result_load (d : Dataset) (idxs : list (list nat)) :
  (forall idx, idx ∈ idxs -> exists payload, load_chunk cfg d idx = Ok payload) ->
  exists loaded,
    map_result (fun idx => payload ← load_chunk cfg d idx; Ok (idx, payload)) idxs
      = Ok loaded
    /\ forall idx payload, idx ∈ idxs -> load_chunk cfg d idx = Ok payload ->
         (list_to_map loaded : gmap (list nat) (list (list Byte.byte))) !! idx
         = Some payload.
Proof.
  induction idxs as [|i idxs IH]; intros Hall.
  - exists []. split; [reflexivity |]. intros idx payload Hin. now apply elem_of_nil in Hin.
  - destruct (Hall i) as (pi & Hpi); [apply elem_of_cons; now left |].
    destruct IH as (loaded & Hmap & Hlook).
    { intros idx Hin. apply Hall. apply elem_of_cons. now right. }
    exists ((i, pi) :: loaded). split.
    + cbn [map_result]. rewrite Hpi, Result_bind_Ok. now rewrite Hmap.
    + intros idx payload Hin Hload. cbn [list_to_map foldr]. cbn.
      destruct (decide (i = idx)) as [->|Hne].
      * rewrite lookup_insert_eq. congruence.
      * rewrite lookup_insert_ne by exact Hne.
        apply elem_of_cons in Hin as [->|Hin]; [contradiction |].
        now apply Hlook.
Qed.
End StorageFacts.

(** ** The round trip *)

Section RoundTrip.
Variable cfg : FilterConfig.

Lemma write_read_same_selection (d : Dataset) (sel : Selection) (buffer : list Byte.byte) :
  valid_dataset cfg d ->
  Forall (fun entry => filter_enabled cfg entry /\ reversible (entry_filter entry))
         (ds_pipeline d) ->
  within_extent (current_dims (ds_space d)) sel = true ->
  length buffer
  = (length (selection_coords (current_dims (ds_space d)) sel) * type_size (ds_type d))%nat ->
  exists d',
    write_range cfg d sel buffer = Ok d'
    /\ read_range cfg d' sel = Ok buffer
    /\ valid_dataset cfg d'.
Proof.
  intros Hvalid Hfilters Hsel Hbuf.
  pose proof Hvalid as (Hrank & Hpos & _ & _).
  set (coords := selection_coords (current_dims (ds_space d)) sel) in *.
  set (sz := type_size (ds_type d)) in *.
  set (elems := split_elements d (length coords) buffer).
  set (writes := zip coords elems).
  set (idxs := intersecting_chunks d coords).
  assert (Helems_len : length coords = length elems).
  { unfold elems, split_elements. now rewrite length_reshape, length_replicate. }
  assert (Helems_sz : Forall (fun el => length el = sz) elems).
  { apply reshape_lengths. lia. }
  assert (Hsizes : Forall (fun w => length w.2 = sz) writes).
  { apply Forall_forall. intros [c el] Hin. apply elem_of_zip_r in Hin.
    rewrite Forall_forall in Helems_sz. now apply Helems_sz. }
  assert (Hfst : writes.*1 = coords) by (apply fst_zip; lia).
  assert (Hcoord_rank : forall c, c ∈ coords -> length c = length (ds_chunk_shape d)).
  { intros c Hc. rewrite Hrank. apply (selection_coords_length _ _ _ Hc). }
  assert (Hwrites_rank : Forall (fun w => length w.1 = length (ds_chunk_shape d)) writes).
  { apply Forall_forall. intros [c el] Hin. apply elem_of_zip_l in Hin.
    now apply Hcoord_rank. }
  assert (Hnodup : NoDup (writes.*1)).
  { rewrite Hfst. apply selection_coords_NoDup. }
  assert (Hidxs : NoDup idxs) by apply NoDup_remove_dups.
  assert (Hvalid0 : valid_dataset cfg (set_chunks d (ds_chunks d))).
  { now rewrite set_chunks_id. }
  destruct (write_chunks_spec cfg d writes Hfilters Hsizes idxs Hidxs (ds_chunks d) Hvalid0)
    as (chunks' & Hfold & Hvalid' & Hin' & _).
  rewrite set_chunks_id in Hfold.
  exists (set_chunks d chunks'). split; [| split; [| exact Hvalid']].
  - unfold write_range. rewrite Hsel. fold coords. fold sz.
    rewrite (proj2 (Nat.eqb_eq _ _) Hbuf). exact Hfold.
  - unfold read_range.
    change (current_dims (ds_space (set_chunks d chunks')))
      with (current_dims (ds_space d)).
    rewrite Hsel. fold coords.
    change (intersecting_chunks (set_chunks d chunks') coords) with idxs.
    destruct (map_result_load cfg (set_chunks d chunks') idxs) as (loaded & Hmap & Hlook).
    { intros idx Hidx. destruct (Hin' idx Hidx) as (payload & _ & Hl). eauto. }
    rewrite Hmap, Result_bind_Ok. f_equal.
    change (ds_chunk_shape (set_chunks d chunks')) with (ds_chunk_shape d).
    rewrite (fmap_zip_lookup _ coords elems Helems_len).
    + unfold elems, split_elements. apply join_reshape.
      rewrite sum_list_replicate. fold sz. lia.
    + intros c el Hin. fold writes in Hin.
      assert (Hc : c ∈ coords) by (now apply elem_of_zip_l in Hin).
      assert (Hidx : chunk_index c (ds_chunk_shape d) ∈ idxs).
      { apply elem_of_remove_dups, list_elem_of_fmap. eauto. }
      destruct (Hin' _ Hidx) as (payload & Hload0 & Hload').
      rewrite set_chunks_id in Hload0.
      destruct (load_chunk_valid cfg d (chunk_index c (ds_chunk_shape d)) Hvalid)
        as (payload0 & Hload00 & [Hlen _]).
      assert (payload0 = payload) by congruence. subst payload0.
      rewrite (Hlook _ _ Hidx Hload'). cbn [mbind option_bind].
      rewrite (overwrite_lookup d writes payload c el Hnodup Hwrites_rank Hpos Hlen Hin).
      reflexivity.
Qed.

(** Every built-in filter is reversible. *)
Lemma builtin_filters_reversible (f : Filter) : f ∈ builtin_filters -> reversible f.
Proof.
  intros Hf. unfold builtin_filters in Hf.
  repeat (apply elem_of_cons in Hf as [->|Hf]);
    auto using noop_reversible, deflate_reversible, shuffle_reversible,
               fletcher32_reversible, szip_reversible.
  now apply elem_of_nil in Hf.
Qed.

(** C6.  For a dataset that satisfies the invariant (any element type,
    dataspace and storage layout), whose pipeline is empty or made of
    built-in filters in any number and order, each of them enabled, and for
    every selection inside the current extent (the whole array, hyperslabs
    or listed elements): [write_range] succeeds, and [read_range] over the
    same selection then returns exactly the bytes written.  The dataset
    written to satisfies the invariant again. *)
Theorem write_read_round_trip (d : Dataset) (sel : Selection) (buffer : list Byte.byte)
    (Hvalid : valid_dataset cfg d)
    (Hfilters : Forall (fun entry => entry_filter entry ∈ builtin_filters
                                     /\ filter_enabled cfg entry) (ds_pipeline d))
    (Hsel : within_extent (current_dims (ds_space d)) sel = true)
    (Hbuf : length buffer
            = (length (selection_coords (current_dims (ds_space d)) sel)
               * type_size (ds_type d))%nat) :
  exists d',
    write_range cfg d sel buffer = Ok d'
    /\ read_range cfg d' sel = Ok buffer
    /\ valid_dataset cfg d'.
Proof.
  apply write_read_same_selection; try assumption.
  eapply Forall_impl; [exact Hfilters |].
  intros entry [Hin Hen]. split; [exact Hen |].
  now apply builtin_filters_reversible.
Qed.
End RoundTrip.

(** A dataset as [create_dataset] makes it satisfies the invariant. *)
Lemma new_dataset_valid (cfg : FilterConfig) (type : Datatype) (space : Dataspace)
    (layout : Layout) (fill : list Byte.byte) (filter_list : list PipelineEntry) :
  match layout with
  | Chunked chunk_shape =>
      length chunk_shape = rank space /\ Forall (fun n => (0 < n)%nat) chunk_shape
  | Compact | Contiguous => True
  end ->
  length fill = type_size type ->
  valid_dataset cfg (mkDataset type space layout fill filter_list ∅ ∅).
Proof.
  intros Hlayout Hfill.
  assert (Hshape : length (ds_chunk_shape (mkDataset type space layout fill filter_list ∅ ∅))
                   = rank space
                   /\ Forall (fun n => (0 < n)%nat)
                        (ds_chunk_shape (mkDataset type space layout fill filter_list ∅ ∅))).
  { unfold ds_chunk_shape. cbn [ds_layout ds_space].
    destruct layout as [| |chunk_shape]; [| | exact Hlayout];
      (split; [apply length_fmap | apply Forall_fmap, Forall_forall; intros n _; cbn; lia]). }
  destruct Hshape as [Hrank Hpos].
  split; [exact Hrank |]. split; [exact Hpos |].
  split; [exact Hfill |]. intros idx stored. cbn [ds_chunks].
  rewrite lookup_empty. discriminate.
Qed.

(** The sample dataset, with the shuffle filter, the two compressors and
    the Fletcher32 filter: the 16 bytes written to rows 0 and 2, columns 1
    and 2, are read back. *)
Lemma write_read_round_trip_witness :
  exists d',
    write_range all_enabled sample_dataset sample_selection sample_buffer = Ok d'
    /\ read_range all_enabled d' sample_selection = Ok sample_buffer
    /\ valid_dataset all_enabled d'.
Proof.
  apply (write_read_round_trip all_enabled).
  - apply new_dataset_valid; [split; [reflexivity | repeat constructor] | reflexivity].
  - repeat constructor; cbn [entry_filter builtin_filters];
      repeat first [apply list_elem_of_here | apply list_elem_of_further].
  - reflexivity.
  - reflexivity.
Defined.

(** The same round trip, computed: the chunks go through the four
    filters. *)
Example write_read_sample_computed :
  (d ← write_range all_enabled sample_dataset sample_selection sample_buffer;
   read_range all_enabled d sample_selection)
  = Ok sample_buffer.
Proof. vm_compute. reflexivity. Qed.

(** A contiguous dataset and elements listed one by one, out of order and
    one of them twice: the buffer holds one element per selected
    coordinate, in row-major order. *)
Example write_read_elements_contiguous :
  selection_coords [4; 4]%nat sample_elements = [[0; 0]; [1; 2]; [3; 3]]%nat
  /\ (d ← write_range all_enabled contiguous_dataset sample_elements (take 12 sample_buffer);
      read_range all_enabled d sample_elements)
     = Ok (take 12 sample_buffer).
Proof. split; vm_compute; reflexivity. Qed.

(** The coordinates of a box and of the strided sample selection. *)
Example selection_coords_samples :
  selection_coords [4; 4]%nat (SelectHyperslabs [hyperslab_box [1; 1]%nat [2; 2]%nat])
  = [[1; 1]; [1; 2]; [2; 1]; [2; 2]]%nat
  /\ selection_coords [4; 4]%nat sample_selection = [[0; 1]; [0; 2]; [2; 1]; [2; 2]]%nat
  /\ within_extent [4; 4]%nat (SelectHyperslabs [hyperslab_box [3; 3]%nat [2; 2]%nat]) = false.
Proof. repeat split; vm_compute; reflexivity. Qed.

(** [create_dataset] makes the chunked dataset that [create_dataset_layout]
    makes for the layout of that chunk shape. *)
Lemma create_dataset_chunked (parent : nat) (name : string) (type : Datatype)
    (space : Dataspace) (filter_list : list PipelineEntry) (chunk_shape : list nat)
    (fill : list Byte.byte) (st : FileState) :
  create_dataset parent name type space filter_list chunk_shape fill st
  = create_dataset_layout parent name type space filter_list (Chunked chunk_shape) fill st.
Proof. reflexivity. Qed.

(** Without filters the round trip needs no assumption on the
    capabilities. *)
Corollary write_read_no_filters (cfg : FilterConfig) (d : Dataset) (sel : Selection)
    (buffer : list Byte.byte) :
  ds_pipeline d = [] ->
  valid_dataset cfg d ->
  within_extent (current_dims (ds_space d)) sel = true ->
  length buffer
  = (length (selection_coords (current_dims (ds_space d)) sel) * type_size (ds_type d))%nat ->
  exists d', write_range cfg d sel buffer = Ok d' /\ read_range cfg d' sel = Ok buffer.
Proof.
  intros Hnone Hvalid Hsel Hbuf.
  destruct (write_read_same_selection cfg d sel buffer Hvalid) as (d' & Hw & Hr & _);
    [rewrite Hnone; constructor | exact Hsel | exact Hbuf |].
  exists d'. now split.
Qed.

(** The assumption that the filters are enabled is needed: with an optional
    shuffle filter whose decoder is missing, the chunk is read back raw,
    that is shuffled. *)
Example missing_decoder_breaks_round_trip :
  (d ← write_range encode_only optional_shuffle_dataset sample_selection sample_buffer;
   read_range encode_only d sample_selection)
  <> Ok sample_buffer.
Proof. vm_compute. intros [=]. Qed.

(** * Further properties of [h5e.pyx] *)

(** ** Subclasses *)

(** [issubclass] follows the bases. *)
Lemma issubclass_bases (c target : PyClass) :
  issubclass c target
  = bool_decide (c = target) || existsb (fun b => issubclass b target) (bases c).
Proof.
  destruct c; cbn [issubclass bases existsb]; rewrite ?orb_false_r; try reflexivity.
Qed.

Lemma issubclass_refl (c : PyClass) : issubclass c c = true.
Proof. destruct c; cbn [issubclass]; now rewrite bool_decide_eq_true_2. Qed.

Lemma issubclass_generated (cls1 cls2 target : PyClass) :
  issubclass (generate_class cls1 cls2) target
  = bool_decide (HybridClass cls1 cls2 = target)
    || (issubclass cls1 target || issubclass cls2 target).
Proof. reflexivity. Qed.

(** ** Dict literals with distinct keys *)

Lemma py_dict_lookup_NoDup `{Countable K} {V : Type} (entries : list (K * V)) (k : K) (v : V) :
  NoDup (entries.*1) -> (k, v) ∈ entries -> py_dict entries !! k = Some v.
Proof.
  induction entries as [|[k' v'] entries IH] using rev_ind; intros Hnodup Hin.
  - now apply elem_of_nil in Hin.
  - rewrite py_dict_snoc. rewrite fmap_app in Hnodup.
    apply NoDup_app in Hnodup as (Hnodup & Hfresh & _).
    apply elem_of_app in Hin as [Hin|Hin].
    + rewrite lookup_insert_ne; [now apply IH |].
      intros ->. apply (Hfresh k).
      * apply list_elem_of_fmap. exists (k, v). split; [reflexivity | exact Hin].
      * cbn. apply list_elem_of_singleton. reflexivity.
    + apply list_elem_of_singleton in Hin. injection Hin as -> ->.
      apply lookup_insert_eq.
Qed.

Lemma py_dict_lookup_None `{Countable K} {V : Type} (entries : list (K * V)) (k : K) :
  k ∉ entries.*1 -> py_dict entries !! k = None.
Proof.
  intros Hk. destruct (py_dict entries !! k) as [v|] eqn:Hv; [| reflexivity].
  apply py_dict_lookup_Some in Hv. exfalso. apply Hk.
  apply list_elem_of_fmap. exists (k, v). split; [reflexivity | exact Hv].
Qed.

Section Hierarchy.
Context `{HDF5 : HDF5_errors}.

(** What the major table can give: a class deriving from [H5Error] that is
    not [RuntimeError]. *)
Lemma major_class_facts (major : Z) :
  let maj_class := dict_get _major_table major H5Error in
  issubclass maj_class H5Error = true
  /\ maj_class <> RuntimeError
  /\ refinement (kind_of maj_class) = None.
Proof.
  cbv zeta. unfold dict_get.
  destruct (_major_table !! major) as [c|] eqn:Hc; [| now repeat split].
  apply py_dict_lookup_Some in Hc.
  repeat (apply elem_of_cons in Hc as [[= _ ->]|Hc]; [now repeat split |]).
  now apply elem_of_nil in Hc.
Qed.

(** What the minor and the exact table can give. *)
Lemma minor_class_python_style (minor : Z) (r : PyClass) :
  _minor_table !! minor = Some r -> r ∈ python_style_classes.
Proof.
  intros Hr. apply py_dict_lookup_Some in Hr. unfold python_style_classes.
  repeat (apply elem_of_cons in Hr as [[= _ ->]|Hr]; [set_solver |]).
  now apply elem_of_nil in Hr.
Qed.

Lemma exact_class_IOError (key : Z * Z) (r : PyClass) :
  _exact_table !! key = Some r -> r = IOError.
Proof.
  intros Hr. apply py_dict_lookup_Some in Hr.
  repeat (apply elem_of_cons in Hr as [[= _ ->]|Hr]; [reflexivity |]).
  now apply elem_of_nil in Hr.
Qed.

(** The class that [get_exc_msg] computes, by cases on the two tables. *)
Lemma get_exc_msg_class (g : Globals) (self0 : ErrorStackElement) (rest : ErrorStack) :
  exists msg,
    get_exc_msg g (self0 :: rest) =
    Some (match _exact_table !! (c_int (maj_num (e self0)), c_int (min_num (e self0))) with
          | Some r => generate_class (dict_get _major_table (c_int (maj_num (e self0))) H5Error) r
          | None =>
              match _minor_table !! c_int (min_num (e self0)) with
              | Some r => generate_class (dict_get _major_table (c_int (maj_num (e self0))) H5Error) r
              | None => dict_get _major_table (c_int (maj_num (e self0))) H5Error
              end
          end, msg).
Proof.
  unfold get_exc_msg, elem_code.
  destruct (_exact_table !! (c_int (maj_num (e self0)), c_int (min_num (e self0))));
    [eexists; reflexivity |].
  destruct (_minor_table !! c_int (min_num (e self0))); eexists; reflexivity.
Qed.

Lemma get_exc_msg_fst (g : Globals) (self0 : ErrorStackElement) (rest : ErrorStack) :
  fst <$> get_exc_msg g (self0 :: rest) =
  Some (match _exact_table !! (c_int (maj_num (e self0)), c_int (min_num (e self0))) with
        | Some r => generate_class (dict_get _major_table (c_int (maj_num (e self0))) H5Error) r
        | None =>
            match _minor_table !! c_int (min_num (e self0)) with
            | Some r => generate_class (dict_get _major_table (c_int (maj_num (e self0))) H5Error) r
            | None => dict_get _major_table (c_int (maj_num (e self0))) H5Error
            end
        end).
Proof. destruct (get_exc_msg_class g self0 rest) as [msg ->]. reflexivity. Qed.

(** X1.  Whatever the codes of its first frame, the class that
    [get_exc_msg] returns for a stack with frames derives from [H5Error]
    and from the class that the major table gives for the major code, cast
    to [int] as [code] does. *)
Theorem get_exc_msg_class_is_H5Error (g : Globals) (self0 : ErrorStackElement)
    (rest : ErrorStack) :
  exists exc msg,
    get_exc_msg g (self0 :: rest) = Some (exc, msg)
    /\ issubclass exc H5Error = true
    /\ issubclass exc (dict_get _major_table (c_int (maj_num (e self0))) H5Error) = true.
Proof.
  destruct (get_exc_msg_class g self0 rest) as [msg ->].
  eexists _, msg. split; [reflexivity |].
  destruct (major_class_facts (c_int (maj_num (e self0)))) as (Hsub & _ & _).
  generalize dependent (dict_get _major_table (c_int (maj_num (e self0))) H5Error).
  intros maj_class Hsub.
  assert (Hgen : forall r target, issubclass maj_class target = true ->
                   issubclass (generate_class maj_class r) target = true).
  { intros r target Ht. unfold generate_class. cbn [issubclass].
    rewrite Ht. now rewrite orb_true_r. }
  destruct (_exact_table !! (c_int (maj_num (e self0)), c_int (min_num (e self0)))) as [r|];
    [| destruct (_minor_table !! c_int (min_num (e self0))) as [r|]];
    (split; [try apply Hgen; exact Hsub | try apply Hgen; apply issubclass_refl]).
Qed.

(** X2.  A refinement of the class returned by [get_exc_msg] is always one
    of [IOError], [ValueError], [NotImplementedError], [KeyError] and
    [TypeError], and the class derives from it; when the exact table has
    an entry for the pair of codes, each cast to [int] as [code] does, the
    refinement is [IOError]. *)
Theorem get_exc_msg_refinement_python_style (g : Globals) (self0 : ErrorStackElement)
    (rest : ErrorStack) :
  exists exc msg,
    get_exc_msg g (self0 :: rest) = Some (exc, msg)
    /\ match refinement (kind_of exc) with
       | Some r => r ∈ python_style_classes /\ issubclass exc r = true
       | None => True
       end
    /\ match _exact_table !! (c_int (maj_num (e self0)), c_int (min_num (e self0))) with
       | Some _ => refinement (kind_of exc) = Some IOError
       | None => True
       end.
Proof.
  destruct (get_exc_msg_class g self0 rest) as [msg ->].
  eexists _, msg. split; [reflexivity |].
  destruct (major_class_facts (c_int (maj_num (e self0)))) as (_ & _ & Hnone).
  generalize dependent (dict_get _major_table (c_int (maj_num (e self0))) H5Error).
  intros maj_class Hnone.
  assert (Hgen : forall r, issubclass (generate_class maj_class r) r = true).
  { intros r. unfold generate_class. cbn [issubclass].
    rewrite (issubclass_refl r). now rewrite !orb_true_r. }
  destruct (_exact_table !! (c_int (maj_num (e self0)), c_int (min_num (e self0)))) as [r|] eqn:Hexact.
  - apply exact_class_IOError in Hexact as ->.
    split; [| reflexivity]. cbn [generate_class kind_of refinement].
    split; [| apply (Hgen IOError)].
    unfold python_style_classes. apply elem_of_cons. now left.
  - split; [| exact I].
    destruct (_minor_table !! c_int (min_num (e self0))) as [r|] eqn:Hminor.
    + cbn [generate_class kind_of refinement].
      split; [now apply (minor_class_python_style (c_int (min_num (e self0)))) | apply (Hgen r)].
    + now rewrite Hnone.
Qed.

(** X3.  [err_callback] always leaves a pending exception, whatever was
    pending before; its class is [RuntimeError] exactly when the library's
    stack holds no frame. *)
Theorem err_callback_RuntimeError_iff_empty (g : Globals) (estack : H5E_t)
    (ts : PyThreadState) :
  exists exc msg,
    err_callback g estack ts = (1, {| curexc := Some (exc, msg) |})
    /\ (exc = RuntimeError <-> estack = [])
    /\ (forall ts', err_callback g estack ts' = err_callback g estack ts).
Proof.
  unfold err_callback. rewrite ErrorStack_init_upward. cbn [app].
  destruct estack as [|frame estack].
  - eexists _, _. split; [reflexivity |]. split; [now split | reflexivity].
  - rewrite fmap_cons.
    destruct (get_exc_msg_class g (mkElement frame) (mkElement <$> estack)) as [msg ->].
    eexists _, msg. split; [reflexivity |]. split; [| reflexivity].
    cbn [e].
    destruct (major_class_facts (c_int (maj_num frame))) as (_ & Hne & _).
    generalize dependent (dict_get _major_table (c_int (maj_num frame)) H5Error).
    intros maj_class Hne.
    split; [| discriminate].
    destruct (_exact_table !! (c_int (maj_num frame), c_int (min_num frame))); [discriminate |].
    destruct (_minor_table !! c_int (min_num frame)); [discriminate | contradiction].
Qed.

(** X4.  The class and the single-line message depend on the first frame
    only: neither the frames after it nor the verbose flag change the
    class, and with the flag off the frames after the first do not change
    the message. *)
Theorem get_exc_msg_first_frame_only (g1 g2 : Globals) (self0 : ErrorStackElement)
    (rest1 rest2 : ErrorStack) :
  fst <$> get_exc_msg g1 (self0 :: rest1) = fst <$> get_exc_msg g2 (self0 :: rest2)
  /\ snd <$> get_exc_msg (verbose false g1) (self0 :: rest1)
     = snd <$> get_exc_msg (verbose false g2) (self0 :: rest2).
Proof.
  split.
  - now rewrite !get_exc_msg_fst.
  - now rewrite !get_exc_msg_snd.
Qed.

(** X5.  [ErrorStack(args)] keeps the items it is given and appends one
    element per frame of the library's stack, in the order of the walk;
    [walk_cb] never stops the walk, which ends with status 0. *)
Theorem ErrorStack_init_keeps_args (args : list ErrorStackElement) (estack : H5E_t) :
  H5Ewalk H5E_WALK_UPWARD walk_cb args estack = (0, ErrorStack_init args estack)
  /\ ErrorStack_init args estack = args ++ (mkElement <$> estack)
  /\ length (ErrorStack_init args estack) = (length args + length estack)%nat
  /\ e <$> drop (length args) (ErrorStack_init args estack) = estack.
Proof.
  assert (Hinit : ErrorStack_init args estack = args ++ (mkElement <$> estack))
    by apply ErrorStack_init_upward.
  split; [| split; [exact Hinit | split]].
  - rewrite Hinit. unfold H5Ewalk. apply walk_slots_walk_cb.
  - now rewrite Hinit, length_app, length_fmap.
  - rewrite Hinit, drop_app_length, <- list_fmap_compose.
    rewrite <- (list_fmap_id estack) at 2. apply list_fmap_ext. reflexivity.
Qed.
End Hierarchy.

(** ** The exposed description *)

Lemma tolower_toupper (c : ascii) : tolower (toupper c) = tolower c.
Proof. destruct c as [[] [] [] [] [] [] [] []]; vm_compute; reflexivity. Qed.

Lemma tolower_idempotent (c : ascii) : tolower (tolower c) = tolower c.
Proof. destruct c as [[] [] [] [] [] [] [] []]; vm_compute; reflexivity. Qed.

Lemma toupper_idempotent (c : ascii) : toupper (toupper c) = toupper c.
Proof. destruct c as [[] [] [] [] [] [] [] []]; vm_compute; reflexivity. Qed.

Lemma isupper_tolower (c : ascii) : isupper (tolower c) = false.
Proof. destruct c as [[] [] [] [] [] [] [] []]; vm_compute; reflexivity. Qed.

Lemma string_map_tolower_idempotent (s : string) :
  string_map tolower (string_map tolower s) = string_map tolower s.
Proof.
  induction s as [|c s IH]; cbn [string_map]; [reflexivity |].
  now rewrite tolower_idempotent, IH.
Qed.

Lemma string_map_length (f : ascii -> ascii) (s : string) :
  String.length (string_map f s) = String.length s.
Proof. induction s as [|c s IH]; cbn [string_map String.length]; [reflexivity | now rewrite IH]. Qed.

Lemma string_map_tolower_no_upper (s : string) :
  string_forall (fun c => negb (isupper c)) (string_map tolower s) = true.
Proof.
  induction s as [|c s IH]; cbn [string_map string_forall]; [reflexivity |].
  now rewrite isupper_tolower, IH.
Qed.

(** X6.  The description exposed for a frame is the library's description
    up to the case of its letters: both are equal once lower-cased, and of
    the same length.  After its first character the exposed description
    has no upper-case letter, and capitalizing it again changes nothing. *)
Theorem elem_desc_up_to_case (el : ErrorStackElement) :
  string_map tolower (elem_desc el) = string_map tolower (desc (e el))
  /\ String.length (elem_desc el) = String.length (desc (e el))
  /\ string_forall (fun c => negb (isupper c)) (string_tail (elem_desc el)) = true
  /\ capitalize (elem_desc el) = elem_desc el.
Proof.
  unfold elem_desc. destruct (desc (e el)) as [|c r]; [now repeat split |].
  cbn [capitalize string_map string_tail String.length].
  split; [| split; [| split]].
  - now rewrite tolower_toupper, string_map_tolower_idempotent.
  - now rewrite string_map_length.
  - apply string_map_tolower_no_upper.
  - now rewrite toupper_idempotent, string_map_tolower_idempotent.
Qed.

(** ** The trace of a longer stack *)

Lemma join_app (l1 l2 : list string) : join (l1 ++ l2) = join l1 +:+ join l2.
Proof.
  induction l1 as [|s l1 IH]; [reflexivity |].
  cbn [app join foldr]. fold (join (l1 ++ l2)). fold (join l1).
  now rewrite IH, string_app_assoc.
Qed.

Section TraceGrowth.
Context `{HDF5 : HDF5_errors}.

(** X7.  Frames added at the end of a stack that has frames only add to
    the end of its rendering: the text for the frames already there is
    unchanged, and the added frames are numbered from the length of the
    stack on. *)
Theorem ErrorStack_str_app (el : ErrorStackElement) (stack more : ErrorStack) :
  ErrorStack_str ((el :: stack) ++ more) =
  ErrorStack_str (el :: stack) +:+
  join (imap (fun i el' =>
                str_frame_head (length (el :: stack) + i) el' +:+ str_frame_codes el')
             more).
Proof.
  change ((el :: stack) ++ more) with (el :: (stack ++ more)).
  unfold ErrorStack_str. cbn [length Nat.eqb].
  rewrite !str_loop_join.
  change (el :: (stack ++ more)) with ((el :: stack) ++ more).
  rewrite imap_app, join_app, string_app_assoc. reflexivity.
Qed.
End TraceGrowth.

(** ** The tables when the codes are pairwise distinct *)

Ltac solve_elem_of :=
  repeat first [ apply list_elem_of_singleton; reflexivity
               | apply elem_of_cons; first [ left; reflexivity | right ] ].

Section DistinctCodes.
Context `{HDF5 : HDF5_errors}.

Lemma minor_codes_distinct :
  NoDup minor_codes ->
  NoDup (minor_entries.*1)
  /\ (H5E_CANTINIT ∉ minor_entries.*1)
  /\ (H5E_SYSERRSTR ∉ minor_entries.*1)
  /\ H5E_CANTINIT <> H5E_SYSERRSTR.
Proof.
  unfold minor_codes. intros Hnodup.
  apply NoDup_app in Hnodup as (Hentries & Hdisjoint & Hlast).
  split; [exact Hentries |].
  apply NoDup_cons in Hlast as [Hne _].
  rewrite list_elem_of_singleton in Hne.
  repeat split; [| | exact Hne].
  - intros Hin. apply (Hdisjoint _ Hin). solve_elem_of.
  - intros Hin. apply (Hdisjoint _ Hin). solve_elem_of.
Qed.

Lemma minor_table_entry (k : Z) (v : PyClass) :
  NoDup (minor_entries.*1) -> (k, v) ∈ minor_entries -> _minor_table !! k = Some v.
Proof. intros Hnodup Hin. now apply (py_dict_lookup_NoDup minor_entries). Qed.

Lemma minor_table_absent (k : Z) : k ∉ (minor_entries.*1) -> _minor_table !! k = None.
Proof. intros Hk. now apply (py_dict_lookup_None minor_entries). Qed.

Lemma exact_table_absent (major minor : Z) :
  (major, minor) <> (H5E_CACHE, H5E_BADVALUE) ->
  (major, minor) <> (H5E_RESOURCE, H5E_CANTINIT) ->
  (major, minor) <> (H5E_INTERNAL, H5E_SYSERRSTR) ->
  _exact_table !! (major, minor) = None.
Proof.
  intros H1 H2 H3. unfold _exact_table. apply py_dict_lookup_None.
  cbn [fmap list_fmap fst]. intros Hin.
  repeat (apply elem_of_cons in Hin as [Hin|Hin]; [contradiction |]).
  now apply elem_of_nil in Hin.
Qed.

(** X8.  With pairwise distinct minor codes, a frame whose minor code, cast
    to [int] as [code] does, is listed by the minor table and is not
    [H5E_BADVALUE] gets its refinement from the minor code alone, whatever
    the major code is: the class is the one generated from the major class
    and the class that the table lists for the minor code. *)
Theorem minor_code_refines_any_major (g : Globals) (frame : H5E_error_t)
    (rest : ErrorStack) (v : PyClass)
    (Hdistinct : NoDup minor_codes)
    (Hentry : (c_int (min_num frame), v) ∈ minor_entries)
    (Hother : c_int (min_num frame) <> H5E_BADVALUE) :
  fst <$> get_exc_msg g (mkElement frame :: rest)
  = Some (generate_class (dict_get _major_table (c_int (maj_num frame)) H5Error) v).
Proof.
  destruct (minor_codes_distinct Hdistinct) as (Hentries & Hinit & Hsys & _).
  assert (Hkey : c_int (min_num frame) ∈ minor_entries.*1).
  { apply list_elem_of_fmap. exists (c_int (min_num frame), v).
    split; [reflexivity | exact Hentry]. }
  rewrite get_exc_msg_fst. cbn [e].
  rewrite exact_table_absent.
  - now rewrite (minor_table_entry _ v Hentries Hentry).
  - intros [= _ Heq]. contradiction.
  - intros [= _ Heq]. apply Hinit. now rewrite <- Heq.
  - intros [= _ Heq]. apply Hsys. now rewrite <- Heq.
Qed.

Lemma major_table_entry (k : Z) (v : PyClass) :
  NoDup major_codes ->
  (k, v) ∈ [(H5E_CACHE, CacheError); (H5E_RESOURCE, ResourceError);
            (H5E_INTERNAL, InternalError)] ->
  dict_get _major_table k H5Error = v.
Proof.
  intros Hnodup Hin. unfold dict_get, _major_table.
  rewrite (py_dict_lookup_NoDup _ k v); [reflexivity | exact Hnodup |].
  repeat (apply elem_of_cons in Hin as [[= -> ->]|Hin]; [solve_elem_of |]).
  now apply elem_of_nil in Hin.
Qed.

(** X9.  With pairwise distinct codes that all fit a C [int], each of the
    three pairs of the exact table is classified with [IOError] as
    refinement, and only the pair is: [H5E_BADVALUE] under another major
    code is a [ValueError], and [H5E_CANTINIT] or [H5E_SYSERRSTR] under
    another major code has no refinement at all. *)
Theorem exact_pairs_only (g : Globals) (rest : ErrorStack) (fn d : string)
    (Hmajor : NoDup major_codes)
    (Hminor : NoDup minor_codes)
    (Hmajor_int : Forall (fun k => c_int k = k) major_codes)
    (Hminor_int : Forall (fun k => c_int k = k) minor_codes) :
  let class_of major minor :=
    fst <$> get_exc_msg g (mkElement (mkH5E_error major minor fn d) :: rest) in
  class_of H5E_CACHE H5E_BADVALUE = Some (HybridClass CacheError IOError)
  /\ class_of H5E_RESOURCE H5E_CANTINIT = Some (HybridClass ResourceError IOError)
  /\ class_of H5E_INTERNAL H5E_SYSERRSTR = Some (HybridClass InternalError IOError)
  /\ (forall major, c_int major <> H5E_CACHE ->
        class_of major H5E_BADVALUE
        = Some (HybridClass (dict_get _major_table (c_int major) H5Error) ValueError))
  /\ (forall major, c_int major <> H5E_RESOURCE ->
        class_of major H5E_CANTINIT = Some (dict_get _major_table (c_int major) H5Error))
  /\ (forall major, c_int major <> H5E_INTERNAL ->
        class_of major H5E_SYSERRSTR = Some (dict_get _major_table (c_int major) H5Error)).
Proof.
  destruct (minor_codes_distinct Hminor) as (Hentries & Hinit & Hsys & Hne).
  assert (Hbad : H5E_BADVALUE ∈ minor_entries.*1)
    by (cbn [fmap list_fmap minor_entries fst]; solve_elem_of).
  assert (Hbad_init : H5E_BADVALUE <> H5E_CANTINIT)
    by (intros Heq; apply Hinit; now rewrite <- Heq).
  assert (Hbad_sys : H5E_BADVALUE <> H5E_SYSERRSTR)
    by (intros Heq; apply Hsys; now rewrite <- Heq).
  rewrite Forall_forall in Hmajor_int, Hminor_int.
  assert (Hcache : c_int H5E_CACHE = H5E_CACHE)
    by (apply Hmajor_int; unfold major_codes; solve_elem_of).
  assert (Hresource : c_int H5E_RESOURCE = H5E_RESOURCE)
    by (apply Hmajor_int; unfold major_codes; solve_elem_of).
  assert (Hinternal : c_int H5E_INTERNAL = H5E_INTERNAL)
    by (apply Hmajor_int; unfold major_codes; solve_elem_of).
  assert (Hbadvalue : c_int H5E_BADVALUE = H5E_BADVALUE).
  { apply Hminor_int. unfold minor_codes. apply elem_of_app. left. exact Hbad. }
  assert (Hcantinit : c_int H5E_CANTINIT = H5E_CANTINIT).
  { apply Hminor_int. unfold minor_codes. apply elem_of_app. right. solve_elem_of. }
  assert (Hsyserrstr : c_int H5E_SYSERRSTR = H5E_SYSERRSTR).
  { apply Hminor_int. unfold minor_codes. apply elem_of_app. right. solve_elem_of. }
  assert (Hexact : forall major minor v,
            (major, minor, v) ∈ [(H5E_CACHE, H5E_BADVALUE, IOError);
                                 (H5E_RESOURCE, H5E_CANTINIT, IOError);
                                 (H5E_INTERNAL, H5E_SYSERRSTR, IOError)] ->
            _exact_table !! (major, minor) = Some v).
  { intros major minor v Hin. unfold _exact_table.
    apply py_dict_lookup_NoDup; [| exact Hin].
    cbn [fmap list_fmap fst]. repeat (apply NoDup_cons; split); [| | | apply NoDup_nil_2].
    - intros Hin'. repeat (apply elem_of_cons in Hin' as [[= _ Heq]|Hin']; [contradiction |]).
      now apply elem_of_nil in Hin'.
    - intros Hin'. repeat (apply elem_of_cons in Hin' as [[= _ Heq]|Hin']; [contradiction |]).
      now apply elem_of_nil in Hin'.
    - intros Hin'. now apply elem_of_nil in Hin'. }
  intros class_of. unfold class_of. rewrite !get_exc_msg_fst. cbn [e maj_num min_num].
  rewrite Hcache, Hresource, Hinternal, Hbadvalue, Hcantinit, Hsyserrstr.
  split; [| split; [| split; [| split; [| split]]]].
  - rewrite (Hexact H5E_CACHE H5E_BADVALUE IOError) by solve_elem_of.
    now rewrite (major_table_entry H5E_CACHE CacheError Hmajor) by solve_elem_of.
  - rewrite (Hexact H5E_RESOURCE H5E_CANTINIT IOError) by solve_elem_of.
    now rewrite (major_table_entry H5E_RESOURCE ResourceError Hmajor) by solve_elem_of.
  - rewrite (Hexact H5E_INTERNAL H5E_SYSERRSTR IOError) by solve_elem_of.
    now rewrite (major_table_entry H5E_INTERNAL InternalError Hmajor) by solve_elem_of.
  - intros major Hmaj. rewrite get_exc_msg_fst. cbn [e maj_num min_num].
    rewrite Hbadvalue.
    rewrite exact_table_absent; [| congruence | congruence | congruence].
    rewrite (minor_table_entry H5E_BADVALUE ValueError Hentries); [reflexivity |].
    unfold minor_entries. solve_elem_of.
  - intros major Hmaj. rewrite get_exc_msg_fst. cbn [e maj_num min_num].
    rewrite Hcantinit.
    rewrite exact_table_absent; [| congruence | congruence | congruence].
    now rewrite (minor_table_absent _ Hinit).
  - intros major Hmaj. rewrite get_exc_msg_fst. cbn [e maj_num min_num].
    rewrite Hsyserrstr.
    rewrite exact_table_absent; [| congruence | congruence | congruence].
    now rewrite (minor_table_absent _ Hsys).
Qed.

Lemma major_table_eq : _major_table = py_dict major_entries.
Proof. reflexivity. Qed.

(** X13.  A frame whose major code, cast to [int] as [code] does, is not a
    key of the major table is classified under [H5Error] itself: the class
    is [H5Error], or the class generated from [H5Error] and the refinement
    that the codes give. *)
Theorem unlisted_major_is_plain_H5Error (g : Globals) (frame : H5E_error_t)
    (rest : ErrorStack)
    (Hunlisted : c_int (maj_num frame) ∉ major_codes) :
  dict_get _major_table (c_int (maj_num frame)) H5Error = H5Error
  /\ exists exc msg,
       get_exc_msg g (mkElement frame :: rest) = Some (exc, msg)
       /\ category (kind_of exc) = H5Error
       /\ (exc = H5Error \/ exists r, exc = HybridClass H5Error r).
Proof.
  assert (Hget : dict_get _major_table (c_int (maj_num frame)) H5Error = H5Error).
  { unfold dict_get. rewrite major_table_eq.
    now rewrite (py_dict_lookup_None major_entries). }
  split; [exact Hget |].
  destruct (get_exc_msg_class g (mkElement frame) rest) as [msg ->].
  eexists _, msg. split; [reflexivity |]. cbn [e]. rewrite Hget.
  destruct (_exact_table !! (c_int (maj_num frame), c_int (min_num frame))) as [r|];
    [| destruct (_minor_table !! c_int (min_num frame)) as [r|]];
    (split; [reflexivity | first [left; reflexivity | right; eexists; reflexivity]]).
Qed.

(** X14.  With pairwise distinct major codes, a frame whose major code,
    cast to [int] as [code] does, is a key of the major table is classified
    under the class that the table gives for this code, whatever its minor
    code. *)
Theorem listed_major_gives_its_class (g : Globals) (frame : H5E_error_t)
    (rest : ErrorStack) (v : PyClass)
    (Hdistinct : NoDup major_codes)
    (Hentry : (c_int (maj_num frame), v) ∈ major_entries) :
  exists exc msg,
    get_exc_msg g (mkElement frame :: rest) = Some (exc, msg)
    /\ category (kind_of exc) = v
    /\ issubclass exc v = true.
Proof.
  assert (Hget : dict_get _major_table (c_int (maj_num frame)) H5Error = v).
  { unfold dict_get. rewrite major_table_eq.
    now rewrite (py_dict_lookup_NoDup major_entries _ v Hdistinct Hentry). }
  assert (Hplain : kind_of v = mkErrorKind v None).
  { rewrite <- Hget. apply major_class_plain. }
  destruct (get_exc_msg_class g (mkElement frame) rest) as [msg ->].
  eexists _, msg. split; [reflexivity |]. cbn [e]. rewrite Hget.
  destruct (_exact_table !! (c_int (maj_num frame), c_int (min_num frame))) as [r|];
    [| destruct (_minor_table !! c_int (min_num frame)) as [r|]].
  - split; [reflexivity |]. unfold generate_class. cbn [issubclass].
    now rewrite issubclass_refl, orb_true_r.
  - split; [reflexivity |]. unfold generate_class. cbn [issubclass].
    now rewrite issubclass_refl, orb_true_r.
  - split; [now rewrite Hplain | apply issubclass_refl].
Qed.
End DistinctCodes.

Lemma sample_codes_distinct :
  NoDup (major_codes (HDF5 := sample_errors))
  /\ NoDup (minor_codes (HDF5 := sample_errors)).
Proof. split; apply (bool_decide_unpack _); vm_compute; exact I. Qed.

Lemma sample_codes_fit_int :
  Forall (fun k => c_int k = k) (major_codes (HDF5 := sample_errors))
  /\ Forall (fun k => c_int k = k) (minor_codes (HDF5 := sample_errors)).
Proof. split; apply (bool_decide_unpack _); vm_compute; exact I. Qed.

(** The frame of the quick-start guide: [H5E_EXISTS] is a [ValueError]. *)
Lemma minor_code_refines_any_major_witness :
  fst <$> get_exc_msg (HDF5 := sample_errors) module_init
            (mkElement frame_exists :: [mkElement frame_create])
  = Some (generate_class
            (dict_get (_major_table (HDF5 := sample_errors))
                      (c_int (maj_num frame_exists)) H5Error)
            ValueError).
Proof.
  apply (minor_code_refines_any_major (HDF5 := sample_errors)).
  - apply sample_codes_distinct.
  - apply (bool_decide_unpack _). vm_compute. exact I.
  - vm_compute. discriminate.
Defined.

Lemma exact_pairs_only_witness :
  let class_of major minor :=
    fst <$> get_exc_msg (HDF5 := sample_errors) module_init
              (mkElement (mkH5E_error major minor "H5AC_protect" "x") :: []) in
  class_of 8 25 = Some (HybridClass CacheError IOError)
  /\ class_of 2 28 = Some (HybridClass ResourceError IOError)
  /\ class_of 3 29 = Some (HybridClass InternalError IOError)
  /\ (forall major, c_int major <> 8 ->
        class_of major 25
        = Some (HybridClass (dict_get (_major_table (HDF5 := sample_errors))
                                      (c_int major) H5Error)
                            ValueError))
  /\ (forall major, c_int major <> 2 ->
        class_of major 28
        = Some (dict_get (_major_table (HDF5 := sample_errors)) (c_int major) H5Error))
  /\ (forall major, c_int major <> 3 ->
        class_of major 29
        = Some (dict_get (_major_table (HDF5 := sample_errors)) (c_int major) H5Error)).
Proof.
  apply (exact_pairs_only (HDF5 := sample_errors) module_init [] "H5AC_protect" "x");
    first [apply sample_codes_distinct | apply sample_codes_fit_int].
Defined.

Lemma unlisted_major_is_plain_H5Error_witness :
  dict_get (_major_table (HDF5 := sample_errors)) (c_int 99) H5Error = H5Error
  /\ exists exc msg,
       get_exc_msg (HDF5 := sample_errors) module_init
         (mkElement (mkH5E_error 99 26 "f" "x") :: []) = Some (exc, msg)
       /\ category (kind_of exc) = H5Error
       /\ (exc = H5Error \/ exists r, exc = HybridClass H5Error r).
Proof.
  apply (unlisted_major_is_plain_H5Error (HDF5 := sample_errors) module_init
           (mkH5E_error 99 26 "f" "x") []).
  apply (bool_decide_unpack _). vm_compute. exact I.
Defined.

(** The frame of the quick-start guide: [H5E_SYM] is a [SymbolError]. *)
Lemma listed_major_gives_its_class_witness :
  exists exc msg,
    get_exc_msg (HDF5 := sample_errors) module_init
      (mkElement frame_exists :: [mkElement frame_create]) = Some (exc, msg)
    /\ category (kind_of exc) = SymbolError
    /\ issubclass exc SymbolError = true.
Proof.
  apply (listed_major_gives_its_class (HDF5 := sample_errors) module_init frame_exists
           [mkElement frame_create] SymbolError).
  - apply sample_codes_distinct.
  - apply (bool_decide_unpack _). vm_compute. exact I.
Defined.

(** The cast at work: a major code that is [H5E_SYM] plus 2^32 is looked up
    as [H5E_SYM]. *)
Example wide_code_is_cast_before_lookup :
  fst <$> get_exc_msg (HDF5 := sample_errors) module_init
            [mkElement (mkH5E_error (10 + 2 ^ 32) 26 "H5G_insert" "name already exists")]
  = Some (HybridClass SymbolError ValueError).
Proof. vm_compute. reflexivity. Qed.

(** * [ci/travis/get_hdf5_if_needed.sh] *)

Lemma has_dot_app (s1 s2 : string) : has_dot (s1 +:+ s2) = has_dot s1 || has_dot s2.
Proof.
  induction s1 as [|c s1 IH]; [reflexivity |].
  change (String c s1 +:+ s2) with (String c (s1 +:+ s2)).
  cbn [has_dot]. now rewrite IH, orb_assoc.
Qed.

Lemma remove_dot_suffix_no_dot (s : string) : has_dot s = false -> remove_dot_suffix s = s.
Proof.
  induction s as [|c s IH]; [reflexivity |].
  cbn [has_dot remove_dot_suffix]. intros Hno.
  apply orb_false_iff in Hno as [Hc Hs]. rewrite Hc. cbn [andb]. now rewrite IH.
Qed.

Lemma remove_dot_suffix_last_dot (base patch : string) :
  has_dot patch = false -> remove_dot_suffix (base +:+ "." +:+ patch) = base.
Proof.
  intros Hpatch. induction base as [|c base IH].
  - change ("" +:+ "." +:+ patch) with (String "." patch).
    cbn [remove_dot_suffix]. rewrite Hpatch. reflexivity.
  - change (String c base +:+ "." +:+ patch) with (String c (base +:+ "." +:+ patch)).
    assert (Hdot : has_dot (base +:+ "." +:+ patch) = true).
    { rewrite has_dot_app. change ("." +:+ patch) with (String "." patch).
      cbn [has_dot]. change (is_dot ".") with true. now rewrite orb_true_r. }
    change (remove_dot_suffix (String c (base +:+ "." +:+ patch)))
      with (if is_dot c && negb (has_dot (base +:+ "." +:+ patch)) then EmptyString
            else String c (remove_dot_suffix (base +:+ "." +:+ patch))).
    rewrite Hdot, IH. cbn [negb]. now rewrite andb_false_r.
Qed.

(** X10.  For a version [base.patch] whose last component [patch] has no
    dot, the release directory of the download is [hdf5-base] and the
    tarball is [hdf5-base.patch.tar.gz] in [hdf5-base.patch/src]; a version
    without any dot is its own release directory. *)
Theorem tarball_url_of_version (base patch : string) (Hpatch : has_dot patch = false) :
  remove_dot_suffix (base +:+ "." +:+ patch) = base
  /\ tarball_url (base +:+ "." +:+ patch)
     = "https://www.hdfgroup.org/ftp/HDF5/releases/hdf5-" +:+ base
       +:+ "/hdf5-" +:+ (base +:+ "." +:+ patch)
       +:+ "/src/hdf5-" +:+ (base +:+ "." +:+ patch) +:+ ".tar.gz"
  /\ remove_dot_suffix patch = patch.
Proof.
  split; [now apply remove_dot_suffix_last_dot |]. split.
  - unfold tarball_url. now rewrite remove_dot_suffix_last_dot.
  - now apply remove_dot_suffix_no_dot.
Qed.

(** The example of the script's comment: 1.12.0 is fetched from the
    directory of 1.12. *)
Lemma tarball_url_of_version_witness :
  remove_dot_suffix ("1.12" +:+ "." +:+ "0") = "1.12"
  /\ tarball_url ("1.12" +:+ "." +:+ "0")
     = "https://www.hdfgroup.org/ftp/HDF5/releases/hdf5-" +:+ "1.12"
       +:+ "/hdf5-" +:+ ("1.12" +:+ "." +:+ "0")
       +:+ "/src/hdf5-" +:+ ("1.12" +:+ "." +:+ "0") +:+ ".tar.gz"
  /\ remove_dot_suffix "0" = "0".
Proof. apply (tarball_url_of_version "1.12" "0"). reflexivity. Defined.

Lemma run_set_e_spec (succeeds : command -> bool) (cmds : list command) :
  let '(ran, ok) := run_set_e succeeds cmds in
  ran `prefix_of` cmds
  /\ ok = forallb succeeds cmds
  /\ (ok = true -> ran = cmds)
  /\ (ok = false ->
      exists before failing, ran = before ++ [failing]
        /\ succeeds failing = false /\ forallb succeeds before = true).
Proof.
  induction cmds as [|c rest IH]; cbn [run_set_e forallb].
  - split; [apply prefix_nil |]. split; [reflexivity |]. split; [reflexivity | discriminate].
  - destruct (succeeds c) eqn:Hc.
    + destruct (run_set_e succeeds rest) as [ran ok].
      destruct IH as (Hprefix & Hok & Hall & Hfail). cbn [andb].
      split; [now apply prefix_cons |]. split; [exact Hok |]. split.
      * intros Htrue. now rewrite (Hall Htrue).
      * intros Hfalse. destruct (Hfail Hfalse) as (before & failing & -> & Hf & Hb).
        exists (c :: before), failing. split; [reflexivity |]. split; [exact Hf |].
        cbn [forallb]. now rewrite Hc, Hb.
    + split; [exists rest; reflexivity |]. split; [reflexivity |].
      split; [discriminate |]. intros _. exists [], c. now repeat split.
Qed.


Lemma prefix_no_build_step (ran cmds : list command) :
  ran `prefix_of` cmds -> forallb (fun c => negb (is_build_step c)) cmds = true ->
  forallb (fun c => negb (is_build_step c)) ran = true.
Proof.
  intros [rest ->]. rewrite forallb_app. intros Hall.
  now apply andb_true_iff in Hall as [Hran _].
Qed.

(** The commands that ran for either outcome of the test. *)
Lemma get_hdf5_if_needed_ran (succeeds : command -> bool) (HDF5_DIR : option string)
    (HDF5_VERSION : string) (cached : bool) :
  let ran := fst (get_hdf5_if_needed succeeds HDF5_DIR HDF5_VERSION cached) in
  match HDF5_DIR, cached with
  | Some dir, false =>
      forall url, wget url ∈ ran -> url = tarball_url HDF5_VERSION
  | _, _ => forallb (fun c => negb (is_build_step c)) ran = true
  end.
Proof.
  cbv zeta. unfold get_hdf5_if_needed.
  pose proof (run_set_e_spec succeeds (script_commands HDF5_DIR HDF5_VERSION cached)) as H.
  destruct (run_set_e succeeds (script_commands HDF5_DIR HDF5_VERSION cached)) as [ran ok].
  destruct H as (Hprefix & _). cbn [fst].
  destruct HDF5_DIR as [dir|]; [destruct cached |].
  - apply (prefix_no_build_step _ _ Hprefix). reflexivity.
  - intros url Hc. destruct Hprefix as [rest Hrest].
    assert (Hin : wget url ∈ script_commands (Some dir) HDF5_VERSION false).
    { rewrite Hrest. apply elem_of_app. now left. }
    cbn [script_commands] in Hin.
    repeat (apply elem_of_cons in Hin as [Heq|Hin];
            [first [discriminate Heq | injection Heq as ->; reflexivity] |]).
    now apply elem_of_nil in Hin.
  - apply (prefix_no_build_step _ _ Hprefix). reflexivity.
Qed.

(** X12.  Nothing is downloaded or built when [HDF5_DIR] is unset, or when
    the test [-f $HDF5_DIR/lib/libhdf5.so] of the script succeeds: the
    script then only prints.  When [HDF5_DIR] is set (be it to the empty
    string) and the test fails, whatever is downloaded is the tarball of
    [HDF5_VERSION].  This follows the outcome of the test as the shell
    evaluates it, which is the presence of the file only when the value of
    [HDF5_DIR] is a plain word: then the script only prints when
    [$HDF5_DIR/lib/libhdf5.so] is a regular file, and downloads nothing but
    the tarball otherwise.  (The expansion is not quoted: for a directory
    name with a blank the test can fail although the file is there.) *)
Theorem get_hdf5_if_needed_downloads_only_if_needed (succeeds : command -> bool)
    (HDF5_DIR : option string) (HDF5_VERSION : string) (test_succeeds : bool)
    (is_file other : string -> bool) :
  let only_prints ran := forallb (fun c => negb (is_build_step c)) ran = true in
  let only_tarball ran := forall url, wget url ∈ ran -> url = tarball_url HDF5_VERSION in
  let ran := fst (get_hdf5_if_needed succeeds HDF5_DIR HDF5_VERSION test_succeeds) in
  match HDF5_DIR, test_succeeds with
  | Some dir, false => only_tarball ran
  | _, _ => only_prints ran
  end
  /\ match HDF5_DIR with
     | Some dir =>
         let ran := fst (get_hdf5_if_needed succeeds (Some dir) HDF5_VERSION
                           (test_f_libhdf5 is_file other dir)) in
         if plain_word dir then
           if is_file (dir +:+ "/lib/libhdf5.so") then only_prints ran else only_tarball ran
         else True
     | None => True
     end.
Proof.
  cbv zeta. split; [apply get_hdf5_if_needed_ran |].
  destruct HDF5_DIR as [dir|]; [| exact I].
  unfold test_f_libhdf5. destruct (plain_word dir); [| exact I].
  destruct (is_file (dir +:+ "/lib/libhdf5.so")) eqn:Hfile.
  - apply (get_hdf5_if_needed_ran succeeds (Some dir) HDF5_VERSION true).
  - apply (get_hdf5_if_needed_ran succeeds (Some dir) HDF5_VERSION false).
Qed.

(** A directory name with a blank: the file is there, the test has too
    many operands and fails, and the script downloads and builds. *)
Example get_hdf5_if_needed_blank_in_HDF5_DIR :
  let dir := "/home/travis/hdf5 cache" in
  let is_file path := true in
  let other path := false in
  plain_word dir = false
  /\ is_file (dir +:+ "/lib/libhdf5.so") = true
  /\ wget (tarball_url "1.12.0")
     ∈ fst (get_hdf5_if_needed (fun _ => true) (Some dir) "1.12.0"
              (test_f_libhdf5 is_file other dir)).
Proof.
  repeat split. vm_compute.
  repeat first [apply list_elem_of_here | apply list_elem_of_further].
Qed.
